(** * Logistic-regression training over numpy arrays

    A shallow embedding of [scripts/implementations.py]: the mini-batch
    sampler [batch_iter], [sigmoid], [clipping], the cross-entropy loss and
    gradient with their regularized variants, and the two training loops.

    - Scalars are IEEE-754 binary64 numbers, Rocq's primitive [float]: the
      numpy arrays of the program hold float64 values.  [np.exp] and [np.log]
      come from outside the repository and are section variables.
    - numpy arrays are objects: a buffer in a store, reached through a handle
      that selects a range of rows of the buffer (a basic slice is a view on
      the buffer it was cut from).  Functions receive handles and return
      handles; every array a numpy operation produces is a new buffer.
      Labels and weights are 1-D arrays and the feature matrix is 2-D, as in
      the data model of the spec.
    - The program's effects are threaded by a state-and-exception monad: the
      store of buffers, the number of permutations drawn from the global
      random generator, and the Python exception that ends a run.
    - [np.random.permutation] is a section variable: the permutation that the
      k-th draw of the process returns for a given size.
    - A scalar product adds its terms from left to right, starting from 0. *)

From Stdlib Require Import ZArith Floats Permutation Lia.
From stdpp Require Import base option list.

(** ** Python outcomes, the store and the monad *)

(** The exceptions a run can end with.  [OutsideModel] is no Python exception:
    it is what the model answers when a handle does not point to an array of
    the rank the modelled code expects (labels and weights are 1-D, the
    feature matrix is 2-D). *)
Inductive exn := ValueError | IndexError | UnboundLocalError | OutsideModel.

Inductive result (A : Type) :=
| Ok (a : A)
| Raise (e : exn).
Arguments Ok {A} a.
Arguments Raise {A} e.

(** A buffer: a 1-D array, or a 2-D array with its number of columns. *)
Inductive ndarray :=
| Vec (v : list float)
| Mat (ncols : nat) (rows : list (list float)).

Definition loc := nat.

(** An array handle: the rows [lo, hi) of buffer [buf]. *)
Record aref := { buf : loc; lo : nat; hi : nat }.

Record state := { heap : list ndarray; draws : nat }.

Definition M (A : Type) : Type := state → result (A * state).

#[global] Instance M_ret : MRet M := λ A a σ, Ok (a, σ).
#[global] Instance M_bind : MBind M := λ A B k m σ,
  match m σ with
  | Ok (a, σ') => k a σ'
  | Raise e => Raise e
  end.

Definition raise {A} (e : exn) : M A := λ _, Raise e.

Definition lift {A} (r : result A) : M A := λ σ,
  match r with
  | Ok a => Ok (a, σ)
  | Raise e => Raise e
  end.

(** [for x in xs: acc = body x acc] *)
Fixpoint for_each {A B} (xs : list A) (acc : B) (body : A → B → M B) : M B :=
  match xs with
  | [] => mret acc
  | x :: xs' => acc' ← body x acc; for_each xs' acc' body
  end.

(** Python's [range(n)] for an [int] n. *)
Definition range (n : Z) : list Z := Z.of_nat <$> seq 0 (Z.to_nat n).

(** ** Buffers and views *)

Definition nd_rows (a : ndarray) : nat :=
  match a with
  | Vec v => length v
  | Mat _ rows => length rows
  end.

(** The elements of an array in row-major order. *)
Definition nd_flat (a : ndarray) : list float :=
  match a with
  | Vec v => v
  | Mat _ rows => concat rows
  end.

Definition nd_shape (a : ndarray) : list nat :=
  match a with
  | Vec v => [length v]
  | Mat c rows => [length rows; c]
  end.

Definition window {A} (l h : nat) (xs : list A) : list A := take (h - l) (drop l xs).

(** Apply [f] to every element of an array value. *)
Definition nd_map (f : float → float) (a : ndarray) : ndarray :=
  match a with
  | Vec v => Vec (f <$> v)
  | Mat c rows => Mat c (fmap (M:=list) f <$> rows)
  end.

(** The array a handle denotes: the rows [lo, hi) of its buffer. *)
Definition nd_window (l h : nat) (a : ndarray) : ndarray :=
  match a with
  | Vec v => Vec (window l h v)
  | Mat c rows => Mat c (window l h rows)
  end.

(** Apply [f] to every element of the rows [l, h) of a buffer, in place. *)
Definition in_window (l h i : nat) : bool := (l <=? i)%nat && (i <? h)%nat.

Definition nd_map_rows (f : float → float) (l h : nat) (a : ndarray) : ndarray :=
  match a with
  | Vec v => Vec (imap (λ i x, if in_window l h i then f x else x) v)
  | Mat c rows => Mat c (imap (λ i r, if in_window l h i then f <$> r else r) rows)
  end.

Definition read (r : aref) : M ndarray := λ σ,
  match heap σ !! buf r with
  | Some a => Ok (nd_window (lo r) (hi r) a, σ)
  | None => Raise OutsideModel
  end.

Definition read_vec (r : aref) : M (list float) :=
  a ← read r;
  match a with
  | Vec v => mret v
  | Mat _ _ => raise OutsideModel
  end.

Definition read_mat (r : aref) : M (nat * list (list float)) :=
  a ← read r;
  match a with
  | Mat c rows => mret (c, rows)
  | Vec _ => raise OutsideModel
  end.

(** [len(r)] *)
Definition len (r : aref) : M nat := a ← read r; mret (nd_rows a).

(** A numpy operation's result: a new buffer, and the handle on all of it. *)
Definition alloc (a : ndarray) : M aref := λ σ,
  Ok ({| buf := length (heap σ); lo := 0; hi := nd_rows a |},
      {| heap := heap σ ++ [a]; draws := draws σ |}).

(** [r[mask(r)] = val]: a masked store through the handle, into its buffer. *)
Definition masked_store (r : aref) (mask : float → bool) (val : float) : M unit := λ σ,
  match heap σ !! buf r with
  | Some a =>
      Ok (tt, {| heap := <[buf r := nd_map_rows (λ x, if mask x then val else x) (lo r) (hi r) a]> (heap σ);
                 draws := draws σ |})
  | None => Raise OutsideModel
  end.

(** Python's [a[start:stop]]: negative indices count from the end, indices are
    clamped to the length, and a stop before the start gives an empty slice. *)
Definition clamp_index (n i : Z) : Z :=
  if (i <? 0)%Z then Z.max 0 (i + n) else Z.min i n.

Definition py_slice (r : aref) (n : nat) (start stop : Z) : aref :=
  let s := Z.to_nat (clamp_index (Z.of_nat n) start) in
  let e := Z.to_nat (clamp_index (Z.of_nat n) stop) in
  {| buf := buf r; lo := lo r + s; hi := lo r + (s `max` e) |}.

Definition slice (r : aref) (start stop : Z) : M aref :=
  n ← len r; mret (py_slice r n start stop).

(** [a[idx]] for an index array: a new array of the selected rows. *)
Definition select {A} (xs : list A) (idx : list nat) : result (list A) :=
  match mapM (λ i, xs !! i) idx with
  | Some ys => Ok ys
  | None => Raise IndexError
  end.

Definition nd_select (a : ndarray) (idx : list nat) : result ndarray :=
  match a with
  | Vec v => match select v idx with Ok v' => Ok (Vec v') | Raise e => Raise e end
  | Mat c rows => match select rows idx with Ok rows' => Ok (Mat c rows') | Raise e => Raise e end
  end.

Definition take_rows (r : aref) (idx : list nat) : M aref :=
  a ← read r; a' ← lift (nd_select a idx); alloc a'.

(** ** numpy arithmetic on array values *)

(** [a @ b] for two 1-D arrays of one length. *)
Definition dot (a b : list float) : float :=
  foldl PrimFloat.add 0%float (zip_with PrimFloat.mul a b).

Definition vdot (a b : list float) : result float :=
  if decide (length a = length b) then Ok (dot a b) else Raise ValueError.

(** [m @ v] for a 2-D array with [c] columns and a 1-D array. *)
Definition matvec (c : nat) (rows : list (list float)) (v : list float) : result (list float) :=
  if decide (c = length v) then Ok ((λ r, dot r v) <$> rows) else Raise ValueError.

Definition column (j : nat) (rows : list (list float)) : list float :=
  (λ r, default 0%float (r !! j)) <$> rows.

(** [m.T @ v] *)
Definition matTvec (c : nat) (rows : list (list float)) (v : list float) : result (list float) :=
  if decide (length rows = length v)
  then Ok ((λ j, dot (column j rows) v) <$> seq 0 c)
  else Raise ValueError.

(** An element-wise binary operation on two 1-D arrays, with numpy's
    broadcasting of a one-element array. *)
Definition broadcast2 (f : float → float → float) (a b : list float) : result (list float) :=
  if decide (length a = length b) then Ok (zip_with f a b)
  else match a, b with
       | [x], _ => Ok (f x <$> b)
       | _, [y] => Ok ((λ x, f x y) <$> a)
       | _, _ => Raise ValueError
       end.

(** ** The program *)

(** [clipping(h)]: two masked stores into [h], and [h] itself is returned. *)
Definition abs_threshold : float := 15%float.

Definition clipping (h : aref) : M aref :=
  _ ← masked_store h (λ x, abs_threshold <? x)%float abs_threshold;
  _ ← masked_store h (λ x, x <? - abs_threshold)%float (- abs_threshold)%float;
  mret h.

Section Program.

(** [np.exp] and [np.log] on one float64. *)
Variable exp ln : float → float.
(** [permutation k n]: what the k-th call of [np.random.permutation] in the
    process returns for [np.arange(n)]. *)
Variable permutation : nat → nat → list nat.

Definition draw_permutation (n : nat) : M (list nat) := λ σ,
  Ok (permutation (draws σ) n, {| heap := heap σ; draws := S (draws σ) |}).

(** [batch_iter] is a generator; the model lists what iterating it to the end
    yields.  Nothing in the generator depends on what its consumer does
    between two yields. *)
Definition batch_iter (y tx : aref) (batch_size num_batches : Z) (shuffle : bool)
  : M (list (aref * aref)) :=
  data_size ← len y;
  '(shuffled_y, shuffled_tx) ←
    (if shuffle then
       shuffle_indices ← draw_permutation data_size;
       shuffled_y ← take_rows y shuffle_indices;
       shuffled_tx ← take_rows tx shuffle_indices;
       mret (shuffled_y, shuffled_tx)
     else mret (y, tx));
  for_each (range num_batches) [] (λ batch_num yielded,
    let start_index := (batch_num * batch_size)%Z in
    let end_index := Z.min ((batch_num + 1) * batch_size) (Z.of_nat data_size) in
    if decide (start_index ≠ end_index) then
      minibatch_y ← slice shuffled_y start_index end_index;
      minibatch_tx ← slice shuffled_tx start_index end_index;
      mret (yielded ++ [(minibatch_y, minibatch_tx)])
    else mret yielded).

Definition sigmoid1 (z : float) : float := (1 / (1 + exp (- z)))%float.

Definition sigmoid (z : aref) : M aref :=
  zv ← read_vec z; alloc (Vec (sigmoid1 <$> zv)).

(** [tx @ w] *)
Definition matmul (tx w : aref) : M aref :=
  '(c, rows) ← read_mat tx; wv ← read_vec w;
  z ← lift (matvec c rows wv); alloc (Vec z).

(** [(-y.T @ np.log(h)) + (-(1 - y).T @ np.log(1 - h))] *)
Definition cross_entropy (yv hv : list float) : result float :=
  match vdot (PrimFloat.opp <$> yv) (ln <$> hv) with
  | Ok a =>
      match vdot (PrimFloat.opp <$> (PrimFloat.sub 1 <$> yv)) (ln <$> (PrimFloat.sub 1 <$> hv)) with
      | Ok b => Ok (a + b)%float
      | Raise e => Raise e
      end
  | Raise e => Raise e
  end.

Definition cross_entropy_loss (y tx w : aref) : M float :=
  z ← matmul tx w;
  c ← clipping z;
  h ← sigmoid c;
  yv ← read_vec y; hv ← read_vec h;
  lift (cross_entropy yv hv).

Definition cross_entropy_gradient (y tx w : aref) : M aref :=
  z ← matmul tx w;
  h ← sigmoid z;
  hv ← read_vec h; yv ← read_vec y;
  d ← lift (broadcast2 PrimFloat.sub hv yv);
  '(c, rows) ← read_mat tx;
  g ← lift (matTvec c rows d); alloc (Vec g).

Definition regularized_cross_entropy_loss (y tx w : aref) (lambda_ : float) : M float :=
  l ← cross_entropy_loss y tx w;
  wv ← read_vec w;
  mret (l + lambda_ * dot wv wv)%float.

Definition regularized_cross_entropy_gradient (y tx w : aref) (lambda_ : float) : M aref :=
  g ← cross_entropy_gradient y tx w;
  gv ← read_vec g; wv ← read_vec w;
  r ← lift (broadcast2 PrimFloat.add gv (PrimFloat.mul (2 * lambda_) <$> wv));
  alloc (Vec r).

(** [w - gamma * gr] *)
Definition descend (w : aref) (gamma : float) (gr : aref) : M aref :=
  wv ← read_vec w; gv ← read_vec gr;
  r ← lift (broadcast2 PrimFloat.sub wv (PrimFloat.mul gamma <$> gv));
  alloc (Vec r).

(** The local [loss] is unbound until the first epoch ends: [None]. *)
Definition return_w_loss (w : aref) (loss : option float) : M (aref * float) :=
  match loss with
  | Some l => mret (w, l)
  | None => raise UnboundLocalError
  end.

Definition logistic_regression (y tx initial_w : aref) (max_iters : Z) (gamma : float)
    (batch_size : Z) : M (aref * float) :=
  '(w, loss) ← for_each (range max_iters) (initial_w, None) (λ n_iter '(w, _),
    batches ← batch_iter y tx batch_size 1 true;
    w ← for_each batches w (λ '(minibatch_y, minibatch_tx) w,
      gr ← cross_entropy_gradient minibatch_y minibatch_tx w;
      descend w gamma gr);
    loss ← cross_entropy_loss y tx w;
    mret (w, Some loss));
  return_w_loss w loss.

Definition reg_logistic_regression (y tx : aref) (lambda_ : float) (initial_w : aref)
    (max_iters : Z) (gamma : float) (batch_size : Z) : M (aref * float) :=
  '(w, loss) ← for_each (range max_iters) (initial_w, None) (λ n_iter '(w, _),
    batches ← batch_iter y tx batch_size 1 true;
    w ← for_each batches w (λ '(minibatch_y, minibatch_tx) w,
      gr ← regularized_cross_entropy_gradient minibatch_y minibatch_tx w lambda_;
      descend w gamma gr);
    loss ← regularized_cross_entropy_loss y tx w lambda_;
    mret (w, Some loss));
  return_w_loss w loss.

End Program.

(** ** The spec's formulas, on array values *)

Section Formulas.
Variable exp ln : float → float.

(** Clipping one linear score to [-15, 15]. *)
Definition spec_clip (z : float) : float :=
  if (15 <? z)%float then 15%float
  else if (z <? -15)%float then (-15)%float
  else z.

(** The linear scores [tx @ w]. *)
Definition scores (rows : list (list float)) (wv : list float) : list float :=
  (λ r, dot r wv) <$> rows.

(** [-yᵗ·log(h) - (1-y)ᵗ·log(1-h)], with the two scalar products negated on
    their left factor as the program writes them. *)
Definition spec_cross_entropy (yv h : list float) : float :=
  (dot (PrimFloat.opp <$> yv) (ln <$> h)
   + dot (PrimFloat.opp <$> (PrimFloat.sub 1 <$> yv)) (ln <$> (PrimFloat.sub 1 <$> h)))%float.

(** The loss: scores, clipped, through the sigmoid. *)
Definition spec_loss (yv : list float) (rows : list (list float)) (wv : list float) : float :=
  spec_cross_entropy yv (sigmoid1 exp <$> (spec_clip <$> scores rows wv)).

(** [txᵗ · (h - y)], entry [j] being the scalar product of column [j] of [tx]
    with [h - y]. *)
Definition transposed_product (c : nat) (rows : list (list float)) (d : list float) : list float :=
  (λ j, dot (column j rows) d) <$> seq 0 c.

(** The gradient: the sigmoid of the scores as they are, not clipped. *)
Definition spec_gradient (yv : list float) (c : nat) (rows : list (list float))
    (wv : list float) : list float :=
  transposed_product c rows (zip_with PrimFloat.sub (sigmoid1 exp <$> scores rows wv) yv).

Definition spec_reg_loss (lambda_ : float) (yv : list float) (rows : list (list float))
    (wv : list float) : float :=
  (spec_loss yv rows wv + lambda_ * dot wv wv)%float.

Definition spec_reg_gradient (lambda_ : float) (yv : list float) (c : nat)
    (rows : list (list float)) (wv : list float) : list float :=
  zip_with PrimFloat.add (spec_gradient yv c rows wv) (PrimFloat.mul (2 * lambda_) <$> wv).

(** [w ← w − gamma * gradient] *)
Definition spec_update (gamma : float) (wv g : list float) : list float :=
  zip_with PrimFloat.sub wv (PrimFloat.mul gamma <$> g).

End Formulas.

(** The rows an index array selects, for indices known to be in range. *)
Definition permute {A} (xs : list A) (idx : list nat) : list A :=
  omap (λ i, xs !! i) idx.

Definition nd_permute (a : ndarray) (idx : list nat) : ndarray :=
  match a with
  | Vec v => Vec (permute v idx)
  | Mat c rows => Mat c (permute rows idx)
  end.

(** Python's [xs[start:stop]] on the rows of an array value. *)
Definition rows_slice {A} (xs : list A) (start stop : Z) : list A :=
  let n := Z.of_nat (length xs) in
  let s := Z.to_nat (clamp_index n start) in
  let e := Z.to_nat (clamp_index n stop) in
  window s (s `max` e) xs.

Definition nd_slice (a : ndarray) (start stop : Z) : ndarray :=
  match a with
  | Vec v => Vec (rows_slice v start stop)
  | Mat c rows => Mat c (rows_slice rows start stop)
  end.

(** The bounds of batch [b], for [n] rows of data. *)
Definition batch_start (batch_size b : Z) : Z := (b * batch_size)%Z.
Definition batch_end (batch_size : Z) (n : nat) (b : Z) : Z :=
  Z.min ((b + 1) * batch_size) (Z.of_nat n).

(** The batch indices that yield a batch, in the order of the loop: those
    whose start differs from their end. *)
Definition emitted (batch_size : Z) (n : nat) (num_batches : Z) : list Z :=
  filter (λ b, batch_start batch_size b ≠ batch_end batch_size n b) (range num_batches).

(** The rows of batch [b]: Python's slice between the bounds of the batch. *)
Definition batch_rows {A} (xs : list A) (batch_size : Z) (n : nat) (b : Z) : list A :=
  rows_slice xs (batch_start batch_size b) (batch_end batch_size n b).

Definition nd_batch (a : ndarray) (batch_size : Z) (n : nat) (b : Z) : ndarray :=
  nd_slice a (batch_start batch_size b) (batch_end batch_size n b).

(** The handle [r] denotes the array [a] in the store [σ]. *)
Definition points_to (σ : state) (r : aref) (a : ndarray) : Prop :=
  read r σ = Ok (a, σ).

(** The store [σ'] holds every buffer of [σ] unchanged, and possibly more. *)
Definition extends (σ σ' : state) : Prop :=
  ∃ new, heap σ' = heap σ ++ new.

(** The handles the loop of [batch_iter] yields for the batch indices [ids]. *)
Definition batch_handles (sy stx : aref) (ny ntx : nat) (batch_size : Z) (n : nat)
    (ids : list Z) : list (aref * aref) :=
  (λ b, (py_slice sy ny (batch_start batch_size b) (batch_end batch_size n b),
         py_slice stx ntx (batch_start batch_size b) (batch_end batch_size n b))) <$> ids.

(** The interval of C6, in float64: the doubles that Python reads [1e-7] and
    computes [1 - 1e-7] as. *)
Definition interval_low : float := 0x1.ad7f29abcaf48p-24%float.
Definition interval_high : float := (1 - interval_low)%float.

Definition strictly_inside (p : float) : Prop :=
  (interval_low <? p)%float = true ∧ (p <? interval_high)%float = true.

Definition not_saturated (p : float) : Prop :=
  (p =? 0)%float = false ∧ (p =? 1)%float = false.

(** What C6 needs of [np.exp]: on the clipping range [-15, 15] its values lie
    between 2^-22 and 2^22 (the exponential itself stays between 3.05e-7 and
    3.27e6 there, 2^-22 is 2.39e-7 and 2^22 is 4.19e6). *)
Definition exp_in_range (exp : float → float) : Prop :=
  ∀ x, (-15 <=? x)%float = true → (x <=? 15)%float = true →
       (0x1p-22 <=? exp x)%float = true ∧ (exp x <=? 0x1p22)%float = true.


(** The handles [batches] denote, in order, the batches of the arrays [ya]
    and [txa] that are emitted for [num_batches] batch indices. *)
Definition yields (σ : state) (batches : list (aref * aref)) (ya txa : ndarray)
    (batch_size : Z) (n : nat) (num_batches : Z) : Prop :=
  Forall2 (λ '(minibatch_y, minibatch_tx) b,
             points_to σ minibatch_y (nd_batch ya batch_size n b)
             ∧ points_to σ minibatch_tx (nd_batch txa batch_size n b))
          batches (emitted batch_size n num_batches).

(** The training loop on array values: one epoch draws one permutation and
    makes one update per emitted batch; [grad] is the gradient of the
    variant. *)
Section Training.
Variable grad : list float → nat → list (list float) → list float → list float.
Variable permutation : nat → nat → list nat.
Variable batch_size : Z.
Variable gamma : float.
Variable yv : list float.
Variable c : nat.
Variable rows : list (list float).

Definition spec_epoch (k : nat) (wv : list float) : list float :=
  let n := length yv in
  let idx := permutation k n in
  foldl (λ w b, spec_update gamma w
                  (grad (batch_rows (permute yv idx) batch_size n b) c
                        (batch_rows (permute rows idx) batch_size n b) w))
        wv (emitted batch_size n 1).

(** [iters] epochs, the first of them using draw number [k]. *)
Fixpoint spec_train (iters k : nat) (wv : list float) : list float :=
  match iters with
  | 0 => wv
  | S i => spec_train i (S k) (spec_epoch k wv)
  end.

End Training.

(** The weights of a loop are the initial array until an update rebinds them
    to an array made after the call began, from the store [σ]. *)
Definition rebound (σ : state) (initial_w : aref) (w : aref) (σi : state) : Prop :=
  extends σ σi ∧ (w = initial_w ∨ length (heap σ) ≤ buf w).

(** The run of [m] from [σ] returns, with a result and a final store that
    satisfy [Q]. *)
Definition wp {A} (m : M A) (σ : state) (Q : A → state → Prop) : Prop :=
  match m σ with
  | Ok (a, σ') => Q a σ'
  | Raise _ => False
  end.

(** From [σ] to [σ']: every buffer of [σ] is unchanged, and [k] permutations
    were drawn. *)
Definition after (σ : state) (k : nat) (σ' : state) : Prop :=
  extends σ σ' ∧ draws σ' = draws σ + k.

(** Whenever [m] returns, it has left every buffer of the initial store as it
    was, and has drawn [k] permutations. *)
Definition preserves {A} (k : nat) (m : M A) : Prop :=
  ∀ σ a σ', m σ = Ok (a, σ') → after σ k σ'.

Create HintDb preserves.

(** ** Concrete data, for running the model *)

Module Sample.

(** Executable stand-ins for [np.exp] and [np.log]: (1 + x/1024)^1024, and two
    terms of the series of the logarithm in (x-1)/(x+1). *)
Definition exp (x : float) : float :=
  Nat.iter 10 (λ y, y * y)%float (1 + x / 1024)%float.

Definition ln (x : float) : float :=
  let t := ((x - 1) / (x + 1))%float in
  (2 * (t + t * t * t / 3))%float.

(** The same stand-in, kept between 2^-22 and 2^22. *)
Definition exp_bounded (x : float) : float :=
  let v := exp x in
  if (v <? 0x1p-22)%float then 0x1p-22%float
  else if (0x1p22 <? v)%float then 0x1p22%float
  else if is_nan v then 1%float
  else v.

(** A generator that alternates between reversing and keeping the order. *)
Definition permutation (k n : nat) : list nat :=
  if Nat.even k then reverse (seq 0 n) else seq 0 n.

Definition yv : list float := [1; 0; 1]%float.
Definition rows : list (list float) := [[1; 2]; [3; -1]; [0.5; 4]]%float.
Definition wv : list float := [0; 0]%float.

Definition σ0 : state := {| heap := [Vec yv; Mat 2 rows; Vec wv]; draws := 0 |}.
Definition y : aref := {| buf := 0; lo := 0; hi := 3 |}.
Definition tx : aref := {| buf := 1; lo := 0; hi := 3 |}.
Definition w : aref := {| buf := 2; lo := 0; hi := 2 |}.

Definition y1 : aref := {| buf := 0; lo := 0; hi := 1 |}.
Definition tx1 : aref := {| buf := 1; lo := 0; hi := 1 |}.
Definition w1 : aref := {| buf := 2; lo := 0; hi := 1 |}.

(** Linear scores on both sides of the clipping range, and a view on all
    but the first of them. *)
Definition zv : list float := [20; -20; 3; 15.5]%float.
Definition σz : state := {| heap := [Vec zv]; draws := 0 |}.
Definition z : aref := {| buf := 0; lo := 0; hi := 4 |}.
Definition z_tail : aref := {| buf := 0; lo := 1; hi := 4 |}.

End Sample.

(** ** One update per epoch *)

(** The weights after one update computed from the first [batch_size] rows
    of the data as shuffled by draw number [k], and after [iters] such
    updates with successive draws. *)
Section Steps.
Variable grad : list float → nat → list (list float) → list float → list float.
Variable permutation : nat → nat → list nat.
Variable batch_size : nat.
Variable gamma : float.
Variable yv : list float.
Variable c : nat.
Variable rows : list (list float).

Definition spec_step (k : nat) (wv : list float) : list float :=
  let idx := permutation k (length yv) in
  spec_update gamma wv
    (grad (take batch_size (permute yv idx)) c (take batch_size (permute rows idx)) wv).

Fixpoint spec_steps (iters k : nat) (wv : list float) : list float :=
  match iters with
  | 0 => wv
  | S i => spec_steps i (S k) (spec_step k wv)
  end.

End Steps.

(** A dataset without rows, for two features. *)
Module Corner.

Definition wv : list float := [0.5; -1]%float.
Definition σ_empty : state := {| heap := [Vec []; Mat 2 []; Vec wv]; draws := 0 |}.
Definition y : aref := {| buf := 0; lo := 0; hi := 0 |}.
Definition tx : aref := {| buf := 1; lo := 0; hi := 0 |}.
Definition w : aref := {| buf := 2; lo := 0; hi := 2 |}.

End Corner.

(** * Data cleaning: [dataprocess/process.py]

    The dataset [X] is a 2-D array of float64 and [y] a 1-D array, both in
    the store.  [np.unique], [np.quantile] and [np.median] come from outside
    the repository and are section variables, each on one column:
    [np.quantile(X, q, axis=0)] and the loops of the program work column by
    column.  [np.quantile] may raise (on a column without elements, in some
    versions of numpy), so its model returns a [result]. *)

(** [xs[i]] for an index [i] that [range] produced. *)
Definition item {A} (xs : list A) (i : nat) : result A :=
  match xs !! i with
  | Some x => Ok x
  | None => Raise IndexError
  end.

(** [f] on every element of a list, stopping at the first exception. *)
Fixpoint collect {A B} (f : A → result B) (xs : list A) : result (list B) :=
  match xs with
  | [] => Ok []
  | x :: xs' =>
      match f x with
      | Ok y => match collect f xs' with
                | Ok ys => Ok (y :: ys)
                | Raise e => Raise e
                end
      | Raise e => Raise e
      end
  end.

(** The columns of a 2-D array with [c] columns. *)
Definition columns (c : nat) (rows : list (list float)) : list (list float) :=
  (λ j, column j rows) <$> seq 0 c.

(** [X[:, i] = f(X[:, i])], element by element, on the rows the handle
    denotes: a store into column [i] of its buffer.  This is how the masked
    stores [X[mask, i] = v] of the program are modelled, [f] keeping the
    elements outside the mask. *)
Definition store_column (r : aref) (i : nat) (f : float → float) : M unit := λ σ,
  match heap σ !! buf r with
  | Some (Mat c rows) =>
      Ok (tt, {| heap := <[buf r := Mat c (imap (λ k row, if in_window (lo r) (hi r) k
                                                         then alter f i row else row) rows)]>
                           (heap σ);
                 draws := draws σ |})
  | _ => Raise OutsideModel
  end.

(** [np.delete(X, ids, axis=1)] for a list of ints: an index counts from the
    end when it is negative and raises IndexError out of range; the columns
    that are not listed are kept, in their order, in a new array. *)
Definition wrap_index (n : nat) (i : Z) : result nat :=
  if decide (0 ≤ i < Z.of_nat n)%Z then Ok (Z.to_nat i)
  else if decide (- Z.of_nat n ≤ i < 0)%Z then Ok (Z.to_nat (i + Z.of_nat n))
  else Raise IndexError.

Definition kept_columns (c : nat) (dropped : list nat) : list nat :=
  filter (λ j, j ∉ dropped) (seq 0 c).

Definition np_delete_columns (c : nat) (rows : list (list float)) (ids : list Z)
  : result ndarray :=
  match collect (wrap_index c) ids with
  | Ok dropped =>
      let kept := kept_columns c dropped in
      Ok (Mat (length kept) ((λ row, permute row kept) <$> rows))
  | Raise e => Raise e
  end.

(** [xs[mask]] for a boolean array: the elements where the mask holds, in a
    new array; IndexError when the lengths differ. *)
Definition mask_select {A} (mask : list bool) (xs : list A) : result (list A) :=
  if decide (length mask = length xs)
  then Ok (snd <$> filter (λ p, p.1 = true) (zip mask xs))
  else Raise IndexError.

(** Python's truth value of a float, and the float a bool is stored as. *)
Definition truthy (x : float) : bool := negb (x =? 0)%float.
Definition of_bool (b : bool) : float := if b then 1%float else 0%float.

(** [np.logical_and(x1, x2, out)]: the third positional argument of the ufunc
    is the array its result is stored into, not a third operand. *)
Definition logical_and_out (x1 x2 out : list (list bool)) : list (list bool) :=
  zip_with (zip_with andb) x1 x2.

(** The replacements the program stores, on one element. *)
Definition raise_to (lower x : float) : float := if (x <? lower)%float then lower else x.
Definition lower_to (upper x : float) : float := if (upper <? x)%float then upper else x.
Definition replace_marker (nan_val m x : float) : float :=
  if (x =? nan_val)%float then m else x.

(** [remove_custom_features(X, custom_feature_ids)] *)
Definition remove_custom_features (X : aref) (custom_feature_ids : list Z) : M aref :=
  '(c, rows) ← read_mat X;
  a ← lift (np_delete_columns c rows custom_feature_ids);
  alloc a.

Section Process.

(** [len(np.unique(v))] for a 1-D array [v]. *)
Variable unique_count : list float → nat.
(** [np.quantile(v, q)] and [np.median(v)] for a 1-D array [v]. *)
Variable quantile : float → list float → result float.
Variable median : list float → float.

(** [np.quantile(X, q, axis=0)] *)
Definition quantiles (q : float) (c : nat) (rows : list (list float)) : result (list float) :=
  collect (quantile q) (columns c rows).

(** [remove_tiny_features(X, threshold)] *)
Definition remove_tiny_features (X : aref) (threshold : Z) : M (aref * list Z) :=
  '(d, rows) ← read_mat X;
  remove_features ← for_each (seq 0 d) [] (λ i remove_features,
    let unique_values := unique_count (column i rows) in
    if decide (Z.of_nat unique_values ≤ threshold)%Z
    then mret (remove_features ++ [Z.of_nat i])
    else mret remove_features);
  a ← lift (np_delete_columns d rows remove_features);
  X_cleaned ← alloc a;
  mret (X_cleaned, remove_features).

(** [remove_outliers(X, y, custom_range)]: [custom_keep] is a copy of [X]
    whose columns are overwritten with booleans, stored as 1.0 and 0.0. *)
Definition custom_keep_column (range : option (float * float)) (i : nat)
    (custom_keep : list (list float)) : list (list float) :=
  match range with
  | Some (lower, upper) =>
      alter (λ x, of_bool ((lower <=? x)%float && (x <=? upper)%float)) i <$> custom_keep
  | None => alter (λ _, of_bool true) i <$> custom_keep
  end.

Definition remove_outliers (X y : aref) (custom_range : option (list (option (float * float))))
  : M (aref * aref) :=
  '(c, rows) ← read_mat X;
  custom_keep ←
    match custom_range with
    | Some custom_range =>
        if decide (length custom_range ≠ c) then raise ValueError
        else for_each (seq 0 (length custom_range)) rows (λ i custom_keep,
               range ← lift (item custom_range i);
               mret (custom_keep_column range i custom_keep))
    | None => mret (fmap (M:=list) (λ _, of_bool true) <$> rows)
    end;
  upper_quart ← lift (quantiles 0.75 c rows);
  lower_quart ← lift (quantiles 0.25 c rows);
  IQR ← lift (broadcast2 PrimFloat.sub upper_quart lower_quart);
  lower_bound ← lift (broadcast2 PrimFloat.sub lower_quart (PrimFloat.mul 1.5 <$> IQR));
  upper_bound ← lift (broadcast2 PrimFloat.add upper_quart (PrimFloat.mul 1.5 <$> IQR));
  let to_keep :=
    forallb id <$>
      logical_and_out
        (fmap (M:=list) truthy <$> custom_keep)
        ((λ row, zip_with (λ x lower, (lower <=? x)%float) row lower_bound) <$> rows)
        ((λ row, zip_with (λ x upper, (x <=? upper)%float) row upper_bound) <$> rows) in
  rows' ← lift (mask_select to_keep rows);
  X' ← alloc (Mat c rows');
  yv ← read_vec y;
  yv' ← lift (mask_select to_keep yv);
  y' ← alloc (Vec yv');
  mret (X', y').

(** An optional quartile argument: the array given, or the quartile of [X]
    in a new array. *)
Definition quartile_or (given : option aref) (q : float) (X : aref) : M aref :=
  match given with
  | Some a => mret a
  | None => '(c, rows) ← read_mat X; v ← lift (quantiles q c rows); alloc (Vec v)
  end.

(** [bound_outliers(X, upper_quart, lower_quart)] *)
Definition bound_outliers (X : aref) (upper_quart lower_quart : option aref)
  : M (aref * aref * aref) :=
  upper_quart ← quartile_or upper_quart 0.75 X;
  lower_quart ← quartile_or lower_quart 0.25 X;
  uq ← read_vec upper_quart; lq ← read_vec lower_quart;
  IQR ← lift (broadcast2 PrimFloat.sub uq lq);
  lower_bound ← lift (broadcast2 PrimFloat.sub lq (PrimFloat.mul 1.5 <$> IQR));
  upper_bound ← lift (broadcast2 PrimFloat.add uq (PrimFloat.mul 1.5 <$> IQR));
  '(c, _) ← read_mat X;
  _ ← for_each (seq 0 c) tt (λ i _,
    lower ← lift (item lower_bound i);
    _ ← store_column X i (raise_to lower);
    upper ← lift (item upper_bound i);
    store_column X i (lower_to upper));
  mret (X, upper_quart, lower_quart).

(** [impute_median(X, train_medians, nan_val)] *)
Definition impute_median (X : aref) (train_medians : option (list float)) (nan_val : float)
  : M (aref * list float) :=
  '(c, rows) ← read_mat X;
  train_medians ←
    match train_medians with
    | Some train_medians => mret train_medians
    | None =>
        for_each (seq 0 c) [] (λ i train_medians,
          let present := filter (λ x, (x =? nan_val)%float = false) (column i rows) in
          mret (train_medians ++ [median present]))
    end;
  _ ← for_each (seq 0 c) tt (λ i _,
    m ← lift (item train_medians i);
    store_column X i (replace_marker nan_val m));
  mret (X, train_medians).

End Process.

(** The fences of a column with quartiles [uq] and [lq]: 1.5 times the
    interquartile range below the lower and above the upper quartile. *)
Definition lower_fence (uq lq : float) : float := (lq - 1.5 * (uq - lq))%float.
Definition upper_fence (uq lq : float) : float := (uq + 1.5 * (uq - lq))%float.

(** A 2-D array value is rectangular. *)
Definition rectangular (c : nat) (rows : list (list float)) : Prop :=
  Forall (λ row, length row = c) rows.

(** From [σ] to [σ']: only the buffer [l] may have changed; no buffer was
    added and nothing was drawn. *)
Definition modifies_only (l : loc) (σ σ' : state) : Prop :=
  length (heap σ') = length (heap σ) ∧ draws σ' = draws σ
  ∧ ∀ l', l' ≠ l → heap σ' !! l' = heap σ !! l'.

(** What the column loops of the program make of one row: [F j] on the
    element of column [j]. *)
Definition map_row (F : nat → float → float) (row : list float) : list float := imap F row.

(** The columns before [k] have been stored into. *)
Definition upto (k : nat) (G : nat → float → float) (j : nat) (x : float) : float :=
  if decide (j < k) then G j x else x.

(** One row after imputation with the medians [ms], and the medians the
    program computes when it is given none: the median of the elements of a
    column that differ from the marker. *)
Definition impute_row (nan_val : float) (ms : list float) (row : list float) : list float :=
  zip_with (λ x m, replace_marker nan_val m x) row ms.

Definition column_medians (median : list float → float) (nan_val : float) (c : nat)
    (rows : list (list float)) : list float :=
  (λ i, median (filter (λ x, (x =? nan_val)%float = false) (column i rows))) <$> seq 0 c.

(** One row after bounding with the fences [lowers] and [uppers]. *)
Definition bound_row (lowers uppers : list float) (row : list float) : list float :=
  zip_with (λ x '(lower, upper), lower_to upper (raise_to lower x)) row (zip lowers uppers).

(** A small dataset with the marker -999 in it and a column of one value,
    with executable stand-ins for the three numpy functions: the number of
    different values, the middle element, and the least or greatest element
    for a quantile below or above one half. *)
Module Dataset.

Definition unique_count (v : list float) : nat :=
  length (foldr (λ x seen, if existsb (PrimFloat.eqb x) seen then seen else x :: seen) [] v).
Definition median (v : list float) : float := default nan (v !! (length v / 2)).
Definition quantile (q : float) (v : list float) : result float :=
  match v with
  | [] => Raise IndexError
  | x :: _ =>
      Ok (if (q <? 0.5)%float
          then foldr (λ a b, if (a <? b)%float then a else b) x v
          else foldr (λ a b, if (b <? a)%float then a else b) x v)
  end.

Definition rows : list (list float) :=
  [[1; 7; -999]; [2; 7; 4]; [-999; 7; 6]; [40; 7; 5]]%float.
Definition yv : list float := [1; 0; 0; 1]%float.
Definition medians : list float := [2; 7; 5]%float.
Definition σ : state := {| heap := [Mat 3 rows; Vec yv; Vec [10; 8; 6]%float; Vec [0; 6; 4]%float];
                           draws := 0 |}.
Definition X : aref := {| buf := 0; lo := 0; hi := 4 |}.
Definition y : aref := {| buf := 1; lo := 0; hi := 4 |}.
Definition upper_quart : aref := {| buf := 2; lo := 0; hi := 3 |}.
Definition lower_quart : aref := {| buf := 3; lo := 0; hi := 3 |}.

End Dataset.

(** From [σ] to [σ']: the buffers of [σ] other than [l] are unchanged;
    buffers may have been added. *)
Definition keeps_others (l : loc) (σ σ' : state) : Prop :=
  length (heap σ) ≤ length (heap σ')
  ∧ ∀ l', l' ≠ l → l' < length (heap σ) → heap σ' !! l' = heap σ !! l'.

(** The elements that are numbers lie between the fences of their column,
    for the columns whose lower fence is at most the upper one. *)
Definition within_fences (lowers uppers : list float) (row : list float) : Prop :=
  ∀ j x lower upper,
    row !! j = Some x → lowers !! j = Some lower → uppers !! j = Some upper →
    (lower <=? upper)%float = true → is_nan x = false →
    (lower <=? x)%float = true ∧ (x <=? upper)%float = true.

(** An element of column [j] passes the custom range of its column. *)
Definition custom_ok (custom_range : option (list (option (float * float)))) (j : nat)
    (x : float) : bool :=
  match custom_range with
  | None => true
  | Some ranges =>
      match ranges !! j with
      | Some (Some (lower, upper)) => (lower <=? x)%float && (x <=? upper)%float
      | _ => true
      end
  end.

(** A row passes: each of its elements passes its custom range and is at
    least the lower fence of its column. *)
Definition row_passes (custom_range : option (list (option (float * float))))
    (lowers : list float) (row : list float) : Prop :=
  ∀ j x lower, row !! j = Some x → lowers !! j = Some lower →
    custom_ok custom_range j x = true ∧ (lower <=? x)%float = true.

(** The elements of [xs] where the mask holds. *)
Definition masked {A} (mask : list bool) (xs : list A) : list A :=
  snd <$> filter (λ p, p.1 = true) (zip mask xs).

(** The column an index of [np.delete] denotes. *)
Definition wrapped (c : nat) (i : Z) : nat :=
  if decide (0 ≤ i)%Z then Z.to_nat i else Z.to_nat (i + Z.of_nat c).

(** * Rules for runs *)

Lemma wp_ret {A} (a : A) σ (Q : A → state → Prop) : Q a σ → wp (mret a) σ Q.
Proof. done. Qed.

Lemma wp_bind {A B} (m : M A) (k : A → M B) σ (Q : B → state → Prop) :
  wp m σ (λ a σ1, wp (k a) σ1 Q) → wp (m ≫= k) σ Q.
Proof.
  unfold wp, mbind, M_bind. destruct (m σ) as [[a σ1]|e]; done.
Qed.

Lemma wp_mono {A} (m : M A) σ (P Q : A → state → Prop) :
  wp m σ P → (∀ a σ', P a σ' → Q a σ') → wp m σ Q.
Proof.
  unfold wp. destruct (m σ) as [[a σ1]|e]; [|done]. intros HP HPQ. by apply HPQ.
Qed.

Lemma wp_lift {A} (r : result A) (a : A) σ (Q : A → state → Prop) :
  r = Ok a → Q a σ → wp (lift r) σ Q.
Proof. intros -> HQ. exact HQ. Qed.

Lemma wp_run {A} (m : M A) σ (Q : A → state → Prop) :
  wp m σ Q → ∃ a σ', m σ = Ok (a, σ') ∧ Q a σ'.
Proof.
  unfold wp. destruct (m σ) as [[a σ1]|e]; [|done]. eauto.
Qed.

Lemma run_wp {A} (m : M A) σ a σ' (Q : A → state → Prop) :
  m σ = Ok (a, σ') → Q a σ' → wp m σ Q.
Proof. unfold wp. by intros ->. Qed.

Lemma bind_Ok {A B} (m : M A) (k : A → M B) σ b σ' :
  (m ≫= k) σ = Ok (b, σ') → ∃ a σ1, m σ = Ok (a, σ1) ∧ k a σ1 = Ok (b, σ').
Proof.
  unfold mbind, M_bind. destruct (m σ) as [[a σ1]|e]; [|done]. eauto.
Qed.

(** ** The store only grows *)

Lemma extends_refl σ : extends σ σ.
Proof. exists []. by rewrite app_nil_r. Qed.

Lemma extends_trans σ1 σ2 σ3 : extends σ1 σ2 → extends σ2 σ3 → extends σ1 σ3.
Proof.
  intros [n1 H1] [n2 H2]. exists (n1 ++ n2). by rewrite H2, H1, app_assoc.
Qed.

Lemma extends_lookup σ σ' (l : loc) a :
  extends σ σ' → heap σ !! l = Some a → heap σ' !! l = Some a.
Proof.
  intros [new ->] Hl. by apply lookup_app_l_Some.
Qed.

Lemma extends_length σ σ' : extends σ σ' → length (heap σ) ≤ length (heap σ').
Proof. intros [new ->]. rewrite length_app. lia. Qed.

Lemma points_to_lookup σ r a :
  points_to σ r a ↔ ∃ b, heap σ !! buf r = Some b ∧ a = nd_window (lo r) (hi r) b.
Proof.
  unfold points_to, read. destruct (heap σ !! buf r) as [b|]; split.
  - intros [= <-]. eauto.
  - intros (b' & [= <-] & ->). done.
  - done.
  - intros (b' & [=] & _).
Qed.

Lemma points_to_extends σ σ' r a :
  extends σ σ' → points_to σ r a → points_to σ' r a.
Proof.
  intros Hext. rewrite !points_to_lookup. intros (b & Hb & ->).
  exists b. split; [|done]. by eapply extends_lookup.
Qed.

Lemma points_to_agree σ r a b : points_to σ r a → points_to σ r b → a = b.
Proof. unfold points_to. intros -> [= ->]. done. Qed.

#[local] Hint Resolve extends_refl extends_trans points_to_extends : core.

Lemma after_refl σ : after σ 0 σ.
Proof. split; [done | lia]. Qed.

Lemma after_trans σ1 σ2 σ3 j k :
  after σ1 j σ2 → after σ2 k σ3 → after σ1 (j + k) σ3.
Proof. intros [E1 D1] [E2 D2]. split; [eauto | lia]. Qed.

Lemma after_trans0 σ1 σ2 σ3 : after σ1 0 σ2 → after σ2 0 σ3 → after σ1 0 σ3.
Proof. apply (after_trans _ _ _ 0 0). Qed.

Lemma after_points_to σ σ' k r a : after σ k σ' → points_to σ r a → points_to σ' r a.
Proof. intros [E _]. eauto. Qed.

#[local] Hint Resolve after_refl after_trans0 after_points_to : core.

(** ** Rules for [preserves] *)

Lemma preserves_ret {A} (a : A) : preserves 0 (mret a).
Proof. intros σ a' σ' [= <- <-]. done. Qed.

Lemma preserves_raise {A} e : preserves 0 (@raise A e).
Proof. intros σ a σ' [=]. Qed.

Lemma preserves_lift {A} (r : result A) : preserves 0 (lift r).
Proof. intros σ a σ'. unfold lift. destruct r; intros [= <- <-]. done. Qed.

Lemma preserves_bind {A B} j k (m : M A) (f : A → M B) :
  preserves j m → (∀ a, preserves k (f a)) → preserves (j + k) (m ≫= f).
Proof.
  intros Hm Hf σ b σ' (a & σ1 & H1 & H2)%bind_Ok.
  eapply after_trans; [by eapply Hm | by eapply Hf].
Qed.

Lemma preserves_bind0 {A B} (m : M A) (f : A → M B) :
  preserves 0 m → (∀ a, preserves 0 (f a)) → preserves 0 (m ≫= f).
Proof. apply (preserves_bind 0 0). Qed.

Lemma preserves_for_each_draws {A B} k (xs : list A) (acc : B) (body : A → B → M B) :
  (∀ x b, preserves k (body x b)) → preserves (length xs * k) (for_each xs acc body).
Proof.
  intros Hbody. revert acc. induction xs as [|x xs IH]; intros acc; simpl.
  - apply preserves_ret.
  - apply preserves_bind; auto.
Qed.

Lemma preserves_for_each {A B} (xs : list A) (acc : B) (body : A → B → M B) :
  (∀ x b, preserves 0 (body x b)) → preserves 0 (for_each xs acc body).
Proof.
  intros Hbody. pose proof (preserves_for_each_draws 0 xs acc body Hbody) as H.
  by rewrite Nat.mul_0_r in H.
Qed.

Lemma preserves_read r : preserves 0 (read r).
Proof.
  intros σ a σ'. unfold read. destruct (heap σ !! buf r); intros [= <- <-]. done.
Qed.

Lemma preserves_alloc a : preserves 0 (alloc a).
Proof.
  intros σ r σ' [= <- <-]. split; [by eexists | simpl; lia].
Qed.

#[local] Hint Resolve preserves_ret preserves_raise preserves_lift preserves_bind0
  preserves_for_each preserves_read preserves_alloc : preserves.

Ltac preserves_tac :=
  repeat first
    [ progress intros
    | solve [eauto with preserves]
    | apply preserves_bind0
    | apply preserves_for_each
    | progress cbv beta
    | match goal with
      | |- preserves _ ?m =>
          match m with context [match ?x with _ => _ end] => is_var x; destruct x end
      end ].

Lemma preserves_read_vec r : preserves 0 (read_vec r).
Proof. unfold read_vec. preserves_tac. Qed.

Lemma preserves_read_mat r : preserves 0 (read_mat r).
Proof. unfold read_mat. preserves_tac. Qed.

Lemma preserves_len r : preserves 0 (len r).
Proof. unfold len. preserves_tac. Qed.

#[local] Hint Resolve preserves_read_vec preserves_read_mat preserves_len : preserves.

Lemma preserves_slice r s e : preserves 0 (slice r s e).
Proof. unfold slice. preserves_tac. Qed.

Lemma preserves_take_rows r idx : preserves 0 (take_rows r idx).
Proof. unfold take_rows. preserves_tac. Qed.

#[local] Hint Resolve preserves_slice preserves_take_rows : preserves.

(** ** Windows of buffers *)

Lemma window_all {A} (xs : list A) : window 0 (length xs) xs = xs.
Proof. unfold window. rewrite Nat.sub_0_r. simpl. apply firstn_all. Qed.

Lemma nd_window_all a : nd_window 0 (nd_rows a) a = a.
Proof. destruct a; simpl; by rewrite window_all. Qed.

Lemma lookup_window {A} (l h i : nat) (xs : list A) :
  window l h xs !! i = if decide (i < h - l) then xs !! (l + i) else None.
Proof. unfold window. rewrite lookup_take, lookup_drop. done. Qed.

Lemma window_imap {A} (F : nat → A → A) (f : A → A) l h (xs : list A) :
  (∀ i x, in_window l h i = true → F i x = f x) →
  window l h (imap F xs) = f <$> window l h xs.
Proof.
  intros HF. apply list_eq. intros i.
  rewrite list_lookup_fmap, !lookup_window, list_lookup_imap.
  case_decide; [|done]. destruct (xs !! (l + i)); [|done]. simpl. f_equal.
  apply HF. unfold in_window. apply andb_true_iff.
  split; [apply Nat.leb_le | apply Nat.ltb_lt]; lia.
Qed.

Lemma nd_window_map_rows f l h a :
  nd_window l h (nd_map_rows f l h a) = nd_map f (nd_window l h a).
Proof.
  destruct a as [v|c rows]; simpl; f_equal; apply window_imap; by intros i x ->.
Qed.

Lemma nd_map_rows_compose f g l h a :
  nd_map_rows g l h (nd_map_rows f l h a) = nd_map_rows (g ∘ f) l h a.
Proof.
  destruct a as [v|c rows]; simpl; f_equal; apply list_eq; intros i;
    rewrite !list_lookup_imap; destruct (_ !! i) as [x|]; simpl; try done;
    destruct (in_window l h i); try done.
  by rewrite <- list_fmap_compose.
Qed.

Lemma nd_map_rows_ext f g l h a :
  (∀ x, f x = g x) → nd_map_rows f l h a = nd_map_rows g l h a.
Proof.
  intros Hfg. destruct a as [v|c rows]; simpl; f_equal; apply imap_ext; intros i x _;
    destruct (in_window l h i); try done; try apply Hfg.
  apply list_fmap_ext. intros j y _. apply Hfg.
Qed.

Lemma nd_rows_map f a : nd_rows (nd_map f a) = nd_rows a.
Proof. destruct a; simpl; by rewrite length_fmap. Qed.

Lemma nd_shape_map f a : nd_shape (nd_map f a) = nd_shape a.
Proof. destruct a; simpl; by rewrite length_fmap. Qed.

Lemma concat_fmap_fmap {A B} (f : A → B) (ls : list (list A)) :
  concat (fmap (M:=list) f <$> ls) = f <$> concat ls.
Proof.
  induction ls as [|l ls IH]; csimpl; [done|]. by rewrite fmap_app, IH.
Qed.

Lemma nd_flat_map f a : nd_flat (nd_map f a) = f <$> nd_flat a.
Proof. destruct a; simpl; [done | apply concat_fmap_fmap]. Qed.

(** ** [clipping] *)

Lemma clip_both_sides x :
  (λ y, if (y <? - abs_threshold)%float then (- abs_threshold)%float else y)
    ((λ y, if (abs_threshold <? y)%float then abs_threshold else y) x)
  = spec_clip x.
Proof.
  unfold spec_clip, abs_threshold. simpl.
  destruct (15 <? x)%float; reflexivity.
Qed.

(** One call of [clipping] is one store of the clipped rows into the buffer
    of its argument; the handle comes back as it went in. *)
Lemma clipping_run σ h b :
  heap σ !! buf h = Some b →
  clipping h σ =
    Ok (h, {| heap := <[buf h := nd_map_rows spec_clip (lo h) (hi h) b]> (heap σ);
              draws := draws σ |}).
Proof.
  intros Hb. unfold clipping, mbind, M_bind, masked_store. rewrite Hb. simpl.
  rewrite list_lookup_insert_eq by (by eapply lookup_lt_Some).
  rewrite list_insert_insert_eq, nd_map_rows_compose.
  rewrite (nd_map_rows_ext _ spec_clip); [done|].
  intros x. apply clip_both_sides.
Qed.

Lemma clipping_points_to σ h a :
  points_to σ h a →
  ∃ σ', clipping h σ = Ok (h, σ') ∧ points_to σ' h (nd_map spec_clip a)
        ∧ length (heap σ') = length (heap σ) ∧ draws σ' = draws σ
        ∧ ∀ l, l ≠ buf h → heap σ' !! l = heap σ !! l.
Proof.
  intros (b & Hb & ->)%points_to_lookup.
  eexists. split; [by apply clipping_run|]. simpl.
  split; [|split; [by rewrite length_insert|split; [done|]]].
  - apply points_to_lookup. eexists. simpl. split.
    + apply list_lookup_insert_eq. by eapply lookup_lt_Some.
    + by rewrite nd_window_map_rows.
  - intros l Hl. by apply list_lookup_insert_ne.
Qed.

(** ** Rules for the primitives *)

Lemma wp_read σ r a (Q : ndarray → state → Prop) :
  points_to σ r a → Q a σ → wp (read r) σ Q.
Proof. intros Hr HQ. unfold wp. by rewrite Hr. Qed.

Lemma read_vec_run σ r v : points_to σ r (Vec v) → read_vec r σ = Ok (v, σ).
Proof. intros Hr. unfold read_vec, mbind, M_bind. by rewrite Hr. Qed.

Lemma read_mat_run σ r c rows : points_to σ r (Mat c rows) → read_mat r σ = Ok ((c, rows), σ).
Proof. intros Hr. unfold read_mat, mbind, M_bind. by rewrite Hr. Qed.

Lemma len_run σ r a : points_to σ r a → len r σ = Ok (nd_rows a, σ).
Proof. intros Hr. unfold len, mbind, M_bind. by rewrite Hr. Qed.

Lemma wp_read_vec σ r v (Q : list float → state → Prop) :
  points_to σ r (Vec v) → Q v σ → wp (read_vec r) σ Q.
Proof. intros Hr HQ. unfold wp. by rewrite (read_vec_run _ _ v). Qed.

Lemma wp_read_mat σ r c rows (Q : nat * list (list float) → state → Prop) :
  points_to σ r (Mat c rows) → Q (c, rows) σ → wp (read_mat r) σ Q.
Proof. intros Hr HQ. unfold wp. by rewrite (read_mat_run _ _ c rows). Qed.

Lemma wp_len σ r a (Q : nat → state → Prop) :
  points_to σ r a → Q (nd_rows a) σ → wp (len r) σ Q.
Proof. intros Hr HQ. unfold wp. by rewrite (len_run _ _ a). Qed.

(** A new buffer is read back as it was written, and lies beyond every buffer
    of the store it was added to. *)
Lemma wp_alloc σ a (Q : aref → state → Prop) :
  (∀ r σ', after σ 0 σ' → points_to σ' r a → length (heap σ) ≤ buf r → Q r σ') →
  wp (alloc a) σ Q.
Proof.
  intros HQ. unfold wp, alloc. apply HQ; simpl; try done.
  - split; [by eexists | simpl; lia].
  - apply points_to_lookup. exists a. simpl. split.
    + by rewrite lookup_app_r, Nat.sub_diag.
    + by rewrite nd_window_all.
Qed.

(** Storing into a buffer that lies beyond the buffers of [σ] leaves [σ]'s
    buffers as they are. *)
Lemma extends_insert σ σ1 l b :
  extends σ σ1 → length (heap σ) ≤ l →
  extends σ {| heap := <[l := b]> (heap σ1); draws := draws σ1 |}.
Proof.
  intros [new Hnew] Hl. exists (<[l - length (heap σ) := b]> new). simpl.
  rewrite Hnew. by apply insert_app_r_alt.
Qed.

(** ** Python slices *)

Lemma clamp_index_range n i : (0 ≤ n → 0 ≤ clamp_index n i ≤ n)%Z.
Proof. unfold clamp_index. destruct (Z.ltb_spec i 0); lia. Qed.

Lemma nd_rows_window l h a : nd_rows (nd_window l h a) = (h - l) `min` (nd_rows a - l).
Proof.
  destruct a; simpl; unfold window; by rewrite length_take, length_drop.
Qed.

Lemma window_window {A} (l h s e : nat) (xs : list A) :
  e ≤ length (window l h xs) →
  window (l + s) (l + e) xs = window s e (window l h xs).
Proof.
  unfold window. rewrite length_take, length_drop. intros He.
  rewrite skipn_firstn_comm, take_take, drop_drop.
  f_equal. lia.
Qed.

Lemma nd_window_window l h s e a :
  e ≤ nd_rows (nd_window l h a) →
  nd_window (l + s) (l + e) a = nd_window s e (nd_window l h a).
Proof.
  destruct a; simpl; intros He; f_equal; by apply window_window.
Qed.

(** The slice of a handle denotes the slice of the array the handle denotes. *)
Lemma points_to_py_slice σ r a s e :
  points_to σ r a →
  points_to σ (py_slice r (nd_rows a) s e) (nd_slice a s e).
Proof.
  intros (b & Hb & ->)%points_to_lookup. apply points_to_lookup.
  exists b. split; [done|]. unfold py_slice. simpl.
  set (n := nd_rows (nd_window (lo r) (hi r) b)).
  pose proof (clamp_index_range (Z.of_nat n) s).
  pose proof (clamp_index_range (Z.of_nat n) e).
  transitivity (nd_window (Z.to_nat (clamp_index (Z.of_nat n) s))
                  (Z.to_nat (clamp_index (Z.of_nat n) s) `max` Z.to_nat (clamp_index (Z.of_nat n) e))
                  (nd_window (lo r) (hi r) b)).
  - subst n. destruct b; reflexivity.
  - symmetry. apply nd_window_window. fold n. lia.
Qed.

Lemma slice_run σ r a s e :
  points_to σ r a → slice r s e σ = Ok (py_slice r (nd_rows a) s e, σ).
Proof.
  intros Hr. unfold slice, mbind, M_bind. by rewrite (len_run _ _ a).
Qed.

Lemma length_window {A} l h (xs : list A) :
  length (window l h xs) = (h - l) `min` (length xs - l).
Proof. unfold window. by rewrite length_take, length_drop. Qed.

Lemma length_rows_slice {A B} (xs : list A) (ys : list B) s e :
  length xs = length ys → length (rows_slice xs s e) = length (rows_slice ys s e).
Proof. intros H. unfold rows_slice. rewrite !length_window, H. done. Qed.

(** For bounds that are not negative, a Python slice is the window of rows
    from [start] up to [stop], or up to the last row. *)
Lemma rows_slice_window {A} (xs : list A) (s e : Z) :
  (0 ≤ s)%Z → (0 ≤ e)%Z →
  rows_slice xs s e = window (Z.to_nat s) (Z.to_nat e) xs.
Proof.
  intros Hs He. unfold rows_slice, clamp_index.
  destruct (Z.ltb_spec s 0); [lia|]. destruct (Z.ltb_spec e 0); [lia|].
  apply list_eq. intros i. rewrite !lookup_window.
  repeat case_decide; try done; try lia.
  - f_equal. lia.
  - symmetry. apply lookup_ge_None. lia.
Qed.

(** * What every returning run leaves unchanged *)

Section Frames.
Variable exp ln : float → float.
Variable permutation : nat → nat → list nat.

Lemma preserves_draw n : preserves 1 (draw_permutation permutation n).
Proof.
  intros σ idx σ' [= <- <-]. split; [exists []; simpl; by rewrite app_nil_r | simpl; lia].
Qed.

Lemma preserves_batch_iter y tx batch_size num_batches (shuffle : bool) :
  preserves (if shuffle then 1 else 0) (batch_iter permutation y tx batch_size num_batches shuffle).
Proof.
  unfold batch_iter. apply (preserves_bind 0); [eauto with preserves|]. intros n.
  replace (if shuffle then 1 else 0) with ((if shuffle then 1 else 0) + 0) by lia.
  apply preserves_bind.
  - destruct shuffle; [|apply preserves_ret].
    apply (preserves_bind 1 0); [apply preserves_draw|]. preserves_tac.
  - intros [sy stx]. apply preserves_for_each. intros b acc. simpl.
    case_decide; preserves_tac.
Qed.

Lemma preserves_sigmoid z : preserves 0 (sigmoid exp z).
Proof. unfold sigmoid. preserves_tac. Qed.

Lemma preserves_matmul tx w : preserves 0 (matmul tx w).
Proof. unfold matmul. preserves_tac. Qed.

(** [tx @ w] is a new buffer. *)
Lemma matmul_fresh tx w σ z σ' :
  matmul tx w σ = Ok (z, σ') → length (heap σ) ≤ buf z.
Proof.
  unfold matmul. intros ([c rows] & σ1 & H1 & H)%bind_Ok.
  apply bind_Ok in H as (wv & σ2 & H2 & H).
  apply bind_Ok in H as (zv & σ3 & H3 & H).
  apply preserves_read_mat in H1 as [E1 _]. apply preserves_read_vec in H2 as [E2 _].
  apply preserves_lift in H3 as [E3 _].
  injection H as <- _. simpl.
  apply extends_length in E1, E2, E3. lia.
Qed.

(** Clipping a buffer that lies beyond the buffers of [σ] changes none of
    them. *)
Lemma clipping_fresh σ σ1 z c σ2 k :
  after σ k σ1 → length (heap σ) ≤ buf z →
  clipping z σ1 = Ok (c, σ2) → after σ k σ2.
Proof.
  intros [E D] Hz Hrun. destruct (heap σ1 !! buf z) as [b|] eqn:Hb.
  - rewrite (clipping_run _ _ b Hb) in Hrun. injection Hrun as _ <-.
    split; [by apply extends_insert | done].
  - unfold clipping, mbind, M_bind, masked_store in Hrun. by rewrite Hb in Hrun.
Qed.

(** The loss clips in place, but only the buffer of scores it has just
    made. *)
Lemma preserves_cross_entropy_loss y tx w : preserves 0 (cross_entropy_loss exp ln y tx w).
Proof.
  intros σ l σ'. unfold cross_entropy_loss.
  intros (z & σ1 & H1 & H)%bind_Ok. apply bind_Ok in H as (c & σ2 & H2 & H).
  pose proof (matmul_fresh _ _ _ _ _ H1) as Hz.
  apply preserves_matmul in H1.
  pose proof (clipping_fresh _ _ _ _ _ _ H1 Hz H2) as H12.
  eapply after_trans0; [exact H12|].
  revert H. generalize σ2 l σ'. change (preserves 0 (h ← sigmoid exp c;
    yv ← read_vec y; hv ← read_vec h; lift (cross_entropy ln yv hv))).
  pose proof preserves_sigmoid. preserves_tac.
Qed.

Lemma preserves_cross_entropy_gradient y tx w : preserves 0 (cross_entropy_gradient exp y tx w).
Proof.
  unfold cross_entropy_gradient.
  pose proof preserves_sigmoid. pose proof preserves_matmul. preserves_tac.
Qed.

Lemma preserves_regularized_cross_entropy_loss y tx w lambda_ :
  preserves 0 (regularized_cross_entropy_loss exp ln y tx w lambda_).
Proof.
  unfold regularized_cross_entropy_loss.
  pose proof preserves_cross_entropy_loss. preserves_tac.
Qed.

Lemma preserves_regularized_cross_entropy_gradient y tx w lambda_ :
  preserves 0 (regularized_cross_entropy_gradient exp y tx w lambda_).
Proof.
  unfold regularized_cross_entropy_gradient.
  pose proof preserves_cross_entropy_gradient. preserves_tac.
Qed.

Lemma preserves_descend w gamma gr : preserves 0 (descend w gamma gr).
Proof. unfold descend. preserves_tac. Qed.

Lemma preserves_return_w_loss w loss : preserves 0 (return_w_loss w loss).
Proof. unfold return_w_loss. preserves_tac. Qed.

(** One epoch of either training loop: one draw, and no buffer changed. *)
Lemma preserves_epoch (grad : aref → aref → aref → M aref) (loss : aref → aref → aref → M float)
    y tx gamma batch_size (w : aref) :
  (∀ a b c, preserves 0 (grad a b c)) → (∀ a b c, preserves 0 (loss a b c)) →
  preserves 1
    (batches ← batch_iter permutation y tx batch_size 1 true;
     w ← for_each batches w (λ '(minibatch_y, minibatch_tx) w,
       gr ← grad minibatch_y minibatch_tx w; descend w gamma gr);
     loss ← loss y tx w;
     mret (w, Some loss)).
Proof.
  intros Hgrad Hloss. apply (preserves_bind 1 0); [apply (preserves_batch_iter _ _ _ _ true)|].
  intros batches. pose proof preserves_descend. preserves_tac.
Qed.

Lemma preserves_logistic_regression y tx initial_w max_iters gamma batch_size :
  preserves (Z.to_nat max_iters)
    (logistic_regression exp ln permutation y tx initial_w max_iters gamma batch_size).
Proof.
  unfold logistic_regression.
  replace (Z.to_nat max_iters) with (length (range max_iters) * 1 + 0)
    by (unfold range; rewrite length_fmap, length_seq; lia).
  apply preserves_bind.
  - apply preserves_for_each_draws. intros n [w l].
    apply (preserves_epoch (cross_entropy_gradient exp) (cross_entropy_loss exp ln)).
    + apply preserves_cross_entropy_gradient.
    + apply preserves_cross_entropy_loss.
  - intros [w l]. apply preserves_return_w_loss.
Qed.

Lemma preserves_reg_logistic_regression y tx lambda_ initial_w max_iters gamma batch_size :
  preserves (Z.to_nat max_iters)
    (reg_logistic_regression exp ln permutation y tx lambda_ initial_w max_iters gamma batch_size).
Proof.
  unfold reg_logistic_regression.
  replace (Z.to_nat max_iters) with (length (range max_iters) * 1 + 0)
    by (unfold range; rewrite length_fmap, length_seq; lia).
  apply preserves_bind.
  - apply preserves_for_each_draws. intros n [w l].
    apply (preserves_epoch (λ a b c, regularized_cross_entropy_gradient exp a b c lambda_)
             (λ a b c, regularized_cross_entropy_loss exp ln a b c lambda_)).
    + intros. apply preserves_regularized_cross_entropy_gradient.
    + intros. apply preserves_regularized_cross_entropy_loss.
  - intros [w l]. apply preserves_return_w_loss.
Qed.

End Frames.

(** * What the functions compute *)

Section Results.
Variable exp ln : float → float.

Lemma length_scores rows wv : length (scores rows wv) = length rows.
Proof. unfold scores. by rewrite length_fmap. Qed.

Lemma length_transposed_product c rows d : length (transposed_product c rows d) = c.
Proof. unfold transposed_product. by rewrite length_fmap, length_seq. Qed.

Lemma length_spec_gradient yv c rows wv : length (spec_gradient exp yv c rows wv) = c.
Proof. apply length_transposed_product. Qed.

Lemma length_spec_reg_gradient lambda_ yv c rows wv :
  length wv = c → length (spec_reg_gradient exp lambda_ yv c rows wv) = c.
Proof.
  intros H. unfold spec_reg_gradient.
  rewrite length_zip_with, length_spec_gradient, length_fmap. lia.
Qed.

Lemma length_spec_update gamma wv g :
  length g = length wv → length (spec_update gamma wv g) = length wv.
Proof.
  intros Hg. unfold spec_update. rewrite length_zip_with, length_fmap. lia.
Qed.

Lemma broadcast2_same f a b :
  length a = length b → broadcast2 f a b = Ok (zip_with f a b).
Proof. intros H. unfold broadcast2. by rewrite decide_True. Qed.

Lemma cross_entropy_same yv hv :
  length yv = length hv → cross_entropy ln yv hv = Ok (spec_cross_entropy ln yv hv).
Proof.
  intros H. unfold cross_entropy, vdot.
  rewrite !decide_True by (rewrite !length_fmap; done). done.
Qed.

Lemma wp_matmul σ tx w c rows wv (Q : aref → state → Prop) :
  points_to σ tx (Mat c rows) → points_to σ w (Vec wv) → c = length wv →
  (∀ z σ', after σ 0 σ' → points_to σ' z (Vec (scores rows wv)) →
           length (heap σ) ≤ buf z → Q z σ') →
  wp (matmul tx w) σ Q.
Proof.
  intros Htx Hw Hc HQ. unfold matmul.
  apply wp_bind, (wp_read_mat _ _ c rows); [done|]. simpl.
  apply wp_bind, (wp_read_vec _ _ wv); [done|].
  apply wp_bind, (wp_lift _ (scores rows wv)); [unfold matvec; by rewrite decide_True|].
  by apply wp_alloc.
Qed.

Lemma wp_sigmoid σ z zv (Q : aref → state → Prop) :
  points_to σ z (Vec zv) →
  (∀ h σ', after σ 0 σ' → points_to σ' h (Vec (sigmoid1 exp <$> zv)) → Q h σ') →
  wp (sigmoid exp z) σ Q.
Proof.
  intros Hz HQ. unfold sigmoid.
  apply wp_bind, (wp_read_vec _ _ zv); [done|].
  apply wp_alloc. intros h σ' Ha Hh _. by apply HQ.
Qed.

Lemma wp_clipping_fresh σ σ1 z a (Q : aref → state → Prop) :
  after σ 0 σ1 → length (heap σ) ≤ buf z → points_to σ1 z a →
  (∀ σ2, after σ 0 σ2 → points_to σ2 z (nd_map spec_clip a) → Q z σ2) →
  wp (clipping z) σ1 Q.
Proof.
  intros Ha Hz Hp HQ.
  destruct (clipping_points_to _ _ _ Hp) as (σ2 & Hrun & Hp2 & _).
  eapply run_wp; [exact Hrun|]. apply HQ; [|done].
  by eapply clipping_fresh.
Qed.

Lemma wp_cross_entropy_loss σ y tx w yv c rows wv (Q : float → state → Prop) :
  points_to σ y (Vec yv) → points_to σ tx (Mat c rows) → points_to σ w (Vec wv) →
  c = length wv → length yv = length rows →
  (∀ σ', after σ 0 σ' → Q (spec_loss exp ln yv rows wv) σ') →
  wp (cross_entropy_loss exp ln y tx w) σ Q.
Proof.
  intros Hy Htx Hw Hc Hn HQ. unfold cross_entropy_loss.
  apply wp_bind, (wp_matmul _ _ _ c rows wv); [done..|]. intros z σ1 A1 Hz Hfresh.
  apply wp_bind, (wp_clipping_fresh σ _ _ (Vec (scores rows wv))); [done..|].
  intros σ2 A2 Hc2. simpl in Hc2.
  apply wp_bind, (wp_sigmoid _ _ (spec_clip <$> scores rows wv)); [done|].
  intros h σ3 A3 Hh.
  apply wp_bind, (wp_read_vec _ _ yv); [eauto|].
  apply wp_bind, (wp_read_vec _ _ (sigmoid1 exp <$> (spec_clip <$> scores rows wv))); [done|].
  eapply wp_lift.
  - apply cross_entropy_same. by rewrite !length_fmap, length_scores.
  - apply HQ. eauto.
Qed.

Lemma wp_cross_entropy_gradient σ y tx w yv c rows wv (Q : aref → state → Prop) :
  points_to σ y (Vec yv) → points_to σ tx (Mat c rows) → points_to σ w (Vec wv) →
  c = length wv → length yv = length rows →
  (∀ g σ', after σ 0 σ' → points_to σ' g (Vec (spec_gradient exp yv c rows wv)) →
           length (heap σ) ≤ buf g → Q g σ') →
  wp (cross_entropy_gradient exp y tx w) σ Q.
Proof.
  intros Hy Htx Hw Hc Hn HQ. unfold cross_entropy_gradient.
  apply wp_bind, (wp_matmul _ _ _ c rows wv); [done..|]. intros z σ1 A1 Hz _.
  apply wp_bind, (wp_sigmoid _ _ (scores rows wv)); [done|]. intros h σ2 A2 Hh.
  apply wp_bind, (wp_read_vec _ _ (sigmoid1 exp <$> scores rows wv)); [done|].
  apply wp_bind, (wp_read_vec _ _ yv); [eauto|].
  apply wp_bind. eapply wp_lift.
  { apply broadcast2_same. by rewrite length_fmap, length_scores. }
  apply wp_bind, (wp_read_mat _ _ c rows); [eauto|]. simpl.
  apply wp_bind. eapply wp_lift.
  { unfold matTvec. rewrite decide_True; [done|].
    rewrite length_zip_with, length_fmap, length_scores. lia. }
  apply wp_alloc. intros g σ3 A3 Hg Hfresh. apply HQ; [eauto | done |].
  destruct A1 as [E1 _], A2 as [E2 _]. apply extends_length in E1, E2. lia.
Qed.

Lemma wp_regularized_cross_entropy_loss σ y tx w lambda_ yv c rows wv (Q : float → state → Prop) :
  points_to σ y (Vec yv) → points_to σ tx (Mat c rows) → points_to σ w (Vec wv) →
  c = length wv → length yv = length rows →
  (∀ σ', after σ 0 σ' → Q (spec_reg_loss exp ln lambda_ yv rows wv) σ') →
  wp (regularized_cross_entropy_loss exp ln y tx w lambda_) σ Q.
Proof.
  intros Hy Htx Hw Hc Hn HQ. unfold regularized_cross_entropy_loss.
  apply wp_bind, (wp_cross_entropy_loss _ _ _ _ yv c rows wv); [done..|]. intros σ1 A1.
  apply wp_bind, (wp_read_vec _ _ wv); [eauto|].
  apply wp_ret. by apply HQ.
Qed.

Lemma wp_regularized_cross_entropy_gradient σ y tx w lambda_ yv c rows wv (Q : aref → state → Prop) :
  points_to σ y (Vec yv) → points_to σ tx (Mat c rows) → points_to σ w (Vec wv) →
  c = length wv → length yv = length rows →
  (∀ g σ', after σ 0 σ' → points_to σ' g (Vec (spec_reg_gradient exp lambda_ yv c rows wv)) →
           length (heap σ) ≤ buf g → Q g σ') →
  wp (regularized_cross_entropy_gradient exp y tx w lambda_) σ Q.
Proof.
  intros Hy Htx Hw Hc Hn HQ. unfold regularized_cross_entropy_gradient.
  apply wp_bind, (wp_cross_entropy_gradient _ _ _ _ yv c rows wv); [done..|].
  intros g σ1 A1 Hg _.
  apply wp_bind, (wp_read_vec _ _ (spec_gradient exp yv c rows wv)); [done|].
  apply wp_bind, (wp_read_vec _ _ wv); [eauto|].
  apply wp_bind. eapply wp_lift.
  { apply broadcast2_same. by rewrite length_spec_gradient, length_fmap. }
  apply wp_alloc. intros r σ2 A2 Hr Hfresh. apply HQ; [eauto | done |].
  destruct A1 as [E1 _]. apply extends_length in E1. lia.
Qed.

Lemma wp_descend σ w gamma gr wv g (Q : aref → state → Prop) :
  points_to σ w (Vec wv) → points_to σ gr (Vec g) → length g = length wv →
  (∀ w' σ', after σ 0 σ' → points_to σ' w' (Vec (spec_update gamma wv g)) →
            length (heap σ) ≤ buf w' → Q w' σ') →
  wp (descend w gamma gr) σ Q.
Proof.
  intros Hw Hg Hlen HQ. unfold descend.
  apply wp_bind, (wp_read_vec _ _ wv); [done|].
  apply wp_bind, (wp_read_vec _ _ g); [done|].
  apply wp_bind. eapply wp_lift.
  { apply broadcast2_same. by rewrite length_fmap. }
  by apply wp_alloc.
Qed.

End Results.

(** * The sampler *)

Lemma mapM_lookup_permute {A} (xs : list A) idx :
  Forall (λ i, i < length xs) idx → mapM (λ i, xs !! i) idx = Some (permute xs idx).
Proof.
  intros H. apply mapM_Some. induction H as [|i idx Hi _ IH]; [constructor|].
  destruct (lookup_lt_is_Some_2 xs i Hi) as [x Hx].
  unfold permute in *. cbn. rewrite Hx. by constructor.
Qed.

Lemma select_permute {A} (xs : list A) idx :
  Forall (λ i, i < length xs) idx → select xs idx = Ok (permute xs idx).
Proof. intros H. unfold select. by rewrite mapM_lookup_permute. Qed.

Lemma length_permute {A} (xs : list A) idx :
  Forall (λ i, i < length xs) idx → length (permute xs idx) = length idx.
Proof.
  intros H. apply mapM_lookup_permute in H. symmetry. by eapply length_mapM.
Qed.

Lemma nd_select_permute a idx :
  Forall (λ i, i < nd_rows a) idx → nd_select a idx = Ok (nd_permute a idx).
Proof. intros H. destruct a; simpl in *; by rewrite select_permute. Qed.

Lemma nd_rows_permute a idx :
  Forall (λ i, i < nd_rows a) idx → nd_rows (nd_permute a idx) = length idx.
Proof. intros H. destruct a; simpl in *; by apply length_permute. Qed.

Lemma wp_take_rows σ r a idx (Q : aref → state → Prop) :
  points_to σ r a → Forall (λ i, i < nd_rows a) idx →
  (∀ r' σ', after σ 0 σ' → points_to σ' r' (nd_permute a idx) → Q r' σ') →
  wp (take_rows r idx) σ Q.
Proof.
  intros Hr Hidx HQ. unfold take_rows.
  apply wp_bind, (wp_read _ _ a); [done|].
  apply wp_bind. eapply wp_lift; [by apply nd_select_permute|].
  apply wp_alloc. intros r' σ' A Hr' _. by apply HQ.
Qed.

(** A permutation of [0, n) holds indices below [n], and [n] of them. *)
Lemma Permutation_seq_bound idx n : idx ≡ₚ seq 0 n → Forall (λ i, i < n) idx.
Proof.
  intros H. apply Forall_forall. intros i Hi.
  rewrite H in Hi. apply elem_of_seq in Hi. lia.
Qed.

Lemma Permutation_seq_length idx n : idx ≡ₚ seq 0 n → length idx = n.
Proof. intros H. by rewrite H, length_seq. Qed.

Lemma batch_loop_run σ sy stx ya txa batch_size n ids acc :
  points_to σ sy ya → points_to σ stx txa →
  for_each ids acc (λ batch_num yielded,
    let start_index := (batch_num * batch_size)%Z in
    let end_index := Z.min ((batch_num + 1) * batch_size) (Z.of_nat n) in
    if decide (start_index ≠ end_index) then
      minibatch_y ← slice sy start_index end_index;
      minibatch_tx ← slice stx start_index end_index;
      mret (yielded ++ [(minibatch_y, minibatch_tx)])
    else mret yielded) σ
  = Ok (acc ++ batch_handles sy stx (nd_rows ya) (nd_rows txa) batch_size n
                 (filter (λ b, batch_start batch_size b ≠ batch_end batch_size n b) ids), σ).
Proof.
  intros Hy Htx. revert acc. induction ids as [|b ids IH]; intros acc.
  - simpl. by rewrite app_nil_r.
  - simpl. unfold mbind at 1, M_bind at 1. unfold batch_start, batch_end in *.
    case_decide as Hb.
    + unfold mbind at 1, M_bind at 1. rewrite (slice_run _ _ ya) by done.
      unfold mbind at 1, M_bind at 1. rewrite (slice_run _ _ txa) by done.
      unfold mret at 1, M_ret at 1. rewrite IH, filter_cons_True by done.
      unfold batch_handles. by rewrite fmap_cons, <- app_assoc.
    + unfold mret at 1, M_ret at 1. by rewrite IH, filter_cons_False by (by intros ?).
Qed.

Lemma yields_batch_handles σ sy stx ya txa batch_size n num_batches :
  points_to σ sy ya → points_to σ stx txa →
  yields σ (batch_handles sy stx (nd_rows ya) (nd_rows txa) batch_size n
              (emitted batch_size n num_batches))
         ya txa batch_size n num_batches.
Proof.
  intros Hy Htx. unfold yields, batch_handles.
  apply Forall2_fmap_l, Forall_Forall2_diag, Forall_forall. intros b _.
  split; by apply points_to_py_slice.
Qed.

Section Sampler.
Variable permutation : nat → nat → list nat.

(** Without shuffling: no draw, no new buffer, and slices of [y] and [tx]
    themselves. *)
Lemma batch_iter_ordered_run σ y tx ya txa batch_size num_batches :
  points_to σ y ya → points_to σ tx txa →
  batch_iter permutation y tx batch_size num_batches false σ
  = Ok (batch_handles y tx (nd_rows ya) (nd_rows txa) batch_size (nd_rows ya)
          (emitted batch_size (nd_rows ya) num_batches), σ).
Proof.
  intros Hy Htx. unfold batch_iter.
  unfold mbind at 1, M_bind at 1. rewrite (len_run _ _ ya) by done.
  unfold mbind at 1, M_bind at 1. unfold mret at 1, M_ret at 1.
  by rewrite (batch_loop_run _ _ _ ya txa).
Qed.

(** With shuffling: one draw, two new arrays holding the rows of [y] and of
    [tx] in the drawn order, and slices of those. *)
Lemma wp_batch_iter_shuffled σ y tx ya txa batch_size num_batches (Q : list (aref * aref) → state → Prop) :
  points_to σ y ya → points_to σ tx txa →
  Forall (λ i, i < nd_rows ya) (permutation (draws σ) (nd_rows ya)) →
  Forall (λ i, i < nd_rows txa) (permutation (draws σ) (nd_rows ya)) →
  (∀ batches σ', after σ 1 σ' →
     yields σ' batches (nd_permute ya (permutation (draws σ) (nd_rows ya)))
            (nd_permute txa (permutation (draws σ) (nd_rows ya)))
            batch_size (nd_rows ya) num_batches →
     Q batches σ') →
  wp (batch_iter permutation y tx batch_size num_batches true) σ Q.
Proof.
  intros Hy Htx Hiy Hitx HQ. unfold batch_iter.
  apply wp_bind, (wp_len _ _ ya); [done|].
  set (idx := permutation (draws σ) (nd_rows ya)) in *.
  apply wp_bind, wp_bind.
  set (σ1 := {| heap := heap σ; draws := S (draws σ) |}).
  assert (after σ 1 σ1) as A1 by (split; [exists []; simpl; by rewrite app_nil_r | simpl; lia]).
  eapply (run_wp _ _ idx σ1); [done|].
  apply wp_bind, (wp_take_rows _ _ ya); [eauto | done |]. intros sy σ2 A2 Hsy.
  apply wp_bind, (wp_take_rows _ _ txa); [eauto | done |]. intros stx σ3 A3 Hstx.
  apply wp_ret. simpl.
  eapply run_wp; [by apply (batch_loop_run _ _ _ (nd_permute ya idx) (nd_permute txa idx)); eauto|].
  simpl. apply HQ.
  - replace 1 with (1 + 0) by lia. eapply after_trans; [exact A1|]. eauto.
  - apply yields_batch_handles; eauto.
Qed.

End Sampler.

(** * The training loop *)

Section Loop.
Variable permutation : nat → nat → list nat.
Hypothesis permutation_seq : ∀ k n, permutation k n ≡ₚ seq 0 n.

(** The two variants differ in the gradient and the loss they call: [gradM]
    and [lossM], which compute [gradS] and [lossS]. *)
Variable gradM : aref → aref → aref → M aref.
Variable gradS : list float → nat → list (list float) → list float → list float.
Variable lossM : aref → aref → aref → M float.
Variable lossS : list float → list (list float) → list float → float.

Hypothesis wp_gradM : ∀ σ y tx w yv c rows wv (Q : aref → state → Prop),
  points_to σ y (Vec yv) → points_to σ tx (Mat c rows) → points_to σ w (Vec wv) →
  c = length wv → length yv = length rows →
  (∀ g σ', after σ 0 σ' → points_to σ' g (Vec (gradS yv c rows wv)) →
           length (heap σ) ≤ buf g → Q g σ') →
  wp (gradM y tx w) σ Q.
Hypothesis length_gradS : ∀ yv c rows wv, length wv = c → length (gradS yv c rows wv) = c.
Hypothesis wp_lossM : ∀ σ y tx w yv c rows wv (Q : float → state → Prop),
  points_to σ y (Vec yv) → points_to σ tx (Mat c rows) → points_to σ w (Vec wv) →
  c = length wv → length yv = length rows →
  (∀ σ', after σ 0 σ' → Q (lossS yv rows wv) σ') →
  wp (lossM y tx w) σ Q.

Variable gamma : float.
Variable batch_size : Z.

(** The updates of one epoch: one per yielded batch, in order. *)
Lemma wp_updates (yp : list float) (c : nat) (rp : list (list float)) (n : nat) ids :
  length yp = length rp →
  ∀ batches σ w wv (Q : aref → state → Prop),
  Forall2 (λ '(minibatch_y, minibatch_tx) b,
             points_to σ minibatch_y (nd_batch (Vec yp) batch_size n b)
             ∧ points_to σ minibatch_tx (nd_batch (Mat c rp) batch_size n b))
          batches ids →
  points_to σ w (Vec wv) → length wv = c →
  (∀ w' σ',
     let wv' := foldl (λ w b, spec_update gamma w
                                (gradS (batch_rows yp batch_size n b) c
                                       (batch_rows rp batch_size n b) w)) wv ids in
     after σ 0 σ' → points_to σ' w' (Vec wv') → length wv' = c → Q w' σ') →
  wp (for_each batches w (λ '(minibatch_y, minibatch_tx) w,
        gr ← gradM minibatch_y minibatch_tx w; descend w gamma gr)) σ Q.
Proof.
  intros Hlen batches. revert ids.
  induction batches as [|[my mtx] batches IH]; intros ids σ w wv Q Hb Hw Hwv HQ.
  - apply Forall2_nil_inv_l in Hb as ->. apply wp_ret. by apply HQ.
  - apply Forall2_cons_inv_l in Hb as (b & ids' & [Hmy Hmtx] & Hb & ->).
    simpl. apply wp_bind, wp_bind.
    eapply (wp_gradM _ _ _ _ (batch_rows yp batch_size n b) c (batch_rows rp batch_size n b) wv);
      [exact Hmy | exact Hmtx | exact Hw | done | by apply length_rows_slice |].
    intros g σ1 A1 Hg _.
    eapply wp_descend; [eauto | exact Hg | by rewrite length_gradS |].
    intros w1 σ2 A2 Hw1 _.
    eapply (IH ids'); [|exact Hw1| |].
    + eapply Forall2_impl; [exact Hb|]. intros [a1 a2] b' [H1 H2]. split; eauto.
    + rewrite length_spec_update; [done | by rewrite length_gradS].
    + intros w' σ' wv' A3 Hw' Hlen'. apply HQ; [eauto | done | done].
Qed.

Section Epochs.
Variable y tx : aref.
Variable yv : list float.
Variable c : nat.
Variable rows : list (list float).
Hypothesis compatible_rows : length yv = length rows.

(** One epoch: one draw, the updates, then the loss of all the data at the
    weights the updates have reached. *)
Lemma wp_epoch σ w wv (Q : aref * option float → state → Prop) :
  points_to σ y (Vec yv) → points_to σ tx (Mat c rows) →
  points_to σ w (Vec wv) → length wv = c →
  (∀ w' σ',
     let wv' := spec_epoch gradS permutation batch_size gamma yv c rows (draws σ) wv in
     after σ 1 σ' → points_to σ' w' (Vec wv') → length wv' = c →
     Q (w', Some (lossS yv rows wv')) σ') →
  wp (batches ← batch_iter permutation y tx batch_size 1 true;
      w ← for_each batches w (λ '(minibatch_y, minibatch_tx) w,
        gr ← gradM minibatch_y minibatch_tx w; descend w gamma gr);
      loss ← lossM y tx w;
      mret (w, Some loss)) σ Q.
Proof.
  intros Hy Htx Hw Hwv HQ.
  pose proof (permutation_seq (draws σ) (length yv)) as Hperm.
  pose proof (Permutation_seq_bound _ _ Hperm) as Hbound.
  apply wp_bind, (wp_batch_iter_shuffled _ _ _ _ (Vec yv) (Mat c rows)); try done.
  { simpl. by rewrite <- compatible_rows. }
  simpl. intros batches σ1 A1 Hyields.
  apply wp_bind.
  eapply (wp_updates (permute yv (permutation (draws σ) (length yv))) c
            (permute rows (permutation (draws σ) (length yv))) (length yv));
    [|exact Hyields|eauto|done|].
  { rewrite !length_permute; [done| |done]. by rewrite <- compatible_rows. }
  intros w1 σ2 wv1 A2 Hw1 Hlen1.
  apply wp_bind, (wp_lossM _ _ _ _ yv c rows wv1); [eauto..|done|done|].
  intros σ3 A3. apply wp_ret. apply HQ; [|eauto|done].
  replace 1 with (1 + 0) by lia. eapply after_trans; [exact A1|]. eauto.
Qed.

(** The epochs, one per element of [xs]. *)
Lemma wp_epochs (xs : list Z) :
  ∀ σ w wv l (Q : aref * option float → state → Prop),
  points_to σ y (Vec yv) → points_to σ tx (Mat c rows) →
  points_to σ w (Vec wv) → length wv = c →
  (∀ w' σ',
     let wv' := spec_train gradS permutation batch_size gamma yv c rows (length xs) (draws σ) wv in
     after σ (length xs) σ' → points_to σ' w' (Vec wv') →
     Q (w', match xs with [] => l | _ => Some (lossS yv rows wv') end) σ') →
  wp (for_each xs (w, l) (λ n_iter '(w, _),
        batches ← batch_iter permutation y tx batch_size 1 true;
        w ← for_each batches w (λ '(minibatch_y, minibatch_tx) w,
          gr ← gradM minibatch_y minibatch_tx w; descend w gamma gr);
        loss ← lossM y tx w;
        mret (w, Some loss))) σ Q.
Proof.
  induction xs as [|x xs IH]; intros σ w wv l Q Hy Htx Hw Hwv HQ.
  - apply wp_ret. by apply HQ.
  - simpl. apply wp_bind, (wp_epoch σ w wv); try done.
    intros w1 σ1 wv1 A1 Hw1 Hlen1.
    apply (IH _ _ wv1); [eauto..|done|done|].
    intros w' σ' wv' A2 Hw'. subst wv'.
    assert (draws σ1 = S (draws σ)) as Hd by (destruct A1 as [_ ->]; lia).
    rewrite Hd in Hw'. rewrite Hd.
    assert (after σ (length (x :: xs)) σ') as A.
    { simpl. replace (S (length xs)) with (1 + length xs) by lia. by eapply after_trans. }
    specialize (HQ w' σ' A Hw'). simpl in HQ.
    by destruct xs.
Qed.

End Epochs.
End Loop.

(** * Adding a zero, in binary64 *)

Lemma Prim2SF_nan_is_nan x : Prim2SF x = S754_nan → is_nan x = true.
Proof. intros H. unfold is_nan. by rewrite FloatAxioms.eqb_spec, H. Qed.



Lemma SFeqb_refl x : x ≠ S754_nan → SFeqb x x = true.
Proof.
  destruct x as [b|b| |b m e]; intros H; try done; unfold SFeqb, SFcompare.
  - by destruct b.
  - destruct b; by rewrite Z.compare_refl, Pos.compare_cont_refl.
Qed.




(** * The handle a training loop returns *)

Lemma for_each_Ok_inv {A B} (I : B → state → Prop) (xs : list A) (body : A → B → M B) :
  (∀ x b σ b' σ', I b σ → body x b σ = Ok (b', σ') → I b' σ') →
  ∀ acc σ b σ', I acc σ → for_each xs acc body σ = Ok (b, σ') → I b σ'.
Proof.
  intros Hbody. induction xs as [|x xs IH]; intros acc σ b σ' HI Hrun.
  - injection Hrun as <- <-. done.
  - simpl in Hrun. apply bind_Ok in Hrun as (acc1 & σ1 & H1 & H2). eauto.
Qed.

Lemma descend_fresh w gamma gr σ w' σ' :
  descend w gamma gr σ = Ok (w', σ') → length (heap σ) ≤ buf w'.
Proof.
  unfold descend. intros (wv & σ1 & H1 & H)%bind_Ok.
  apply bind_Ok in H as (gv & σ2 & H2 & H).
  apply bind_Ok in H as (r & σ3 & H3 & H).
  apply preserves_read_vec in H1 as [E1 _]. apply preserves_read_vec in H2 as [E2 _].
  apply preserves_lift in H3 as [E3 _].
  injection H as <- _. simpl.
  apply extends_length in E1, E2, E3. lia.
Qed.

Section Returned.
Variable permutation : nat → nat → list nat.
Variable gradM : aref → aref → aref → M aref.
Variable lossM : aref → aref → aref → M float.
Hypothesis preserves_gradM : ∀ a b c, preserves 0 (gradM a b c).
Hypothesis preserves_lossM : ∀ a b c, preserves 0 (lossM a b c).

Lemma rebound_updates σ initial_w gamma batches w σ1 w' σ2 :
  rebound σ initial_w w σ1 →
  for_each batches w (λ '(minibatch_y, minibatch_tx) w,
    gr ← gradM minibatch_y minibatch_tx w; descend w gamma gr) σ1 = Ok (w', σ2) →
  rebound σ initial_w w' σ2.
Proof.
  apply (for_each_Ok_inv (rebound σ initial_w)).
  intros [my mtx] w0 σa w1 σb [E _] (gr & σg & Hg & Hd)%bind_Ok.
  apply preserves_gradM in Hg as [Eg _].
  pose proof (descend_fresh _ _ _ _ _ _ Hd) as Hfresh.
  apply preserves_descend in Hd as [Ed _].
  split; [eauto|]. right.
  apply extends_length in E, Eg. lia.
Qed.

Lemma rebound_epochs σ y tx initial_w gamma batch_size (xs : list Z) l w l' σ' :
  for_each xs (initial_w, l) (λ n_iter '(w, _),
    batches ← batch_iter permutation y tx batch_size 1 true;
    w ← for_each batches w (λ '(minibatch_y, minibatch_tx) w,
      gr ← gradM minibatch_y minibatch_tx w; descend w gamma gr);
    loss ← lossM y tx w;
    mret (w, Some loss)) σ = Ok ((w, l'), σ') →
  w = initial_w ∨ length (heap σ) ≤ buf w.
Proof.
  intros Hrun.
  eapply (for_each_Ok_inv (λ '(w, _) σi, rebound σ initial_w w σi)) in Hrun as [_ H];
    [done| |by split; eauto].
  intros n [w0 l0] σa [w1 l1] σb [E Hw] (batches & σ1 & Hb & H)%bind_Ok.
  apply bind_Ok in H as (w2 & σ2 & Hu & H).
  apply bind_Ok in H as (loss & σ3 & Hl & H).
  injection H as <- <- <-.
  apply (preserves_batch_iter permutation _ _ _ _ true) in Hb as [Eb _].
  apply preserves_lossM in Hl as [El _].
  eapply (rebound_updates σ initial_w) in Hu as [Eu Hw2]; [|split; [eauto | exact Hw]].
  split; eauto.
Qed.

End Returned.

(** * The claims *)

Lemma sample_permutation_seq k n : Sample.permutation k n ≡ₚ seq 0 n.
Proof.
  unfold Sample.permutation. destruct (Nat.even k); [apply reverse_Permutation | done].
Qed.

Lemma range_length n : length (range n) = Z.to_nat n.
Proof. unfold range. by rewrite length_fmap, length_seq. Qed.

(** ** C4 and C3: [clipping] *)

(** C4. For every array [z] handed to [clipping], the array that comes back
    has the shape of [z], and its element at every position [i] is 15 where
    [z[i] > 15], -15 where [z[i] < -15], and [z[i]] otherwise. *)
Theorem clipping_elementwise σ z a :
  points_to σ z a →
  ∃ r σ' a',
    clipping z σ = Ok (r, σ') ∧ points_to σ' r a'
    ∧ nd_shape a' = nd_shape a
    ∧ ∀ i x, nd_flat a !! i = Some x →
        nd_flat a' !! i =
          Some (if (15 <? x)%float then 15%float
                else if (x <? -15)%float then (-15)%float else x).
Proof.
  intros Hz. destruct (clipping_points_to _ _ _ Hz) as (σ' & Hrun & Hz' & _).
  exists z, σ', (nd_map spec_clip a). split; [done|]. split; [done|].
  split; [apply nd_shape_map|].
  intros i x Hi. by rewrite nd_flat_map, list_lookup_fmap, Hi.
Qed.

Lemma clipping_elementwise_witness :
  points_to Sample.σz Sample.z_tail (Vec [-20; 3; 15.5]%float)
  ∧ ∃ r σ' a',
      clipping Sample.z_tail Sample.σz = Ok (r, σ') ∧ points_to σ' r a'
      ∧ nd_shape a' = [3]
      ∧ ∀ i x, [-20; 3; 15.5]%float !! i = Some x →
          nd_flat a' !! i =
            Some (if (15 <? x)%float then 15%float
                  else if (x <? -15)%float then (-15)%float else x).
Proof.
  split; [reflexivity|].
  apply (clipping_elementwise Sample.σz Sample.z_tail (Vec [-20; 3; 15.5]%float)).
  reflexivity.
Defined.

(** C3, as the code has it: [clipping] returns no copy.  It returns the handle
    it was given, the argument holds the clipped elements after the call, and
    no other buffer of the store has changed. *)
Theorem clipping_in_place σ z a :
  points_to σ z a →
  ∃ σ', clipping z σ = Ok (z, σ')
        ∧ points_to σ' z (nd_map spec_clip a)
        ∧ length (heap σ') = length (heap σ)
        ∧ ∀ l, l ≠ buf z → heap σ' !! l = heap σ !! l.
Proof.
  intros Hz. destruct (clipping_points_to _ _ _ Hz) as (σ' & Hrun & Hz' & Hlen & _ & Hframe).
  by exists σ'.
Qed.

Lemma clipping_in_place_witness :
  points_to Sample.σz Sample.z (Vec Sample.zv)
  ∧ ∃ σ', clipping Sample.z Sample.σz = Ok (Sample.z, σ')
          ∧ points_to σ' Sample.z (nd_map spec_clip (Vec Sample.zv))
          ∧ length (heap σ') = length (heap Sample.σz)
          ∧ ∀ l, l ≠ buf Sample.z → heap σ' !! l = heap Sample.σz !! l.
Proof.
  split; [reflexivity|].
  apply (clipping_in_place Sample.σz Sample.z (Vec Sample.zv)). reflexivity.
Defined.

(** C3 as stated fails: on the scores [20, -20, 3, 15.5] the handle that comes
    back is the argument, and the argument no longer holds what it held. *)
Lemma clipping_returns_no_copy :
  points_to Sample.σz Sample.z (Vec Sample.zv)
  ∧ ∃ r σ', clipping Sample.z Sample.σz = Ok (r, σ')
            ∧ r = Sample.z
            ∧ points_to σ' Sample.z (Vec [15; -15; 3; 15]%float)
            ∧ ¬ points_to σ' Sample.z (Vec Sample.zv).
Proof.
  split; [reflexivity|]. eexists _, _. split; [reflexivity|].
  split; [reflexivity|]. split; [reflexivity|].
  intros H.
  apply (f_equal (λ r, match r with
                       | Ok (Vec (x :: _), _) => (x <? 16)%float
                       | _ => false
                       end)) in H.
  vm_compute in H. discriminate H.
Qed.

(** ** C2 and C8: the loss and the gradient *)



(** C8. For [y], [tx], [w] of compatible shapes, [cross_entropy_gradient]
    returns the product of the transpose of [tx] with [sigmoid(tx @ w) - y],
    a vector as long as [w]. *)
Theorem gradient_is_transposed_product exp σ y tx w yv c rows wv :
  points_to σ y (Vec yv) → points_to σ tx (Mat c rows) → points_to σ w (Vec wv) →
  length wv = c → length yv = length rows →
  ∃ g σ' gv,
    cross_entropy_gradient exp y tx w σ = Ok (g, σ')
    ∧ points_to σ' g (Vec gv)
    ∧ gv = transposed_product c rows
             (zip_with PrimFloat.sub (sigmoid1 exp <$> scores rows wv) yv)
    ∧ length gv = length wv.
Proof.
  intros Hy Htx Hw Hc Hn.
  destruct (wp_run (cross_entropy_gradient exp y tx w) σ
              (λ g σ', points_to σ' g (Vec (spec_gradient exp yv c rows wv))))
    as (g & σ' & Hrun & Hg).
  { by apply (wp_cross_entropy_gradient _ _ _ _ _ yv c rows wv). }
  exists g, σ', (spec_gradient exp yv c rows wv).
  split; [done|]. split; [done|]. split; [done|].
  by rewrite length_spec_gradient.
Qed.

Lemma gradient_is_transposed_product_witness :
  (points_to Sample.σ0 Sample.y (Vec Sample.yv)
   ∧ points_to Sample.σ0 Sample.tx (Mat 2 Sample.rows)
   ∧ points_to Sample.σ0 Sample.w (Vec Sample.wv))
  ∧ ∃ g σ' gv,
      cross_entropy_gradient Sample.exp Sample.y Sample.tx Sample.w Sample.σ0 = Ok (g, σ')
      ∧ points_to σ' g (Vec gv)
      ∧ gv = transposed_product 2 Sample.rows
               (zip_with PrimFloat.sub
                  (sigmoid1 Sample.exp <$> scores Sample.rows Sample.wv) Sample.yv)
      ∧ length gv = length Sample.wv.
Proof.
  split; [repeat split; reflexivity|].
  apply (gradient_is_transposed_product Sample.exp Sample.σ0 Sample.y Sample.tx Sample.w
           Sample.yv 2 Sample.rows Sample.wv); reflexivity.
Defined.

(** ** C9: no epoch, no loss *)

(** C9. With [max_iters = 0] neither training function returns: the local
    [loss] was never bound and the run ends in an unbound-variable error,
    whatever the arrays and the other parameters are.  A run that returns a
    pair had [max_iters >= 1]. *)
Theorem zero_epochs_unbound_loss exp ln permutation σ y tx initial_w gamma batch_size lambda_ :
  logistic_regression exp ln permutation y tx initial_w 0 gamma batch_size σ
    = Raise UnboundLocalError
  ∧ reg_logistic_regression exp ln permutation y tx lambda_ initial_w 0 gamma batch_size σ
    = Raise UnboundLocalError
  ∧ (∀ max_iters r,
       logistic_regression exp ln permutation y tx initial_w max_iters gamma batch_size σ = Ok r →
       (1 ≤ max_iters)%Z)
  ∧ (∀ max_iters r,
       reg_logistic_regression exp ln permutation y tx lambda_ initial_w max_iters gamma batch_size σ
         = Ok r →
       (1 ≤ max_iters)%Z).
Proof.
  split; [reflexivity|]. split; [reflexivity|].
  split; intros max_iters r Hrun; destruct (Z.le_gt_cases 1 max_iters) as [|Hlt]; try done;
    exfalso; revert Hrun;
    unfold logistic_regression, reg_logistic_regression, range;
    replace (Z.to_nat max_iters) with 0 by lia; discriminate.
Qed.

(** ** C5: the sampler *)



(** ** C1: the training loop *)

(** C1. With [max_iters >= 1] and arrays of compatible shapes, both training
    functions return.  The weights they return are those reached after
    exactly [max_iters] epochs, each epoch being one sampling call with the
    given [batch_size] and [num_batches = 1] and one update
    [w ← w − gamma * gradient] per batch that call yields, with the gradient
    of the variant; the loss they return is the loss of the variant on all
    the data at those final weights; and [max_iters] permutations have been
    drawn, one per epoch. *)
Theorem training_runs_every_epoch exp ln permutation σ y tx initial_w yv c rows wv
    max_iters gamma batch_size lambda_ :
  (∀ k n, permutation k n ≡ₚ seq 0 n) →
  points_to σ y (Vec yv) → points_to σ tx (Mat c rows) → points_to σ initial_w (Vec wv) →
  length wv = c → length yv = length rows →
  (1 ≤ max_iters)%Z →
  (∃ w σ' wv',
     logistic_regression exp ln permutation y tx initial_w max_iters gamma batch_size σ
       = Ok ((w, spec_loss exp ln yv rows wv'), σ')
     ∧ points_to σ' w (Vec wv')
     ∧ wv' = spec_train (spec_gradient exp) permutation batch_size gamma yv c rows
               (Z.to_nat max_iters) (draws σ) wv
     ∧ draws σ' = draws σ + Z.to_nat max_iters)
  ∧ (∃ w σ' wv',
       reg_logistic_regression exp ln permutation y tx lambda_ initial_w max_iters gamma
         batch_size σ
         = Ok ((w, spec_reg_loss exp ln lambda_ yv rows wv'), σ')
       ∧ points_to σ' w (Vec wv')
       ∧ wv' = spec_train (spec_reg_gradient exp lambda_) permutation batch_size gamma yv c
                 rows (Z.to_nat max_iters) (draws σ) wv
       ∧ draws σ' = draws σ + Z.to_nat max_iters).
Proof.
  intros Hperm Hy Htx Hw Hc Hn Hiters.
  assert (∃ x xs, range max_iters = x :: xs) as (x & xs & Hrange).
  { pose proof (range_length max_iters) as Hl.
    destruct (range max_iters) as [|x xs]; [simpl in Hl; lia | eauto]. }
  split.
  - set (wv' := spec_train (spec_gradient exp) permutation batch_size gamma yv c rows
                  (Z.to_nat max_iters) (draws σ) wv).
    destruct (wp_run
                (logistic_regression exp ln permutation y tx initial_w max_iters gamma batch_size)
                σ (λ r σ', r.2 = spec_loss exp ln yv rows wv' ∧ points_to σ' r.1 (Vec wv')
                           ∧ draws σ' = draws σ + Z.to_nat max_iters))
      as ([w l] & σ' & Hrun & Hl & Hw' & Hd).
    { unfold logistic_regression. apply wp_bind.
      eapply (wp_epochs permutation Hperm (cross_entropy_gradient exp) (spec_gradient exp)
                (cross_entropy_loss exp ln) (spec_loss exp ln));
        [apply wp_cross_entropy_gradient | intros; apply length_spec_gradient
        | apply wp_cross_entropy_loss | exact Hn | exact Hy | exact Htx | exact Hw | exact Hc |].
      rewrite range_length. intros w' σ' wv1 [E D] Hw'. rewrite Hrange. simpl.
      repeat split; done. }
    simpl in Hl. subst l. by exists w, σ', wv'.
  - set (wv' := spec_train (spec_reg_gradient exp lambda_) permutation batch_size gamma yv c
                  rows (Z.to_nat max_iters) (draws σ) wv).
    destruct (wp_run
                (reg_logistic_regression exp ln permutation y tx lambda_ initial_w max_iters
                   gamma batch_size)
                σ (λ r σ', r.2 = spec_reg_loss exp ln lambda_ yv rows wv'
                           ∧ points_to σ' r.1 (Vec wv')
                           ∧ draws σ' = draws σ + Z.to_nat max_iters))
      as ([w l] & σ' & Hrun & Hl & Hw' & Hd).
    { unfold reg_logistic_regression. apply wp_bind.
      eapply (wp_epochs permutation Hperm
                (λ a b c, regularized_cross_entropy_gradient exp a b c lambda_)
                (spec_reg_gradient exp lambda_)
                (λ a b c, regularized_cross_entropy_loss exp ln a b c lambda_)
                (spec_reg_loss exp ln lambda_));
        [intros; by eapply wp_regularized_cross_entropy_gradient
        | intros; by apply length_spec_reg_gradient
        | intros; by eapply wp_regularized_cross_entropy_loss
        | exact Hn | exact Hy | exact Htx | exact Hw | exact Hc |].
      rewrite range_length. intros w' σ' wv1 [E D] Hw'. rewrite Hrange. simpl.
      repeat split; done. }
    simpl in Hl. subst l. by exists w, σ', wv'.
Qed.

Lemma training_runs_every_epoch_witness :
  ((1 ≤ 2)%Z
   ∧ points_to Sample.σ0 Sample.y (Vec Sample.yv)
   ∧ points_to Sample.σ0 Sample.tx (Mat 2 Sample.rows)
   ∧ points_to Sample.σ0 Sample.w (Vec Sample.wv))
  ∧ ∃ w l σ',
      logistic_regression Sample.exp Sample.ln Sample.permutation Sample.y Sample.tx Sample.w
        2 0.5 2 Sample.σ0 = Ok ((w, l), σ')
      ∧ draws σ' = 2.
Proof.
  split; [repeat split; (lia || reflexivity)|].
  destruct (training_runs_every_epoch Sample.exp Sample.ln Sample.permutation Sample.σ0
              Sample.y Sample.tx Sample.w Sample.yv 2 Sample.rows Sample.wv 2 0.5 2 0.25
              sample_permutation_seq)
    as [(w & σ' & wv' & Hrun & _ & _ & Hd) _]; [reflexivity.. | lia |].
  exists w, (spec_loss Sample.exp Sample.ln Sample.yv Sample.rows wv'), σ'.
  split; [exact Hrun | exact Hd].
Defined.

(** ** C10: the inputs of a training run *)

(** C10. When a call of either training function returns, every array of the
    store it was called in is as it was, the arrays behind [y], [tx] and
    [initial_w] among them: the clipping inside the loss only ever stores
    into the scores the loss has just computed, and the weights the call
    returns are either the array [initial_w] itself (no update was made) or
    an array made during the call. *)
Theorem training_leaves_inputs_unchanged exp ln permutation σ y tx initial_w max_iters gamma
    batch_size lambda_ w l σ' :
  logistic_regression exp ln permutation y tx initial_w max_iters gamma batch_size σ
    = Ok ((w, l), σ')
  ∨ reg_logistic_regression exp ln permutation y tx lambda_ initial_w max_iters gamma
      batch_size σ = Ok ((w, l), σ') →
  (∀ r a, points_to σ r a → points_to σ' r a)
  ∧ (∀ b a, heap σ !! b = Some a → heap σ' !! b = Some a)
  ∧ (w = initial_w ∨ length (heap σ) ≤ buf w).
Proof.
  intros Hrun.
  assert (extends σ σ') as E.
  { destruct Hrun as [Hrun|Hrun].
    - by apply preserves_logistic_regression in Hrun as [E _].
    - by apply preserves_reg_logistic_regression in Hrun as [E _]. }
  split; [eauto|]. split; [intros b a; by apply extends_lookup|].
  destruct Hrun as [Hrun|Hrun].
  - unfold logistic_regression in Hrun.
    apply bind_Ok in Hrun as ([w0 l0] & σ1 & Hloop & Hret).
    destruct l0 as [l0|]; [|done]. injection Hret as <- _ _.
    eapply (rebound_epochs permutation (cross_entropy_gradient exp) (cross_entropy_loss exp ln));
      [apply preserves_cross_entropy_gradient | apply preserves_cross_entropy_loss | exact Hloop].
  - unfold reg_logistic_regression in Hrun.
    apply bind_Ok in Hrun as ([w0 l0] & σ1 & Hloop & Hret).
    destruct l0 as [l0|]; [|done]. injection Hret as <- _ _.
    eapply (rebound_epochs permutation
              (λ a b c, regularized_cross_entropy_gradient exp a b c lambda_)
              (λ a b c, regularized_cross_entropy_loss exp ln a b c lambda_));
      [intros; apply preserves_regularized_cross_entropy_gradient
      | intros; apply preserves_regularized_cross_entropy_loss | exact Hloop].
Qed.

Lemma training_leaves_inputs_unchanged_witness :
  ∃ w l σ',
    logistic_regression Sample.exp Sample.ln Sample.permutation Sample.y Sample.tx Sample.w
      1 0.5 2 Sample.σ0 = Ok ((w, l), σ')
    ∧ (∀ r a, points_to Sample.σ0 r a → points_to σ' r a)
    ∧ (∀ b a, heap Sample.σ0 !! b = Some a → heap σ' !! b = Some a)
    ∧ (w = Sample.w ∨ length (heap Sample.σ0) ≤ buf w).
Proof.
  destruct (logistic_regression Sample.exp Sample.ln Sample.permutation Sample.y Sample.tx
              Sample.w 1 0.5 2 Sample.σ0) as [[[w l] σ']|e] eqn:Hrun.
  - exists w, l, σ'. split; [reflexivity|].
    apply (training_leaves_inputs_unchanged Sample.exp Sample.ln Sample.permutation Sample.σ0
             Sample.y Sample.tx Sample.w 1 0.5 2 0.25 w l σ').
    left. exact Hrun.
  - vm_compute in Hrun. discriminate Hrun.
Defined.

(** ** C7: regularization strength zero *)

Lemma is_nan_SF x : Prim2SF x = S754_nan → x = nan.
Proof. intros H. apply Prim2SF_inj. by rewrite H. Qed.


Lemma add_nan_r x : (x + nan)%float = nan.
Proof.
  apply is_nan_SF. rewrite add_spec. change (Prim2SF nan) with S754_nan.
  unfold SF64add, SFadd. by destruct (Prim2SF x).
Qed.



Lemma eqb_nan_r x : (x =? nan)%float = false.
Proof.
  rewrite FloatAxioms.eqb_spec. change (Prim2SF nan) with S754_nan.
  unfold SFeqb, SFcompare. by destruct (Prim2SF x).
Qed.




(** * Rounding in binary64

    The sum [1 + e] and the quotient [1 / s] of the sigmoid, followed through
    the rounding of binary64 as the specification of the primitive floats
    defines it. *)

Section Rounding.
Local Open Scope Z_scope.


Lemma digits2_pos_bounds p :
  2 ^ (Zpos (digits2_pos p) - 1) ≤ Zpos p < 2 ^ Zpos (digits2_pos p).
Proof.
  induction p as [p IH|p IH|]; simpl digits2_pos.
  - rewrite Pos2Z.inj_succ.
    replace (Z.succ (Zpos (digits2_pos p)) - 1) with (Z.succ (Zpos (digits2_pos p) - 1)) by lia.
    rewrite !Z.pow_succ_r by lia. lia.
  - rewrite Pos2Z.inj_succ.
    replace (Z.succ (Zpos (digits2_pos p)) - 1) with (Z.succ (Zpos (digits2_pos p) - 1)) by lia.
    rewrite !Z.pow_succ_r by lia. lia.
  - simpl. lia.
Qed.

Lemma digits2_pos_unique p n :
  2 ^ (n - 1) ≤ Zpos p < 2 ^ n → Zpos (digits2_pos p) = n.
Proof.
  intros [Hlo Hhi]. pose proof (digits2_pos_bounds p) as [Dlo Dhi].
  assert (0 ≤ n).
  { destruct (Z.le_gt_cases 0 n); [done|]. rewrite Z.pow_neg_r in Hhi by lia. lia. }
  assert (Zpos (digits2_pos p) - 1 < n).
  { apply (Z.pow_lt_mono_r_iff 2); lia. }
  assert (n - 1 < Zpos (digits2_pos p)).
  { destruct (Z.le_gt_cases 0 (n - 1)).
    - apply (Z.pow_lt_mono_r_iff 2); lia.
    - lia. }
  lia.
Qed.

Lemma shr_1_m mrs : 0 ≤ shr_m mrs → shr_m (shr_1 mrs) = shr_m mrs / 2.
Proof.
  destruct mrs as [m r s]. simpl. intros Hm.
  destruct m as [|p|p]; [done| |lia].
  rewrite <- Z.div2_div. by destruct p.
Qed.

Lemma pow2_twice n : 0 ≤ n → 2 ^ (2 * n) = 2 ^ n * 2 ^ n.
Proof. intros H. replace (2 * n) with (n + n) by lia. by rewrite Z.pow_add_r. Qed.

Lemma iter_shr_m p :
  ∀ mrs, 0 ≤ shr_m mrs →
    shr_m (SpecFloat.iter_pos shr_1 p mrs) = shr_m mrs / 2 ^ Zpos p.
Proof.
  induction p as [p IH|p IH|]; intros mrs Hm; simpl SpecFloat.iter_pos.
  - assert (0 ≤ shr_m (shr_1 mrs)) by (rewrite shr_1_m by done; apply Z.div_pos; lia).
    assert (0 ≤ shr_m (SpecFloat.iter_pos shr_1 p (shr_1 mrs)))
      by (rewrite IH by done; apply Z.div_pos; [done | by apply Z.pow_pos_nonneg]).
    rewrite !IH, shr_1_m by done.
    rewrite !Z.div_div by (try apply Z.pow_pos_nonneg; lia).
    f_equal. change (Z.pos p~1) with (2 * Z.pos p + 1).
    rewrite Z.pow_add_r, pow2_twice by lia. change (2 ^ 1) with 2. lia.
  - assert (0 ≤ shr_m (SpecFloat.iter_pos shr_1 p mrs))
      by (rewrite IH by done; apply Z.div_pos; [done | by apply Z.pow_pos_nonneg]).
    rewrite !IH by done.
    rewrite !Z.div_div by (try apply Z.pow_pos_nonneg; lia).
    f_equal. change (Z.pos p~0) with (2 * Z.pos p).
    by rewrite pow2_twice by lia.
  - rewrite shr_1_m by done. done.
Qed.

Lemma round_nearest_even_range q l : q ≤ round_nearest_even q l ≤ q + 1.
Proof. destruct l as [|[]]; simpl; try lia. destruct (Z.even q); lia. Qed.

Lemma shr_m_of_loc m l : shr_m (shr_record_of_loc m l) = m.
Proof. by destruct l as [|[]]. Qed.

Lemma fexp_normal e : -1074 ≤ e - 53 → fexp prec emax e = e - 53.
Proof.
  intros H. unfold fexp. change (SpecFloat.emin prec emax) with (-1074).
  change prec with 53. lia.
Qed.

(** Rounding a mantissa of at least 53 bits, away from underflow and
    overflow: the result is the mantissa shifted down to 53 bits, or the next
    one. *)
Lemma binary_round_aux_bounds p ex lx :
  let d := Zpos (digits2_pos p) in
  let e1 := ex + d - 53 in
  let q := Zpos p / 2 ^ (d - 53) in
  53 ≤ d → -1074 ≤ e1 → e1 + 1 ≤ 971 →
  ∃ m e,
    binary_round_aux prec emax false (Zpos p) ex lx = S754_finite false m e
    ∧ 2 ^ 52 ≤ Zpos m < 2 ^ 53
    ∧ ((e = e1 ∧ q ≤ Zpos m ≤ q + 1)
       ∨ (e = e1 + 1 ∧ Zpos m = 2 ^ 52 ∧ q + 1 = 2 ^ 53)).
Proof.
  intros d e1 q Hd He1 Hov.
  pose proof (digits2_pos_bounds p) as [Plo Phi]. fold d in Plo, Phi.
  assert (0 < 2 ^ (d - 53)) as Hk by (apply Z.pow_pos_nonneg; lia).
  assert (2 ^ 52 ≤ q < 2 ^ 53) as [Qlo Qhi].
  { assert (2 ^ (d - 1) = 2 ^ 52 * 2 ^ (d - 53)) as E1
      by (rewrite <- Z.pow_add_r by lia; f_equal; lia).
    assert (2 ^ d = 2 ^ 53 * 2 ^ (d - 53)) as E2
      by (rewrite <- Z.pow_add_r by lia; f_equal; lia).
    rewrite E1 in Plo. rewrite E2 in Phi. split.
    - apply Z.div_le_lower_bound; lia.
    - apply Z.div_lt_upper_bound; lia. }
  assert (∃ mrs', shr_fexp prec emax (Zpos p) ex lx = (mrs', e1) ∧ shr_m mrs' = q)
    as (mrs' & Hfirst & Hq).
  { unfold shr_fexp. simpl Zdigits2. fold d. rewrite fexp_normal by (unfold e1 in He1; lia).
    replace (d + ex - 53 - ex) with (d - 53) by lia. unfold shr, q.
    destruct (d - 53) as [|k|k] eqn:Hdk; [| |lia].
    - eexists. split; [f_equal; unfold e1; lia|].
      by rewrite shr_m_of_loc, Z.pow_0_r, Z.div_1_r.
    - eexists. split; [f_equal; unfold e1; lia|].
      rewrite iter_shr_m; rewrite shr_m_of_loc; [done | lia]. }
  unfold binary_round_aux. rewrite Hfirst, Hq.
  pose proof (round_nearest_even_range q (loc_of_shr_record mrs')) as [Rlo Rhi].
  destruct (round_nearest_even q (loc_of_shr_record mrs')) as [|p1|p1] eqn:Hm1; [lia| |lia].
  destruct (Z.lt_ge_cases (Zpos p1) (2 ^ 53)) as [Hlt|Hge].
  - assert (Zpos (digits2_pos p1) = 53) as Hd1 by (apply digits2_pos_unique; lia).
    unfold shr_fexp. simpl Zdigits2. rewrite Hd1, fexp_normal by lia.
    replace (53 + e1 - 53 - e1) with 0 by lia. simpl. change (emax - prec) with 971.
    replace (e1 <=? 971) with true by (symmetry; apply Z.leb_le; lia).
    exists p1, e1. split; [done|]. split; [lia|]. left. lia.
  - assert (Zpos p1 = 2 ^ 53) as Hp1 by lia.
    assert (Zpos (digits2_pos p1) = 54) as Hd1 by (apply digits2_pos_unique; lia).
    unfold shr_fexp. simpl Zdigits2. rewrite Hd1, fexp_normal by lia.
    replace (54 + e1 - 53 - e1) with 1 by lia.
    injection Hp1 as ->. simpl. change (emax - prec) with 971.
    replace (e1 + 1 <=? 971) with true by (symmetry; apply Z.leb_le; lia).
    eexists _, (e1 + 1). split; [done|]. split; [done|]. right. lia.
Qed.

Lemma binary_normalize_bounds M ez :
  let d := Zpos (digits2_pos M) in
  let e1 := ez + d - 53 in
  let q := Zpos M / 2 ^ (d - 53) in
  53 ≤ d → -1074 ≤ e1 → e1 + 1 ≤ 971 →
  ∃ m e,
    binary_normalize prec emax (Zpos M) ez false = S754_finite false m e
    ∧ 2 ^ 52 ≤ Zpos m < 2 ^ 53
    ∧ ((e = e1 ∧ q ≤ Zpos m ≤ q + 1)
       ∨ (e = e1 + 1 ∧ Zpos m = 2 ^ 52 ∧ q + 1 = 2 ^ 53)).
Proof.
  intros d e1 q Hd He1 Hov.
  unfold binary_normalize, binary_round, shl_align. fold d.
  rewrite fexp_normal by (unfold e1 in He1; lia).
  destruct (d + ez - 53 - ez) as [|k|k] eqn:Hk; [| |lia];
    by apply binary_round_aux_bounds.
Qed.

Lemma Zpos_iter_xO m d : Zpos (Pos.iter xO m d) = Zpos m * 2 ^ Zpos d.
Proof.
  induction d as [|d IH] using Pos.peano_ind.
  - simpl. lia.
  - rewrite Pos.iter_succ, Pos2Z.inj_succ, Z.pow_succ_r by lia.
    change (Z.pos (Pos.iter xO m d)~0) with (2 * Z.pos (Pos.iter xO m d)). lia.
Qed.

(** The digits of a number between two powers of two. *)
Lemma digits2_pos_between p a b :
  0 ≤ a → 2 ^ a ≤ Zpos p < 2 ^ b → a + 1 ≤ Zpos (digits2_pos p) ≤ b.
Proof.
  intros Ha [Hlo Hhi]. pose proof (digits2_pos_bounds p) as [Dlo Dhi].
  assert (0 ≤ b).
  { destruct (Z.le_gt_cases 0 b); [done|]. rewrite Z.pow_neg_r in Hhi by lia. lia. }
  assert (a < Zpos (digits2_pos p)) by (apply (Z.pow_lt_mono_r_iff 2); lia).
  assert (Zpos (digits2_pos p) - 1 < b) by (apply (Z.pow_lt_mono_r_iff 2); lia).
  lia.
Qed.

Lemma pow2_range a b c : a ≤ b ≤ c → 2 ^ a ≤ 2 ^ b ≤ 2 ^ c.
Proof. intros [H1 H2]. split; apply Z.pow_le_mono_r; lia. Qed.

(** [1 + e] for a float [e] between 2^-22 and 2^22: a float between
    1 + 2^-22 and 2^23. *)
Lemma one_plus_bounds m ex :
  2 ^ 52 ≤ Zpos m < 2 ^ 53 → -74 ≤ ex ≤ -30 → (ex = -30 → Zpos m = 2 ^ 52) →
  ∃ m2 e2,
    SF64add (S754_finite false 4503599627370496 (-52)) (S754_finite false m ex)
      = S754_finite false m2 e2
    ∧ 2 ^ 52 ≤ Zpos m2 < 2 ^ 53 ∧ -52 ≤ e2 ≤ -30
    ∧ (e2 = -52 → 2 ^ 52 + 2 ^ 30 ≤ Zpos m2).
Proof.
  intros Hm Hex Htop. unfold SF64add, SFadd.
  destruct (Z.le_gt_cases (-52) ex) as [HA|HB].
  - rewrite Z.min_l by lia.
    assert (∃ pm, fst (shl_align m ex (-52)) = pm ∧ Zpos pm = Zpos m * 2 ^ (ex + 52))
      as (pm & -> & Hpm).
    { unfold shl_align. destruct (-52 - ex) as [|k|k] eqn:Hk; [|lia|].
      - exists m. split; [done|]. replace (ex + 52) with 0 by lia. lia.
      - exists (Pos.iter xO m k). split; [done|]. rewrite Zpos_iter_xO. do 2 f_equal. lia. }
    change (fst (shl_align 4503599627370496 (-52) (-52))) with 4503599627370496%positive.
    simpl cond_Zopp.
    change (Z.pos 4503599627370496 + Z.pos pm) with (Z.pos (4503599627370496 + pm)).
    set (M := (4503599627370496 + pm)%positive).
    assert (Zpos M = 2 ^ 52 + Zpos m * 2 ^ (ex + 52)) as HM by (unfold M; lia).
    pose proof (pow2_range 0 (ex + 52) 22 ltac:(lia)) as [T1 T2].
    assert (Zpos m * 2 ^ (ex + 52) ≤ 2 ^ 74) as Hprod.
    { destruct (Z.eq_dec ex (-30)) as [->|Hne].
      - rewrite Htop by done. simpl. lia.
      - pose proof (pow2_range 0 (ex + 52) 21 ltac:(lia)) as [_ T3].
        transitivity (2 ^ 53 * 2 ^ 21); [|simpl; lia].
        apply Z.mul_le_mono_nonneg; lia. }
    assert (2 ^ 52 ≤ Zpos m * 2 ^ (ex + 52)) as Hprod' by nia.
    pose proof (digits2_pos_between M 53 75 ltac:(lia) ltac:(lia)) as HdM.
    pose proof (binary_normalize_bounds M (-52)) as HN. cbv zeta in HN.
    destruct HN as (m2 & e2 & Heq & Hn & Hc); [lia..|].
    exists m2, e2. split; [exact Heq|]. split; [exact Hn|].
    destruct Hc as [[-> Hq]|(-> & Hm2 & Hq)].
    + split; [lia|]. intros ?. lia.
    + split; [|intros ?; lia]. split; [lia|].
      destruct (Z.eq_dec (Zpos (digits2_pos M)) 75) as [E75|]; [|lia].
      exfalso. rewrite E75 in Hq.
      assert (Zpos M / 2 ^ (75 - 53) ≤ 2 ^ 30 + 2 ^ 52); [|lia].
      apply Z.div_le_upper_bound; simpl; lia.
  - rewrite Z.min_r by lia.
    assert (∃ p1, fst (shl_align 4503599627370496 (-52) ex) = p1 ∧ Zpos p1 = 2 ^ (- ex))
      as (p1 & -> & Hp1).
    { unfold shl_align. destruct (ex - -52) as [|k|k] eqn:Hk; [lia|lia|].
      exists (Pos.iter xO 4503599627370496%positive k). split; [done|]. rewrite Zpos_iter_xO.
      change (Z.pos 4503599627370496) with (2 ^ 52).
      rewrite <- Z.pow_add_r by lia. f_equal. lia. }
    assert (fst (shl_align m ex ex) = m) as ->.
    { unfold shl_align. by rewrite Z.sub_diag. }
    simpl cond_Zopp.
    change (Z.pos p1 + Z.pos m) with (Z.pos (p1 + m)).
    set (M := (p1 + m)%positive).
    assert (Zpos M = 2 ^ (- ex) + Zpos m) as HM by (unfold M; lia).
    pose proof (pow2_range 53 (- ex) 74 ltac:(lia)) as [T1 T2].
    assert (2 ^ (1 - ex) = 2 * 2 ^ (- ex)) as Hsucc.
    { replace (1 - ex) with (Z.succ (- ex)) by lia. by rewrite Z.pow_succ_r by lia. }
    assert (Zpos (digits2_pos M) = 1 - ex) as HdM.
    { apply digits2_pos_unique. replace (1 - ex - 1) with (- ex) by lia. lia. }
    pose proof (binary_normalize_bounds M ex) as HN. cbv zeta in HN.
    rewrite HdM in HN.
    destruct HN as (m2 & e2 & Heq & Hn & Hc); [lia..|].
    exists m2, e2. split; [exact Heq|]. split; [exact Hn|].
    assert (2 ^ 52 + 2 ^ 30 ≤ Zpos M / 2 ^ (1 - ex - 53)) as Hq.
    { pose proof (pow2_range 1 (1 - ex - 53) 22 ltac:(lia)) as [K1 K2].
      assert (2 ^ (- ex) = 2 ^ (1 - ex - 53) * 2 ^ 52) as Hsplit.
      { rewrite <- Z.pow_add_r by lia. f_equal. lia. }
      apply Z.div_le_lower_bound; [lia|]. rewrite HM, Hsplit.
      change (2 ^ 22) with 4194304 in K2. change (2 ^ 30) with 1073741824.
      change (2 ^ 52) with 4503599627370496 in *. nia. }
    destruct Hc as [[-> Hq2]|(-> & Hm2 & Hq2)].
    + split; [lia|]. intros _. lia.
    + split; [lia|]. intros ?. lia.
Qed.

(** [1 / s] for a float [s] between 1 + 2^-22 and 2^23: a float of exponent
    at least -75, below the float 1 - 1e-7. *)
Lemma one_over_bounds m2 e2 :
  2 ^ 52 ≤ Zpos m2 < 2 ^ 53 → -52 ≤ e2 ≤ -30 →
  (e2 = -52 → 2 ^ 52 + 2 ^ 30 ≤ Zpos m2) →
  ∃ m3 e3,
    SF64div (S754_finite false 4503599627370496 (-52)) (S754_finite false m2 e2)
      = S754_finite false m3 e3
    ∧ 2 ^ 52 ≤ Zpos m3 < 2 ^ 53 ∧ -75 ≤ e3
    ∧ (e3 < -53 ∨ (e3 = -53 ∧ Zpos m3 < 9007198354021067)).
Proof.
  intros Hm He Hlow. unfold SF64div, SFdiv, SFdiv_core_binary.
  assert (Zdigits2 (Zpos m2) = 53) as ->
    by (simpl; apply digits2_pos_unique; lia).
  change (Zdigits2 (Z.pos 4503599627370496)) with 53.
  replace (53 + -52 - (53 + e2)) with (-52 - e2) by lia.
  rewrite fexp_normal by lia.
  rewrite Z.min_l by lia.
  replace (-52 - e2 - (-52 - e2 - 53)) with 53 by lia.
  change (Z.shiftl (Z.pos 4503599627370496) 53) with (2 ^ 105).
  pose proof (Z.div_eucl_eq (2 ^ 105) (Zpos m2) ltac:(lia)) as Heucl.
  pose proof (Z.mod_pos_bound (2 ^ 105) (Zpos m2) ltac:(lia)) as Hmod.
  unfold Z.modulo in Hmod.
  destruct (Z.div_eucl (2 ^ 105) (Z.pos m2)) as [q r] eqn:Hdiv.
  assert (2 ^ 52 ≤ q ≤ 2 ^ 53) as [Qlo Qhi].
  { change (2 ^ 105) with (2 ^ 52 * 2 ^ 53) in Heucl.
    change (2 ^ 52) with 4503599627370496 in *.
    change (2 ^ 53) with 9007199254740992 in *. nia. }
  destruct q as [|pq|pq]; [simpl in Qlo; lia| |lia].
  pose proof (digits2_pos_between pq 52 54 ltac:(lia) ltac:(simpl; simpl in Qhi; lia)) as Hd.
  pose proof (binary_round_aux_bounds pq (-52 - e2 - 53) (new_location (Zpos m2) r)) as HR.
  cbv zeta in HR.
  destruct HR as (m3 & e3 & Heq & Hn & Hc); [lia..|].
  exists m3, e3. split; [exact Heq|]. split; [exact Hn|].
  destruct (Z.eq_dec (Zpos (digits2_pos pq)) 53) as [E53|N53].
  - rewrite E53 in Hc. change (2 ^ (53 - 53)) with 1 in Hc. rewrite Z.div_1_r in Hc.
    destruct (Z.eq_dec e2 (-52)) as [->|Hne].
    + assert (Zpos pq ≤ 9007197107257855) as Hq0.
      { specialize (Hlow eq_refl).
        change (2 ^ 105) with 40564819207303340847894502572032 in Heucl.
        change (2 ^ 52) with 4503599627370496 in *.
        change (2 ^ 30) with 1073741824 in *. nia. }
      destruct Hc as [[-> Hq]|(-> & Hm3 & Hq)].
      * split; [lia|]. right. lia.
      * exfalso. change (2 ^ 53) with 9007199254740992 in Hq. lia.
    + destruct Hc as [[-> Hq]|(-> & Hm3 & Hq)].
      * split; [lia|]. left. lia.
      * split; [lia|]. destruct (Z.eq_dec e2 (-51)) as [->|]; [right|left; lia].
        rewrite Hm3. split; [lia|done].
  - assert (Zpos (digits2_pos pq) = 54) as E54 by lia.
    rewrite E54 in Hc. change (2 ^ (54 - 53)) with 2 in Hc.
    assert (Zpos pq = 2 ^ 53) as Hpq.
    { pose proof (digits2_pos_bounds pq) as [Dlo _]. rewrite E54 in Dlo.
      change (2 ^ (54 - 1)) with (2 ^ 53) in Dlo. lia. }
    rewrite Hpq in Hc. change (2 ^ 53 / 2) with (2 ^ 52) in Hc.
    assert (e2 ≠ -52) as Hne.
    { intros ->. specialize (Hlow eq_refl).
      change (2 ^ 105) with 40564819207303340847894502572032 in Heucl.
      change (2 ^ 52) with 4503599627370496 in *.
      change (2 ^ 53) with 9007199254740992 in *.
      change (2 ^ 30) with 1073741824 in *. nia. }
    destruct Hc as [[-> Hq]|(-> & Hm3 & Hq)].
    + split; [lia|]. destruct (Z.eq_dec e2 (-51)) as [->|]; [right|left; lia].
      split; [lia|]. change (2 ^ 52) with 4503599627370496 in Hq. lia.
    + exfalso. change (2 ^ 52 + 1) with 4503599627370497 in Hq.
      change (2 ^ 53) with 9007199254740992 in Hq. lia.
Qed.

End Rounding.

Lemma compare_cont_Z p q : Pos.compare_cont Eq p q = (Z.pos p ?= Z.pos q)%Z.
Proof. exact (Pos2Z.inj_compare p q). Qed.

(** A float between 2^-22 and 2^22 is a positive normal number. *)
Lemma between_pow22_SF e :
  (0x1p-22 <=? e)%float = true → (e <=? 0x1p22)%float = true →
  ∃ m ex, Prim2SF e = S754_finite false m ex
          ∧ (2 ^ 52 ≤ Zpos m < 2 ^ 53)%Z ∧ (-74 ≤ ex ≤ -30)%Z
          ∧ (ex = (-30)%Z → Zpos m = (2 ^ 52)%Z).
Proof.
  rewrite !leb_spec.
  change (Prim2SF 0x1p-22) with (S754_finite false 4503599627370496 (-74)).
  change (Prim2SF 0x1p22) with (S754_finite false 4503599627370496 (-30)).
  pose proof (Prim2SF_valid e) as Hvalid.
  destruct (Prim2SF e) as [b|b| |b m ex]; try done.
  - by destruct b.
  - destruct b; [done|]. unfold SFleb, SFcompare. intros Hlo Hhi.
    assert (-74 ≤ ex)%Z as Hex1.
    { destruct (Z.compare_spec (-74) ex); [lia|lia|done]. }
    assert (ex ≤ -30)%Z as Hex2.
    { destruct (Z.compare_spec ex (-30)); [lia|lia|done]. }
    simpl in Hvalid. apply andb_true_iff in Hvalid as [Hcanon _].
    unfold canonical_mantissa in Hcanon. apply Z.eqb_eq in Hcanon.
    pose proof (digits2_pos_bounds m) as Hd.
    assert (Zpos (digits2_pos m) = 53%Z) as Hd53.
    { unfold fexp in Hcanon. change (SpecFloat.emin prec emax) with (-1074)%Z in Hcanon.
      change prec with 53%Z in Hcanon. lia. }
    rewrite Hd53 in Hd. change (53 - 1)%Z with 52%Z in Hd.
    exists m, ex. split; [done|]. split; [done|]. split; [done|].
    intros ->. rewrite Z.compare_refl, compare_cont_Z in Hhi.
    change (2 ^ 52)%Z with 4503599627370496%Z in *.
    destruct (Z.compare_spec (Z.pos m) 4503599627370496); [done|lia|done].
Qed.

(** The sigmoid of a score whose exponential lies between 2^-22 and 2^22, as
    a binary64 number. *)
Lemma sigmoid_SF e :
  (0x1p-22 <=? e)%float = true → (e <=? 0x1p22)%float = true →
  ∃ m3 e3, Prim2SF (1 / (1 + e)) = S754_finite false m3 e3
           ∧ (2 ^ 52 ≤ Zpos m3 < 2 ^ 53)%Z ∧ (-75 ≤ e3)%Z
           ∧ (e3 < -53 ∨ (e3 = -53 ∧ Zpos m3 < 9007198354021067))%Z.
Proof.
  intros Hlo Hhi.
  destruct (between_pow22_SF e Hlo Hhi) as (m & ex & He & Hm & Hex & Htop).
  destruct (one_plus_bounds m ex Hm Hex Htop) as (m2 & e2 & Hadd & Hm2 & He2 & Hlow).
  destruct (one_over_bounds m2 e2 Hm2 He2 Hlow) as (m3 & e3 & Hdiv & Hm3 & He3 & Hup).
  exists m3, e3. split; [|done].
  rewrite div_spec, add_spec, He.
  change (Prim2SF 1) with (S754_finite false 4503599627370496 (-52)).
  by rewrite Hadd, Hdiv.
Qed.

Lemma sigmoid_between e :
  (0x1p-22 <=? e)%float = true → (e <=? 0x1p22)%float = true →
  (0x1.ad7f29abcaf48p-24 <? 1 / (1 + e))%float = true
  ∧ (1 / (1 + e) <? 0x1.fffffca501acbp-1)%float = true.
Proof.
  intros Hlo Hhi.
  destruct (sigmoid_SF e Hlo Hhi) as (m3 & e3 & Hs & Hm3 & He3 & Hup).
  rewrite !ltb_spec, Hs.
  change (Prim2SF 0x1.ad7f29abcaf48p-24) with (S754_finite false 7555786372591432 (-76)).
  change (Prim2SF 0x1.fffffca501acbp-1) with (S754_finite false 9007198354021067 (-53)).
  unfold SFltb, SFcompare. split.
  - destruct (Z.compare_spec (-76) e3); [lia|done|lia].
  - destruct Hup as [Hlt|[-> Hlt]].
    + destruct (Z.compare_spec e3 (-53)); [lia|done|lia].
    + rewrite Z.compare_refl, compare_cont_Z.
      destruct (Z.compare_spec (Z.pos m3) 9007198354021067); [lia|done|lia].
Qed.

(** It is neither 0 nor 1. *)
Lemma sigmoid_not_saturated e :
  (0x1p-22 <=? e)%float = true → (e <=? 0x1p22)%float = true →
  (1 / (1 + e) =? 0)%float = false ∧ (1 / (1 + e) =? 1)%float = false.
Proof.
  intros Hlo Hhi.
  destruct (sigmoid_SF e Hlo Hhi) as (m3 & e3 & Hs & Hm3 & He3 & Hup).
  rewrite !FloatAxioms.eqb_spec, Hs.
  change (Prim2SF 0) with (S754_zero false).
  change (Prim2SF 1) with (S754_finite false 4503599627370496 (-52)).
  unfold SFeqb, SFcompare. split; [done|].
  destruct (Z.compare_spec e3 (-52)); [lia|done|lia].
Qed.

(** * The order of binary64 *)

Lemma SFcompare_antisym a b : SFcompare b a = CompOpp <$> SFcompare a b.
Proof.
  destruct a as [sa|sa| |sa ma ea], b as [sb|sb| |sb mb eb]; simpl; try done;
    try (by destruct sa); try (by destruct sb); try (by destruct sa, sb).
  f_equal. destruct sa, sb; try done; rewrite (Z.compare_antisym ea eb);
    destruct (ea ?= eb)%Z; simpl; try done;
    rewrite (ZC4 ma mb); by destruct (Pos.compare_cont Eq mb ma).
Qed.

Lemma SFcompare_opp a b : SFcompare (SFopp a) (SFopp b) = SFcompare b a.
Proof.
  destruct a as [sa|sa| |sa ma ea], b as [sb|sb| |sb mb eb]; simpl; try done;
    try (by destruct sa); try (by destruct sb); try (by destruct sa, sb).
  f_equal. destruct sa, sb; simpl; try done; rewrite (Z.compare_antisym ea eb);
    destruct (ea ?= eb)%Z; simpl; try done;
    rewrite (ZC4 ma mb); by destruct (Pos.compare_cont Eq mb ma).
Qed.

Lemma not_nan_SF x : is_nan x = false → Prim2SF x ≠ S754_nan.
Proof.
  unfold is_nan. rewrite FloatAxioms.eqb_spec. intros H Hx. by rewrite Hx in H.
Qed.

Lemma SFcompare_Some a b :
  a ≠ S754_nan → b ≠ S754_nan → ∃ c, SFcompare a b = Some c.
Proof.
  destruct a as [sa|sa| |sa ma ea], b as [sb|sb| |sb mb eb]; simpl; intros; try done; eauto.
Qed.

(** Two numbers of which the first is not below the second: the second is at
    most the first. *)
Lemma leb_of_not_ltb x y :
  is_nan x = false → is_nan y = false → (x <? y)%float = false → (y <=? x)%float = true.
Proof.
  intros Hx%not_nan_SF Hy%not_nan_SF. rewrite ltb_spec, leb_spec.
  unfold SFltb, SFleb. rewrite (SFcompare_antisym (Prim2SF x) (Prim2SF y)).
  destruct (SFcompare_Some _ _ Hx Hy) as [c ->]. by destruct c.
Qed.

Lemma leb_opp x y : (x <=? y)%float = true → (- y <=? - x)%float = true.
Proof.
  rewrite !leb_spec, !opp_spec. unfold SFleb. by rewrite SFcompare_opp.
Qed.

(** The negation of a clipped score lies in the clipping range. *)
Lemma neg_clip_in_range z :
  is_nan z = false →
  (-15 <=? - spec_clip z)%float = true ∧ (- spec_clip z <=? 15)%float = true.
Proof.
  intros Hz. unfold spec_clip.
  destruct (15 <? z)%float eqn:H1; [by split|].
  destruct (z <? -15)%float eqn:H2; [by split|].
  split.
  - apply (leb_opp z 15). by apply leb_of_not_ltb.
  - apply (leb_opp (-15) z). by apply leb_of_not_ltb.
Qed.

Lemma sample_exp_in_range : exp_in_range Sample.exp_bounded.
Proof.
  intros x _ _. unfold Sample.exp_bounded.
  destruct (Sample.exp x <? 0x1p-22)%float eqn:H1; [by split|].
  destruct (0x1p22 <? Sample.exp x)%float eqn:H2; [by split|].
  destruct (is_nan (Sample.exp x)) eqn:H3; [by split|].
  split; by apply leb_of_not_ltb.
Qed.

(** ** C6: the sigmoid of a clipped score *)

Lemma sigmoid_clip_inside exp z :
  exp_in_range exp → is_nan z = false → strictly_inside (sigmoid1 exp (spec_clip z)).
Proof.
  intros Hexp Hz. destruct (neg_clip_in_range z Hz) as [Hlo Hhi].
  destruct (Hexp _ Hlo Hhi) as [Elo Ehi].
  unfold strictly_inside, sigmoid1.
  change interval_low with 0x1.ad7f29abcaf48p-24%float.
  change interval_high with 0x1.fffffca501acbp-1%float.
  by apply sigmoid_between.
Qed.

Lemma sigmoid_clip_not_saturated exp z :
  exp_in_range exp → is_nan z = false → not_saturated (sigmoid1 exp (spec_clip z)).
Proof.
  intros Hexp Hz. destruct (neg_clip_in_range z Hz) as [Hlo Hhi].
  destruct (Hexp _ Hlo Hhi) as [Elo Ehi].
  by apply sigmoid_not_saturated.
Qed.

(** C6. For every array [z] without NaN, infinities included, and an [np.exp]
    whose values on [-15, 15] lie between 2^-22 and 2^22, every element of
    [sigmoid(clipping(z))] is strictly above the double 1e-7 and strictly
    below the double 1 - 1e-7, in float64 arithmetic; in particular none is 0
    or 1. *)
Theorem sigmoid_of_clipped_inside_interval exp σ z zv :
  exp_in_range exp →
  points_to σ z (Vec zv) → Forall (λ x, is_nan x = false) zv →
  ∃ c σ1 h σ2 hv,
    clipping z σ = Ok (c, σ1) ∧ sigmoid exp c σ1 = Ok (h, σ2)
    ∧ points_to σ2 h (Vec hv) ∧ length hv = length zv
    ∧ Forall strictly_inside hv ∧ Forall not_saturated hv.
Proof.
  intros Hexp Hz Hnan.
  destruct (clipping_points_to _ _ _ Hz) as (σ1 & Hclip & Hc & _).
  destruct (wp_run (sigmoid exp z) σ1
              (λ h σ2, points_to σ2 h (Vec (sigmoid1 exp <$> (spec_clip <$> zv)))))
    as (h & σ2 & Hsig & Hh).
  { eapply wp_sigmoid; [exact Hc|]. by intros h σ2 _ Hh. }
  exists z, σ1, h, σ2, (sigmoid1 exp <$> (spec_clip <$> zv)).
  split; [done|]. split; [done|]. split; [done|]. split; [by rewrite !length_fmap|].
  rewrite <- list_fmap_compose.
  split; apply Forall_fmap; (eapply Forall_impl; [exact Hnan|]); intros x Hx.
  - by apply sigmoid_clip_inside.
  - by apply sigmoid_clip_not_saturated.
Qed.

Lemma sigmoid_of_clipped_inside_interval_witness :
  (points_to Sample.σz Sample.z (Vec Sample.zv)
   ∧ Forall (λ x, is_nan x = false) Sample.zv)
  ∧ ∃ c σ1 h σ2 hv,
      clipping Sample.z Sample.σz = Ok (c, σ1)
      ∧ sigmoid Sample.exp_bounded c σ1 = Ok (h, σ2)
      ∧ points_to σ2 h (Vec hv) ∧ length hv = length Sample.zv
      ∧ Forall strictly_inside hv ∧ Forall not_saturated hv.
Proof.
  split; [split; [reflexivity | repeat constructor]|].
  apply (sigmoid_of_clipped_inside_interval Sample.exp_bounded Sample.σz Sample.z Sample.zv
           sample_exp_in_range); [reflexivity | repeat constructor].
Defined.

(** * Further properties of [scripts/implementations.py] *)

(** ** [clipping] *)

Lemma spec_clip_idempotent x : spec_clip (spec_clip x) = spec_clip x.
Proof.
  unfold spec_clip. destruct (15 <? x)%float eqn:H1; [reflexivity|].
  destruct (x <? -15)%float eqn:H2; [reflexivity|]. by rewrite H1, H2.
Qed.

Lemma is_nan_true_SF x : is_nan x = true → Prim2SF x = S754_nan.
Proof.
  unfold is_nan. rewrite FloatAxioms.eqb_spec. intros H.
  destruct (Prim2SF x) as [s|s| |s m e] eqn:Hx; try done; exfalso;
    rewrite SFeqb_refl in H; done.
Qed.

Lemma spec_clip_nan x : is_nan x = true → spec_clip x = x.
Proof. intros H%is_nan_true_SF%is_nan_SF. by subst x. Qed.

Lemma spec_clip_range x :
  is_nan x = false →
  (-15 <=? spec_clip x)%float = true ∧ (spec_clip x <=? 15)%float = true.
Proof.
  intros Hx. unfold spec_clip.
  destruct (15 <? x)%float eqn:H1; [by split|].
  destruct (x <? -15)%float eqn:H2; [by split|].
  split; by apply leb_of_not_ltb.
Qed.

Lemma window_inside {A} (f : A → A) lo hi l h (xs : list A) :
  lo ≤ l → h ≤ hi →
  window l h (imap (λ i x, if in_window lo hi i then f x else x) xs) = f <$> window l h xs.
Proof.
  intros Hl Hh. apply window_imap. intros i x [H1 H2]%andb_true_iff.
  apply Nat.leb_le in H1. apply Nat.ltb_lt in H2.
  replace (in_window lo hi i) with true; [done|].
  symmetry. apply andb_true_iff. split; [apply Nat.leb_le | apply Nat.ltb_lt]; lia.
Qed.

Lemma window_outside {A} (f : A → A) lo hi l h (xs : list A) :
  h ≤ lo ∨ hi ≤ l →
  window l h (imap (λ i x, if in_window lo hi i then f x else x) xs) = window l h xs.
Proof.
  intros Hd. rewrite (window_imap _ id); [by rewrite list_fmap_id|].
  intros i x [H1 H2]%andb_true_iff.
  apply Nat.leb_le in H1. apply Nat.ltb_lt in H2.
  replace (in_window lo hi i) with false; [done|].
  symmetry. apply andb_false_iff.
  destruct Hd; [left; apply Nat.leb_gt | right; apply Nat.ltb_ge]; lia.
Qed.

(** X1. clipping twice is clipping once: a second call stores nothing new. *)
Theorem clipping_idempotent σ z a :
  points_to σ z a →
  ∃ σ1, clipping z σ = Ok (z, σ1) ∧ clipping z σ1 = Ok (z, σ1).
Proof.
  intros (b & Hb & ->)%points_to_lookup.
  eexists. split; [by apply clipping_run|].
  erewrite clipping_run; [|simpl; apply list_lookup_insert_eq; by eapply lookup_lt_Some].
  simpl. do 2 f_equal. f_equal.
  rewrite list_insert_insert_eq, nd_map_rows_compose. f_equal.
  apply nd_map_rows_ext. intros x. apply spec_clip_idempotent.
Qed.

Lemma clipping_idempotent_witness :
  points_to Sample.σz Sample.z_tail (Vec [-20; 3; 15.5]%float)
  ∧ ∃ σ1, clipping Sample.z_tail Sample.σz = Ok (Sample.z_tail, σ1)
          ∧ clipping Sample.z_tail σ1 = Ok (Sample.z_tail, σ1).
Proof.
  split; [reflexivity|].
  apply (clipping_idempotent Sample.σz Sample.z_tail (Vec [-20; 3; 15.5]%float)).
  reflexivity.
Defined.

(** X2. after [clipping] every element that is a number lies in [-15, 15]
    (infinities included); a NaN stays a NaN, in its place. *)
Theorem clipping_bounds_numbers σ z a :
  points_to σ z a →
  ∃ σ' a',
    clipping z σ = Ok (z, σ') ∧ points_to σ' z a'
    ∧ length (nd_flat a') = length (nd_flat a)
    ∧ ∀ i x x', nd_flat a !! i = Some x → nd_flat a' !! i = Some x' →
        if is_nan x then is_nan x' = true
        else (-15 <=? x')%float = true ∧ (x' <=? 15)%float = true.
Proof.
  intros Hz. destruct (clipping_points_to _ _ _ Hz) as (σ' & Hrun & Hz' & _).
  exists σ', (nd_map spec_clip a). split; [done|]. split; [done|].
  rewrite nd_flat_map. split; [by rewrite length_fmap|].
  intros i x x' Hx. rewrite list_lookup_fmap, Hx. intros [= <-].
  destruct (is_nan x) eqn:Hnan.
  - by rewrite spec_clip_nan.
  - by apply spec_clip_range.
Qed.

Lemma clipping_bounds_numbers_witness :
  points_to Sample.σz Sample.z (Vec Sample.zv)
  ∧ ∃ σ' a',
      clipping Sample.z Sample.σz = Ok (Sample.z, σ') ∧ points_to σ' Sample.z a'
      ∧ length (nd_flat a') = 4
      ∧ ∀ i x x', Sample.zv !! i = Some x → nd_flat a' !! i = Some x' →
          if is_nan x then is_nan x' = true
          else (-15 <=? x')%float = true ∧ (x' <=? 15)%float = true.
Proof.
  split; [reflexivity|].
  apply (clipping_bounds_numbers Sample.σz Sample.z (Vec Sample.zv)). reflexivity.
Defined.

(** X3. clipping a slice writes through to the array it was cut from: any view
    of that array lying inside the slice sees the clipped values, and any view
    lying outside the slice sees what it saw before. *)
Theorem clipping_writes_through_views σ z a :
  points_to σ z a →
  ∃ σ',
    clipping z σ = Ok (z, σ')
    ∧ (∀ r ar, buf r = buf z → lo z ≤ lo r → hi r ≤ hi z →
         points_to σ r ar → points_to σ' r (nd_map spec_clip ar))
    ∧ (∀ r ar, buf r = buf z → hi r ≤ lo z ∨ hi z ≤ lo r →
         points_to σ r ar → points_to σ' r ar).
Proof.
  intros (b & Hb & ->)%points_to_lookup.
  eexists. split; [by apply clipping_run|].
  assert (buf z < length (heap σ)) as Hlt by by eapply lookup_lt_Some.
  split.
  - intros r ar Hbuf Hlo Hhi (b' & Hb' & ->)%points_to_lookup.
    rewrite Hbuf, Hb in Hb'. injection Hb' as <-.
    apply points_to_lookup. eexists. simpl. rewrite Hbuf.
    split; [by apply list_lookup_insert_eq|].
    destruct b as [v|c rows]; simpl; f_equal; symmetry; by apply window_inside.
  - intros r ar Hbuf Hd (b' & Hb' & ->)%points_to_lookup.
    rewrite Hbuf, Hb in Hb'. injection Hb' as <-.
    apply points_to_lookup. eexists. simpl. rewrite Hbuf.
    split; [by apply list_lookup_insert_eq|].
    destruct b as [v|c rows]; simpl; f_equal; symmetry.
    + by apply (window_outside spec_clip).
    + by apply (window_outside (fmap spec_clip)).
Qed.

Lemma clipping_writes_through_views_witness :
  points_to Sample.σz Sample.z_tail (Vec [-20; 3; 15.5]%float)
  ∧ ∃ σ',
      clipping Sample.z_tail Sample.σz = Ok (Sample.z_tail, σ')
      ∧ (∀ r ar, buf r = 0 → 1 ≤ lo r → hi r ≤ 4 →
           points_to Sample.σz r ar → points_to σ' r (nd_map spec_clip ar))
      ∧ (∀ r ar, buf r = 0 → hi r ≤ 1 ∨ 4 ≤ lo r →
           points_to Sample.σz r ar → points_to σ' r ar).
Proof.
  split; [reflexivity|].
  apply (clipping_writes_through_views Sample.σz Sample.z_tail (Vec [-20; 3; 15.5]%float)).
  reflexivity.
Defined.

(** ** Runs that end with an exception *)

Lemma bind_run {A B} (m : M A) (k : A → M B) σ a σ' :
  m σ = Ok (a, σ') → (m ≫= k) σ = k a σ'.
Proof. unfold mbind, M_bind. by intros ->. Qed.

Lemma bind_Raise {A B} (m : M A) (k : A → M B) σ e :
  m σ = Raise e → (m ≫= k) σ = Raise e.
Proof. unfold mbind, M_bind. by intros ->. Qed.

Lemma bind_lift {A B} (r : result A) (k : A → M B) σ :
  (lift r ≫= k) σ = match r with Ok a => k a σ | Raise e => Raise e end.
Proof. by destruct r. Qed.

Lemma matmul_mismatch σ tx w c rows wv :
  points_to σ tx (Mat c rows) → points_to σ w (Vec wv) → c ≠ length wv →
  matmul tx w σ = Raise ValueError.
Proof.
  intros Htx Hw Hc. unfold matmul.
  rewrite (bind_run _ _ _ _ _ (read_mat_run _ _ _ _ Htx)).
  rewrite (bind_run _ _ _ _ _ (read_vec_run _ _ _ Hw)).
  unfold matvec. by rewrite decide_False.
Qed.

(** X4. when the number of columns of [tx] differs from the length of [w],
    the loss, the gradient and their regularized variants raise ValueError,
    whatever [y] is. *)
Theorem mismatched_weights_raise exp ln σ y tx w c rows wv lambda_ :
  points_to σ tx (Mat c rows) → points_to σ w (Vec wv) → c ≠ length wv →
  cross_entropy_loss exp ln y tx w σ = Raise ValueError
  ∧ cross_entropy_gradient exp y tx w σ = Raise ValueError
  ∧ regularized_cross_entropy_loss exp ln y tx w lambda_ σ = Raise ValueError
  ∧ regularized_cross_entropy_gradient exp y tx w lambda_ σ = Raise ValueError.
Proof.
  intros Htx Hw Hc. pose proof (matmul_mismatch _ _ _ _ _ _ Htx Hw Hc) as Hz.
  assert (cross_entropy_loss exp ln y tx w σ = Raise ValueError) as Hl.
  { unfold cross_entropy_loss. by apply bind_Raise. }
  assert (cross_entropy_gradient exp y tx w σ = Raise ValueError) as Hg.
  { unfold cross_entropy_gradient. by apply bind_Raise. }
  split; [done|]. split; [done|]. split.
  - unfold regularized_cross_entropy_loss. by apply bind_Raise.
  - unfold regularized_cross_entropy_gradient. by apply bind_Raise.
Qed.

Lemma mismatched_weights_raise_witness :
  (points_to Sample.σ0 Sample.tx (Mat 2 Sample.rows)
   ∧ points_to Sample.σ0 Sample.y (Vec Sample.yv) ∧ 2 ≠ length Sample.yv)
  ∧ cross_entropy_loss Sample.exp Sample.ln Sample.y Sample.tx Sample.y Sample.σ0 = Raise ValueError
  ∧ cross_entropy_gradient Sample.exp Sample.y Sample.tx Sample.y Sample.σ0 = Raise ValueError
  ∧ regularized_cross_entropy_loss Sample.exp Sample.ln Sample.y Sample.tx Sample.y 0.5 Sample.σ0
    = Raise ValueError
  ∧ regularized_cross_entropy_gradient Sample.exp Sample.y Sample.tx Sample.y 0.5 Sample.σ0
    = Raise ValueError.
Proof.
  split; [split; [reflexivity | split; [reflexivity | simpl; lia]]|].
  apply (mismatched_weights_raise Sample.exp Sample.ln Sample.σ0 Sample.y Sample.tx Sample.y 2 Sample.rows
           Sample.yv 0.5); [reflexivity | reflexivity | simpl; lia].
Defined.

Lemma cross_entropy_mismatch ln yv hv :
  length yv ≠ length hv → cross_entropy ln yv hv = Raise ValueError.
Proof.
  intros H. unfold cross_entropy, vdot. rewrite decide_False; [done|].
  by rewrite !length_fmap.
Qed.

Lemma matmul_run σ tx w c rows wv :
  points_to σ tx (Mat c rows) → points_to σ w (Vec wv) → c = length wv →
  ∃ z σ', matmul tx w σ = Ok (z, σ') ∧ after σ 0 σ'
          ∧ points_to σ' z (Vec (scores rows wv)) ∧ length (heap σ) ≤ buf z.
Proof.
  intros Htx Hw Hc.
  destruct (wp_run (matmul tx w) σ
              (λ z σ', after σ 0 σ' ∧ points_to σ' z (Vec (scores rows wv))
                       ∧ length (heap σ) ≤ buf z)) as (z & σ' & Hrun & H); [|by eauto].
  by apply (wp_matmul _ _ _ c rows wv).
Qed.

Lemma sigmoid_run exp σ z zv :
  points_to σ z (Vec zv) →
  ∃ h σ', sigmoid exp z σ = Ok (h, σ') ∧ after σ 0 σ'
          ∧ points_to σ' h (Vec (sigmoid1 exp <$> zv)).
Proof.
  intros Hz.
  destruct (wp_run (sigmoid exp z) σ
              (λ h σ', after σ 0 σ' ∧ points_to σ' h (Vec (sigmoid1 exp <$> zv))))
    as (h & σ' & Hrun & H); [|by eauto].
  by eapply wp_sigmoid.
Qed.

Lemma clipping_fresh_run σ σ1 z a :
  after σ 0 σ1 → length (heap σ) ≤ buf z → points_to σ1 z a →
  ∃ σ2, clipping z σ1 = Ok (z, σ2) ∧ after σ 0 σ2 ∧ points_to σ2 z (nd_map spec_clip a).
Proof.
  intros A Hfresh Hz.
  destruct (wp_run (clipping z) σ1
              (λ r σ2, r = z ∧ after σ 0 σ2 ∧ points_to σ2 z (nd_map spec_clip a)))
    as (r & σ2 & Hrun & -> & H); [|by eauto].
  by apply (wp_clipping_fresh σ σ1 z a).
Qed.

(** X5. with a number of labels that differs from the number of rows of [tx]
    the loss raises ValueError.  The gradient raises it too, unless there is
    exactly one label: that label is then broadcast over all the rows, and
    the gradient returns [tx.T @ (sigmoid(tx @ w) - y[0])]. *)
Theorem mismatched_labels exp ln σ y tx w yv c rows wv :
  points_to σ y (Vec yv) → points_to σ tx (Mat c rows) → points_to σ w (Vec wv) →
  c = length wv → length yv ≠ length rows →
  cross_entropy_loss exp ln y tx w σ = Raise ValueError
  ∧ match yv with
    | [y0] =>
        ∃ g σ', cross_entropy_gradient exp y tx w σ = Ok (g, σ')
                ∧ points_to σ' g
                    (Vec (transposed_product c rows
                            ((λ h, h - y0)%float <$> (sigmoid1 exp <$> scores rows wv))))
    | _ => cross_entropy_gradient exp y tx w σ = Raise ValueError
    end.
Proof.
  intros Hy Htx Hw Hc Hn.
  destruct (matmul_run _ _ _ _ _ _ Htx Hw Hc) as (z & σ1 & Hmul & A1 & Hz & Hfresh).
  split.
  - destruct (clipping_fresh_run _ _ _ _ A1 Hfresh Hz) as (σ2 & Hclip & A2 & Hz2).
    destruct (sigmoid_run exp _ _ _ Hz2) as (h & σ3 & Hsig & A3 & Hh).
    assert (points_to σ3 y (Vec yv)) as Hy3 by eauto.
    unfold cross_entropy_loss.
    rewrite (bind_run _ _ _ _ _ Hmul), (bind_run _ _ _ _ _ Hclip), (bind_run _ _ _ _ _ Hsig).
    rewrite (bind_run _ _ _ _ _ (read_vec_run _ _ _ Hy3)).
    rewrite (bind_run _ _ _ _ _ (read_vec_run _ _ _ Hh)).
    unfold lift. rewrite cross_entropy_mismatch; [done|].
    by rewrite !length_fmap, length_scores.
  - destruct (sigmoid_run exp _ _ _ Hz) as (h & σ2 & Hsig & A2 & Hh).
    assert (points_to σ2 y (Vec yv)) as Hy2 by eauto.
    assert (points_to σ2 tx (Mat c rows)) as Htx2 by eauto.
    assert (length (sigmoid1 exp <$> scores rows wv) = length rows) as Hlen
      by by rewrite length_fmap, length_scores.
    assert (cross_entropy_gradient exp y tx w σ
            = match broadcast2 PrimFloat.sub (sigmoid1 exp <$> scores rows wv) yv with
              | Ok d => match matTvec c rows d with
                        | Ok g => alloc (Vec g) σ2
                        | Raise e => Raise e
                        end
              | Raise e => Raise e
              end) as ->.
    { unfold cross_entropy_gradient.
      rewrite (bind_run _ _ _ _ _ Hmul), (bind_run _ _ _ _ _ Hsig).
      rewrite (bind_run _ _ _ _ _ (read_vec_run _ _ _ Hh)).
      rewrite (bind_run _ _ _ _ _ (read_vec_run _ _ _ Hy2)).
      rewrite bind_lift. destruct (broadcast2 _ _ _) as [d|e]; [|done].
      rewrite (bind_run _ _ _ _ _ (read_mat_run _ _ _ _ Htx2)).
      by rewrite bind_lift. }
    set (hv := sigmoid1 exp <$> scores rows wv) in *.
    assert (∀ d, length rows ≠ length d → matTvec c rows d = Raise ValueError) as HT.
    { intros d Hd. unfold matTvec. by rewrite decide_False. }
    destruct yv as [|y0 [|y1 yv]].
    + unfold broadcast2. rewrite decide_False by (simpl in *; lia).
      destruct hv as [|h0 [|h1 hv]]; simpl in Hn, Hlen; [lia| |done].
      rewrite HT; [done | simpl; lia].
    + assert (broadcast2 PrimFloat.sub hv [y0] = Ok ((λ h, h - y0)%float <$> hv)) as ->.
      { unfold broadcast2. rewrite decide_False by (simpl in *; lia).
        by destruct hv as [|h0 [|h1 hv]]. }
      unfold matTvec. rewrite decide_True by (by rewrite length_fmap).
      destruct (wp_run (alloc (Vec ((λ j, dot (column j rows) ((λ h, h - y0)%float <$> hv))
                                      <$> seq 0 c))) σ2
                  (λ g σ', points_to σ' g
                     (Vec (transposed_product c rows ((λ h, h - y0)%float <$> hv)))))
        as (g & σ' & Hrun & Hg); [|by eauto].
      apply wp_alloc. by intros r σ' _ Hr _.
    + unfold broadcast2. rewrite decide_False by (simpl in *; lia).
      destruct hv as [|h0 [|h1 hv]]; simpl in Hn, Hlen; [done| |done].
      rewrite HT; [done | simpl; lia].
Qed.

Lemma mismatched_labels_witness :
  (points_to Sample.σ0 Sample.y1 (Vec [1]%float)
   ∧ points_to Sample.σ0 Sample.tx (Mat 2 Sample.rows)
   ∧ points_to Sample.σ0 Sample.w (Vec Sample.wv))
  ∧ cross_entropy_loss Sample.exp Sample.ln Sample.y1 Sample.tx Sample.w Sample.σ0
    = Raise ValueError
  ∧ ∃ g σ', cross_entropy_gradient Sample.exp Sample.y1 Sample.tx Sample.w Sample.σ0
            = Ok (g, σ')
            ∧ points_to σ' g
                (Vec (transposed_product 2 Sample.rows
                        ((λ h, h - 1)%float
                           <$> (sigmoid1 Sample.exp <$> scores Sample.rows Sample.wv)))).
Proof.
  split; [repeat split|].
  apply (mismatched_labels Sample.exp Sample.ln Sample.σ0 Sample.y1 Sample.tx Sample.w
           [1]%float 2 Sample.rows Sample.wv); try reflexivity.
  simpl. lia.
Defined.

(** ** The loss and the gradient as functions of their arguments *)

(** X6. the loss and the gradient, plain or regularized, return without
    changing any array of the store they are called in (the clipping inside
    the loss stores into the scores the loss has just computed) and without
    drawing from the random generator; a gradient is an array made by the
    call. *)
Theorem loss_and_gradient_leave_the_store exp ln σ y tx w yv c rows wv lambda_ :
  points_to σ y (Vec yv) → points_to σ tx (Mat c rows) → points_to σ w (Vec wv) →
  c = length wv → length yv = length rows →
  ∃ l σ1 g σ2 rl σ3 rg σ4,
    cross_entropy_loss exp ln y tx w σ = Ok (l, σ1)
    ∧ cross_entropy_gradient exp y tx w σ = Ok (g, σ2)
    ∧ regularized_cross_entropy_loss exp ln y tx w lambda_ σ = Ok (rl, σ3)
    ∧ regularized_cross_entropy_gradient exp y tx w lambda_ σ = Ok (rg, σ4)
    ∧ Forall (λ σ', (∀ r a, points_to σ r a → points_to σ' r a) ∧ draws σ' = draws σ)
             [σ1; σ2; σ3; σ4]
    ∧ length (heap σ) ≤ buf g ∧ length (heap σ) ≤ buf rg.
Proof.
  intros Hy Htx Hw Hc Hn.
  destruct (wp_run (cross_entropy_loss exp ln y tx w) σ (λ _ σ', after σ 0 σ'))
    as (l & σ1 & H1 & [E1 D1]).
  { by eapply wp_cross_entropy_loss. }
  destruct (wp_run (cross_entropy_gradient exp y tx w) σ
              (λ g σ', after σ 0 σ' ∧ length (heap σ) ≤ buf g))
    as (g & σ2 & H2 & [E2 D2] & F2).
  { by eapply wp_cross_entropy_gradient. }
  destruct (wp_run (regularized_cross_entropy_loss exp ln y tx w lambda_) σ
              (λ _ σ', after σ 0 σ'))
    as (rl & σ3 & H3 & [E3 D3]).
  { by eapply wp_regularized_cross_entropy_loss. }
  destruct (wp_run (regularized_cross_entropy_gradient exp y tx w lambda_) σ
              (λ g σ', after σ 0 σ' ∧ length (heap σ) ≤ buf g))
    as (rg & σ4 & H4 & [E4 D4] & F4).
  { by eapply wp_regularized_cross_entropy_gradient. }
  exists l, σ1, g, σ2, rl, σ3, rg, σ4.
  repeat (split; [done|]). split; [|done].
  repeat constructor; eauto; lia.
Qed.

Lemma loss_and_gradient_leave_the_store_witness :
  (points_to Sample.σ0 Sample.y (Vec Sample.yv)
   ∧ points_to Sample.σ0 Sample.tx (Mat 2 Sample.rows)
   ∧ points_to Sample.σ0 Sample.w (Vec Sample.wv))
  ∧ ∃ l σ1 g σ2 rl σ3 rg σ4,
      cross_entropy_loss Sample.exp Sample.ln Sample.y Sample.tx Sample.w Sample.σ0
        = Ok (l, σ1)
      ∧ cross_entropy_gradient Sample.exp Sample.y Sample.tx Sample.w Sample.σ0 = Ok (g, σ2)
      ∧ regularized_cross_entropy_loss Sample.exp Sample.ln Sample.y Sample.tx Sample.w 0.5
          Sample.σ0 = Ok (rl, σ3)
      ∧ regularized_cross_entropy_gradient Sample.exp Sample.y Sample.tx Sample.w 0.5
          Sample.σ0 = Ok (rg, σ4)
      ∧ Forall (λ σ', (∀ r a, points_to Sample.σ0 r a → points_to σ' r a)
                      ∧ draws σ' = draws Sample.σ0)
               [σ1; σ2; σ3; σ4]
      ∧ length (heap Sample.σ0) ≤ buf g ∧ length (heap Sample.σ0) ≤ buf rg.
Proof.
  split; [repeat split|].
  apply (loss_and_gradient_leave_the_store Sample.exp Sample.ln Sample.σ0 Sample.y Sample.tx
           Sample.w Sample.yv 2 Sample.rows Sample.wv 0.5); reflexivity.
Defined.



(** X8. on a dataset without rows the loss is 0 and the gradient is the zero
    vector of the length of [w], for any weights. *)
Theorem empty_dataset_loss_and_gradient exp ln σ y tx w wv :
  points_to σ y (Vec []) → points_to σ tx (Mat (length wv) []) → points_to σ w (Vec wv) →
  ∃ σ1 g σ2,
    cross_entropy_loss exp ln y tx w σ = Ok (0%float, σ1)
    ∧ cross_entropy_gradient exp y tx w σ = Ok (g, σ2)
    ∧ points_to σ2 g (Vec (replicate (length wv) 0%float)).
Proof.
  intros Hy Htx Hw.
  destruct (wp_run (cross_entropy_loss exp ln y tx w) σ
              (λ l _, l = spec_loss exp ln [] [] wv))
    as (l & σ1 & H1 & ->).
  { by eapply wp_cross_entropy_loss. }
  destruct (wp_run (cross_entropy_gradient exp y tx w) σ
              (λ g σ', points_to σ' g (Vec (spec_gradient exp [] (length wv) [] wv))))
    as (g & σ2 & H2 & Hg).
  { by eapply wp_cross_entropy_gradient. }
  exists σ1, g, σ2. split; [exact H1|]. split; [exact H2|].
  replace (replicate (length wv) 0%float) with (spec_gradient exp [] (length wv) [] wv);
    [done|].
  unfold spec_gradient, transposed_product. simpl.
  assert (∀ n k, (λ _ : nat, dot [] []) <$> seq k n = replicate n 0%float) as Hzero.
  { induction n as [|n IH]; intros k; simpl; [done|]. by rewrite IH. }
  apply Hzero.
Qed.

Lemma empty_dataset_loss_and_gradient_witness :
  (points_to Corner.σ_empty Corner.y (Vec [])
   ∧ points_to Corner.σ_empty Corner.tx (Mat (length Corner.wv) [])
   ∧ points_to Corner.σ_empty Corner.w (Vec Corner.wv))
  ∧ ∃ σ1 g σ2,
      cross_entropy_loss Sample.exp Sample.ln Corner.y Corner.tx Corner.w Corner.σ_empty
        = Ok (0%float, σ1)
      ∧ cross_entropy_gradient Sample.exp Corner.y Corner.tx Corner.w Corner.σ_empty
        = Ok (g, σ2)
      ∧ points_to σ2 g (Vec [0; 0]%float).
Proof.
  split; [repeat split|].
  apply (empty_dataset_loss_and_gradient Sample.exp Sample.ln Corner.σ_empty Corner.y
           Corner.tx Corner.w Corner.wv); reflexivity.
Defined.

(** ** The sampler *)

Lemma points_to_heap σ σ' r a : heap σ' = heap σ → points_to σ r a → points_to σ' r a.
Proof.
  intros Hh (b & Hb & ->)%points_to_lookup. apply points_to_lookup.
  exists b. by rewrite Hh.
Qed.

Lemma take_rows_run σ r a idx :
  points_to σ r a → Forall (λ i, i < nd_rows a) idx →
  take_rows r idx σ
  = Ok ({| buf := length (heap σ); lo := 0; hi := nd_rows (nd_permute a idx) |},
        {| heap := heap σ ++ [nd_permute a idx]; draws := draws σ |}).
Proof.
  intros Hr Hidx. unfold take_rows.
  rewrite (bind_run _ _ _ _ _ Hr), bind_lift, nd_select_permute by done. done.
Qed.

Lemma take_rows_out_of_range σ r a idx :
  points_to σ r a → Exists (λ i, nd_rows a ≤ i) idx →
  take_rows r idx σ = Raise IndexError.
Proof.
  intros Hr Hidx. unfold take_rows. rewrite (bind_run _ _ _ _ _ Hr), bind_lift.
  assert (∀ A (xs : list A), Exists (λ i, length xs ≤ i) idx →
            select xs idx = Raise IndexError) as Hsel.
  { intros A xs Hex. unfold select. rewrite (mapM_None_2 (λ i, xs !! i)); [done|].
    eapply Exists_impl; [exact Hex|]. intros i Hi. by apply lookup_ge_None. }
  destruct a as [v|c rows]; simpl in *; by rewrite Hsel.
Qed.

Lemma points_to_fresh σ a :
  points_to {| heap := heap σ ++ [a]; draws := draws σ |}
            {| buf := length (heap σ); lo := 0; hi := nd_rows a |} a.
Proof.
  apply points_to_lookup. exists a. simpl. split.
  - by rewrite lookup_app_r, Nat.sub_diag by lia.
  - by rewrite nd_window_all.
Qed.

(** The run of the shuffling sampler: one draw, the shuffled labels in the
    first new buffer, the shuffled features in the second, and handles on
    slices of these two. *)
Lemma batch_iter_shuffled_run permutation σ y tx ya txa batch_size num_batches :
  points_to σ y ya → points_to σ tx txa →
  Forall (λ i, i < nd_rows ya) (permutation (draws σ) (nd_rows ya)) →
  Forall (λ i, i < nd_rows txa) (permutation (draws σ) (nd_rows ya)) →
  ∃ sy stx σ',
    batch_iter permutation y tx batch_size num_batches true σ
    = Ok (batch_handles sy stx (nd_rows (nd_permute ya (permutation (draws σ) (nd_rows ya))))
            (nd_rows (nd_permute txa (permutation (draws σ) (nd_rows ya))))
            batch_size (nd_rows ya) (emitted batch_size (nd_rows ya) num_batches), σ')
    ∧ buf sy = length (heap σ) ∧ buf stx = S (length (heap σ))
    ∧ lo sy = 0 ∧ lo stx = 0
    ∧ length (heap σ') = length (heap σ) + 2
    ∧ after σ 1 σ'
    ∧ points_to σ' sy (nd_permute ya (permutation (draws σ) (nd_rows ya)))
    ∧ points_to σ' stx (nd_permute txa (permutation (draws σ) (nd_rows ya))).
Proof.
  intros Hy Htx Hiy Hitx.
  set (idx := permutation (draws σ) (nd_rows ya)) in *.
  set (σ1 := {| heap := heap σ; draws := S (draws σ) |}).
  set (σ2 := {| heap := heap σ1 ++ [nd_permute ya idx]; draws := draws σ1 |}).
  set (σ3 := {| heap := heap σ2 ++ [nd_permute txa idx]; draws := draws σ2 |}).
  set (sy := {| buf := length (heap σ1); lo := 0; hi := nd_rows (nd_permute ya idx) |}).
  set (stx := {| buf := length (heap σ2); lo := 0; hi := nd_rows (nd_permute txa idx) |}).
  assert (points_to σ1 y ya) as Hy1 by by apply (points_to_heap σ).
  assert (points_to σ1 tx txa) as Htx1 by by apply (points_to_heap σ).
  assert (extends σ1 σ2) as E12 by by eexists.
  assert (extends σ2 σ3) as E23 by by eexists.
  assert (points_to σ2 sy (nd_permute ya idx)) as Hsy by apply points_to_fresh.
  assert (points_to σ3 stx (nd_permute txa idx)) as Hstx by apply points_to_fresh.
  exists sy, stx, σ3. split.
  - unfold batch_iter. rewrite (bind_run _ _ _ _ _ (len_run _ _ _ Hy)).
    assert ((shuffle_indices ← draw_permutation permutation (nd_rows ya);
             shuffled_y ← take_rows y shuffle_indices;
             shuffled_tx ← take_rows tx shuffle_indices;
             mret (shuffled_y, shuffled_tx)) σ = Ok ((sy, stx), σ3)) as Hpre.
    { erewrite bind_run; [|reflexivity]. fold idx. fold σ1.
      rewrite (bind_run _ _ _ _ _ (take_rows_run _ _ _ _ Hy1 Hiy)). fold σ2.
      erewrite bind_run; [done|].
      apply take_rows_run; [by eapply points_to_extends|done]. }
    rewrite (bind_run _ _ _ _ _ Hpre).
    apply (batch_loop_run σ3 sy stx (nd_permute ya idx) (nd_permute txa idx));
      [by eapply points_to_extends|done].
  - simpl. rewrite !length_app. simpl.
    repeat split; try done; try lia.
    + exists [nd_permute ya idx; nd_permute txa idx]. simpl. by rewrite <- app_assoc.
    + simpl. lia.
    + by eapply points_to_extends.
Qed.

(** X9. without shuffling the batches are views on the arrays [y] and [tx]
    themselves, inside their rows, and nothing is added to the store; with
    shuffling, two arrays are added to the store, and the batches are views on
    these: every label batch on the first, every feature batch on the
    second. *)
Theorem sampler_views_and_copies permutation σ y tx ya txa batch_size num_batches :
  (∀ k n, permutation k n ≡ₚ seq 0 n) →
  points_to σ y ya → points_to σ tx txa → nd_rows ya ≤ nd_rows txa →
  (∃ batches,
     batch_iter permutation y tx batch_size num_batches false σ = Ok (batches, σ)
     ∧ Forall (λ '(minibatch_y, minibatch_tx),
                 buf minibatch_y = buf y ∧ buf minibatch_tx = buf tx
                 ∧ lo y ≤ lo minibatch_y ∧ hi minibatch_y ≤ lo y + nd_rows ya
                 ∧ lo tx ≤ lo minibatch_tx ∧ hi minibatch_tx ≤ lo tx + nd_rows txa)
              batches)
  ∧ (∃ batches σ',
       batch_iter permutation y tx batch_size num_batches true σ = Ok (batches, σ')
       ∧ length (heap σ') = length (heap σ) + 2
       ∧ Forall (λ '(minibatch_y, minibatch_tx),
                   buf minibatch_y = length (heap σ)
                   ∧ buf minibatch_tx = S (length (heap σ)))
                batches).
Proof.
  intros Hperm Hy Htx Hrows.
  assert (∀ r n s e, lo r ≤ lo (py_slice r n s e) ∧ hi (py_slice r n s e) ≤ lo r + n) as Hin.
  { intros r n s e. unfold py_slice. simpl.
    pose proof (clamp_index_range (Z.of_nat n) s). pose proof (clamp_index_range (Z.of_nat n) e).
    lia. }
  split.
  - eexists. split; [by apply (batch_iter_ordered_run _ _ _ _ ya txa)|].
    unfold batch_handles. apply Forall_fmap, Forall_forall. intros b _.
    destruct (Hin y (nd_rows ya) (batch_start batch_size b)
                (batch_end batch_size (nd_rows ya) b)) as [Hy1 Hy2].
    destruct (Hin tx (nd_rows txa) (batch_start batch_size b)
                (batch_end batch_size (nd_rows ya) b)) as [Ht1 Ht2].
    cbv beta. repeat split; done.
  - pose proof (Permutation_seq_bound _ _ (Hperm (draws σ) (nd_rows ya))) as Hb.
    destruct (batch_iter_shuffled_run permutation σ y tx ya txa batch_size num_batches)
      as (sy & stx & σ' & Hrun & Hsy & Hstx & _ & _ & Hlen & _); [done..| |].
    { eapply Forall_impl; [exact Hb|]. simpl. lia. }
    eexists _, σ'. split; [exact Hrun|]. split; [done|].
    unfold batch_handles. apply Forall_fmap, Forall_forall. by intros b _.
Qed.

Lemma sampler_views_and_copies_witness :
  (points_to Sample.σ0 Sample.y (Vec Sample.yv)
   ∧ points_to Sample.σ0 Sample.tx (Mat 2 Sample.rows))
  ∧ ∃ batches σ',
      batch_iter Sample.permutation Sample.y Sample.tx 2 3 true Sample.σ0 = Ok (batches, σ')
      ∧ length (heap σ') = 5
      ∧ Forall (λ '(minibatch_y, minibatch_tx), buf minibatch_y = 3 ∧ buf minibatch_tx = 4)
               batches.
Proof.
  split; [split; reflexivity|].
  apply (sampler_views_and_copies Sample.permutation Sample.σ0 Sample.y Sample.tx
           (Vec Sample.yv) (Mat 2 Sample.rows) 2 3 sample_permutation_seq);
    [reflexivity | reflexivity | simpl; lia].
Defined.

(** X10. when [tx] has fewer rows than [y], the shuffling sampler raises
    IndexError (the permutation of the rows of [y] indexes [tx] out of
    range); the sampler that does not shuffle returns. *)
Theorem sampler_short_features permutation σ y tx ya txa batch_size num_batches :
  (∀ k n, permutation k n ≡ₚ seq 0 n) →
  points_to σ y ya → points_to σ tx txa → nd_rows txa < nd_rows ya →
  batch_iter permutation y tx batch_size num_batches true σ = Raise IndexError
  ∧ ∃ batches, batch_iter permutation y tx batch_size num_batches false σ = Ok (batches, σ).
Proof.
  intros Hperm Hy Htx Hrows. split.
  - pose proof (Permutation_seq_bound _ _ (Hperm (draws σ) (nd_rows ya))) as Hb.
    set (idx := permutation (draws σ) (nd_rows ya)) in *.
    set (σ1 := {| heap := heap σ; draws := S (draws σ) |}).
    assert (points_to σ1 y ya) as Hy1 by by apply (points_to_heap σ).
    unfold batch_iter. rewrite (bind_run _ _ _ _ _ (len_run _ _ _ Hy)).
    apply bind_Raise.
    erewrite bind_run; [|reflexivity]. fold idx. fold σ1.
    rewrite (bind_run _ _ _ _ _ (take_rows_run _ _ _ _ Hy1 Hb)).
    apply bind_Raise. apply (take_rows_out_of_range _ _ txa).
    + apply (points_to_extends σ1); [by eexists|]. by apply (points_to_heap σ).
    + apply Exists_exists. exists (nd_rows txa). split; [|done].
      unfold idx. rewrite (Hperm (draws σ) (nd_rows ya)). apply elem_of_seq. lia.
  - eexists. by apply (batch_iter_ordered_run _ _ _ _ ya txa).
Qed.

Lemma sampler_short_features_witness :
  (points_to Sample.σ0 Sample.y (Vec Sample.yv)
   ∧ points_to Sample.σ0 Sample.w (Vec Sample.wv))
  ∧ batch_iter Sample.permutation Sample.y Sample.w 2 1 true Sample.σ0 = Raise IndexError
  ∧ ∃ batches,
      batch_iter Sample.permutation Sample.y Sample.w 2 1 false Sample.σ0
        = Ok (batches, Sample.σ0).
Proof.
  split; [split; reflexivity|].
  apply (sampler_short_features Sample.permutation Sample.σ0 Sample.y Sample.w
           (Vec Sample.yv) (Vec Sample.wv) 2 1 sample_permutation_seq);
    [reflexivity | reflexivity | simpl; lia].
Defined.

(** ** The batches of a positive batch size *)

Lemma range_snoc (k : nat) : range (Z.of_nat (S k)) = range (Z.of_nat k) ++ [Z.of_nat k].
Proof. unfold range. by rewrite !Nat2Z.id, seq_S, fmap_app. Qed.

Lemma range_nonneg n b : b ∈ range n → (0 ≤ b)%Z.
Proof. unfold range. intros (i & -> & _)%list_elem_of_fmap. lia. Qed.

Lemma range_to_nat n : range n = range (Z.of_nat (Z.to_nat n)).
Proof. unfold range. by rewrite Nat2Z.id. Qed.

(** With a positive batch size the one index that is skipped is the one that
    starts exactly at the end of the data. *)
Lemma emitted_positive batch_size n num_batches :
  (0 < batch_size)%Z →
  emitted batch_size n num_batches
  = filter (λ b, (b * batch_size)%Z ≠ Z.of_nat n) (range num_batches).
Proof.
  intros Hbs. unfold emitted, batch_start, batch_end.
  apply list_filter_iff. intros b.
  replace ((b + 1) * batch_size)%Z with (b * batch_size + batch_size)%Z by ring.
  split; intros H; lia.
Qed.

Lemma length_emitted_positive batch_size n num_batches :
  (0 < batch_size)%Z →
  length (emitted batch_size n num_batches)
  = Z.to_nat num_batches
    - (if decide ((Z.of_nat n `mod` batch_size = 0 ∧ Z.of_nat n `div` batch_size < num_batches)%Z)
       then 1 else 0).
Proof.
  intros Hbs. rewrite emitted_positive by done. rewrite range_to_nat.
  assert (∀ k : nat,
            length (filter (λ b, (b * batch_size)%Z ≠ Z.of_nat n) (range (Z.of_nat k)))
            = k - (if decide ((Z.of_nat n `mod` batch_size = 0
                               ∧ Z.of_nat n `div` batch_size < Z.of_nat k)%Z)
                   then 1 else 0)) as Hcount.
  { induction k as [|k IH].
    - done.
    - rewrite range_snoc, filter_app, length_app, IH, (filter_singleton _ _ []).
      pose proof (Z.div_mod (Z.of_nat n) batch_size ltac:(lia)) as Hdm.
      pose proof (Z.mod_pos_bound (Z.of_nat n) batch_size Hbs) as Hmod.
      assert (0 ≤ Z.of_nat n `div` batch_size)%Z as Hq by (apply Z.div_pos; lia).
      set (q := (Z.of_nat n `div` batch_size)%Z) in *.
      set (r := (Z.of_nat n `mod` batch_size)%Z) in *.
      clearbody q r.
      assert ((Z.of_nat k * batch_size)%Z = Z.of_nat n ↔ r = 0%Z ∧ q = Z.of_nat k) as Hiff.
      { split; [intros Hk | intros [-> ->]; lia].
        assert (q = Z.of_nat k) by nia. subst q. lia. }
      repeat case_decide; simpl; lia. }
  rewrite Hcount. destruct (Z_le_gt_dec 0 num_batches) as [Hn|Hn].
  - by rewrite Z2Nat.id.
  - replace (Z.to_nat num_batches) with 0 by lia. done.
Qed.

Lemma batch_rows_positive {A} (xs : list A) batch_size n b :
  (0 < batch_size)%Z → (0 ≤ b)%Z →
  batch_rows xs batch_size n b
  = window (Z.to_nat (b * batch_size))
           (Z.to_nat (Z.min ((b + 1) * batch_size) (Z.of_nat n))) xs.
Proof.
  intros Hbs Hb. unfold batch_rows, batch_start, batch_end.
  apply rows_slice_window; nia.
Qed.

Lemma nd_batch_rows a batch_size n b :
  nd_batch a batch_size n b
  = match a with
    | Vec v => Vec (batch_rows v batch_size n b)
    | Mat c rows => Mat c (batch_rows rows batch_size n b)
    end.
Proof. by destruct a. Qed.

Lemma length_batch_rows {A} (xs : list A) batch_size b :
  (0 < batch_size)%Z → (0 ≤ b)%Z →
  length (batch_rows xs batch_size (length xs) b)
  = Z.to_nat (Z.min batch_size (Z.of_nat (length xs) - b * batch_size)).
Proof.
  intros Hbs Hb. rewrite batch_rows_positive, length_window by done.
  replace ((b + 1) * batch_size)%Z with (b * batch_size + batch_size)%Z by ring.
  assert (0 ≤ b * batch_size)%Z by nia. lia.
Qed.

Lemma nd_rows_batch a batch_size b :
  (0 < batch_size)%Z → (0 ≤ b)%Z →
  nd_rows (nd_batch a batch_size (nd_rows a) b)
  = Z.to_nat (Z.min batch_size (Z.of_nat (nd_rows a) - b * batch_size)).
Proof.
  intros Hbs Hb. rewrite nd_batch_rows. destruct a; simpl; by apply length_batch_rows.
Qed.

Lemma yields_sizes σ batches ya txa batch_size n num_batches :
  (0 < batch_size)%Z → nd_rows ya = n → nd_rows txa = n →
  yields σ batches ya txa batch_size n num_batches →
  length batches
  = Z.to_nat num_batches
    - (if decide ((Z.of_nat n `mod` batch_size = 0
                   ∧ Z.of_nat n `div` batch_size < num_batches)%Z)
       then 1 else 0)
  ∧ Forall2 (λ '(minibatch_y, minibatch_tx) b,
               ∃ ay atx, points_to σ minibatch_y ay ∧ points_to σ minibatch_tx atx
                         ∧ nd_rows ay
                           = Z.to_nat (Z.min batch_size (Z.of_nat n - b * batch_size))
                         ∧ nd_rows atx = nd_rows ay)
            batches
            (filter (λ b, (b * batch_size)%Z ≠ Z.of_nat n) (range num_batches)).
Proof.
  intros Hbs Hya Htxa Hyields. unfold yields in Hyields. split.
  - rewrite (Forall2_length _ _ _ Hyields). by apply length_emitted_positive.
  - rewrite <- emitted_positive by done.
    apply Forall2_same_length_lookup. split; [by eapply Forall2_length|].
    intros i [by_ btx] b Hi Hb.
    destruct (Forall2_lookup_lr _ _ _ _ _ _ Hyields Hi Hb) as [Hy Htx].
    assert (0 ≤ b)%Z as Hb0.
    { apply list_elem_of_lookup_2 in Hb. unfold emitted in Hb.
      apply list_elem_of_filter in Hb as [_ Hb]. by eapply range_nonneg. }
    eexists _, _. split; [exact Hy|]. split; [exact Htx|].
    subst n. split; [by apply nd_rows_batch|].
    rewrite <- Htxa at 1. rewrite !nd_rows_batch by done. by rewrite Htxa.
Qed.

(** X11. with a positive batch size, [num_batches] batch indices yield
    [num_batches] batches, less one when the batch size divides the number of
    rows [n] and the index [n / batch_size] is among them (the batch that
    would start exactly at [n] is the only one skipped).  The batch of index
    [b] has [min(batch_size, n - b*batch_size)] rows of labels and as many of
    features, and none when that is negative: an index beyond the data yields
    an empty batch. *)
Theorem sampler_batch_sizes permutation σ y tx ya txa batch_size num_batches (shuffle : bool) :
  (∀ k n, permutation k n ≡ₚ seq 0 n) →
  points_to σ y ya → points_to σ tx txa → nd_rows txa = nd_rows ya →
  (0 < batch_size)%Z →
  ∃ batches σ',
    batch_iter permutation y tx batch_size num_batches shuffle σ = Ok (batches, σ')
    ∧ length batches
      = Z.to_nat num_batches
        - (if decide ((Z.of_nat (nd_rows ya) `mod` batch_size = 0
                       ∧ Z.of_nat (nd_rows ya) `div` batch_size < num_batches)%Z)
           then 1 else 0)
    ∧ Forall2 (λ '(minibatch_y, minibatch_tx) b,
                 ∃ ay atx, points_to σ' minibatch_y ay ∧ points_to σ' minibatch_tx atx
                           ∧ nd_rows ay
                             = Z.to_nat (Z.min batch_size
                                               (Z.of_nat (nd_rows ya) - b * batch_size))
                           ∧ nd_rows atx = nd_rows ay)
              batches
              (filter (λ b, (b * batch_size)%Z ≠ Z.of_nat (nd_rows ya)) (range num_batches)).
Proof.
  intros Hperm Hy Htx Hrows Hbs. destruct shuffle.
  - pose proof (Permutation_seq_bound _ _ (Hperm (draws σ) (nd_rows ya))) as Hb.
    pose proof (Permutation_seq_length _ _ (Hperm (draws σ) (nd_rows ya))) as Hl.
    set (idx := permutation (draws σ) (nd_rows ya)) in *.
    destruct (wp_run (batch_iter permutation y tx batch_size num_batches true) σ
                (λ batches σ',
                   yields σ' batches (nd_permute ya idx) (nd_permute txa idx)
                          batch_size (nd_rows ya) num_batches))
      as (batches & σ' & Hrun & Hyields).
    { apply (wp_batch_iter_shuffled _ _ _ _ ya txa); try done. by rewrite Hrows. }
    exists batches, σ'. split; [done|].
    apply (yields_sizes σ' batches (nd_permute ya idx) (nd_permute txa idx)); try done.
    + by rewrite nd_rows_permute.
    + rewrite nd_rows_permute; [done | by rewrite Hrows].
  - exists (batch_handles y tx (nd_rows ya) (nd_rows txa) batch_size (nd_rows ya)
              (emitted batch_size (nd_rows ya) num_batches)), σ.
    split; [by apply batch_iter_ordered_run|].
    apply (yields_sizes σ _ ya txa); [done..|]. by apply yields_batch_handles.
Qed.

Lemma sampler_batch_sizes_witness :
  (points_to Sample.σ0 Sample.y (Vec Sample.yv)
   ∧ points_to Sample.σ0 Sample.tx (Mat 2 Sample.rows) ∧ (0 < 2)%Z)
  ∧ ∃ batches σ',
      batch_iter Sample.permutation Sample.y Sample.tx 2 3 false Sample.σ0 = Ok (batches, σ')
      ∧ length batches
        = Z.to_nat 3
          - (if decide ((Z.of_nat (nd_rows (Vec Sample.yv)) `mod` 2 = 0
                         ∧ Z.of_nat (nd_rows (Vec Sample.yv)) `div` 2 < 3)%Z)
             then 1 else 0)
      ∧ Forall2 (λ '(minibatch_y, minibatch_tx) b,
                   ∃ ay atx, points_to σ' minibatch_y ay ∧ points_to σ' minibatch_tx atx
                             ∧ nd_rows ay
                               = Z.to_nat (Z.min 2 (Z.of_nat (nd_rows (Vec Sample.yv)) - b * 2))
                             ∧ nd_rows atx = nd_rows ay)
                batches
                (filter (λ b, (b * 2)%Z ≠ Z.of_nat (nd_rows (Vec Sample.yv))) (range 3)).
Proof.
  split; [repeat split|].
  apply (sampler_batch_sizes Sample.permutation Sample.σ0 Sample.y Sample.tx
           (Vec Sample.yv) (Mat 2 Sample.rows) 2 3 false sample_permutation_seq);
    reflexivity.
Defined.

(** ** The batches cover the data *)

Lemma concat_fmap_filter {A B} (P : A → Prop) `{!∀ x, Decision (P x)} (f : A → list B)
    (l : list A) :
  (∀ x, x ∈ l → ¬ P x → f x = []) →
  concat (f <$> filter P l) = concat (f <$> l).
Proof.
  induction l as [|x l IH]; intros Hf; [done|].
  assert (concat (f <$> filter P l) = concat (f <$> l)) as IH'.
  { apply IH. intros y Hy. apply Hf. by right. }
  destruct (decide (P x)) as [Hx|Hx].
  - rewrite filter_cons_True, !fmap_cons by done. cbn [concat]. by rewrite IH'.
  - rewrite filter_cons_False, !fmap_cons by done. cbn [concat].
    rewrite IH', Hf; [done | by left | done].
Qed.

Lemma concat_batch_rows {A} (xs : list A) batch_size (k : nat) :
  (0 < batch_size)%Z →
  concat ((λ b, batch_rows xs batch_size (length xs) b) <$> range (Z.of_nat k))
  = take (Z.to_nat (Z.of_nat k * batch_size)) xs.
Proof.
  intros Hbs. induction k as [|k IH]; [done|].
  rewrite range_snoc, fmap_app, concat_app, IH. simpl. rewrite app_nil_r.
  rewrite batch_rows_positive by lia. unfold window. rewrite take_take_drop.
  replace ((Z.of_nat k + 1) * batch_size)%Z with (Z.of_nat k * batch_size + batch_size)%Z
    by ring.
  replace (Z.of_nat (S k) * batch_size)%Z with (Z.of_nat k * batch_size + batch_size)%Z
    by (rewrite Nat2Z.inj_succ; ring).
  assert (0 ≤ Z.of_nat k * batch_size)%Z as Hs by nia.
  set (s := (Z.of_nat k * batch_size)%Z) in *. clearbody s.
  destruct (Z_le_gt_dec (s + batch_size) (Z.of_nat (length xs))) as [Hle|Hgt].
  - f_equal. lia.
  - rewrite !take_ge; [done|lia..].
Qed.

Lemma concat_emitted_batches {A} (xs : list A) batch_size num_batches :
  (0 < batch_size)%Z → (Z.of_nat (length xs) ≤ num_batches * batch_size)%Z →
  concat ((λ b, batch_rows xs batch_size (length xs) b)
            <$> emitted batch_size (length xs) num_batches) = xs.
Proof.
  intros Hbs Hall. rewrite emitted_positive by done.
  rewrite concat_fmap_filter.
  - rewrite range_to_nat, concat_batch_rows by done. apply take_ge. nia.
  - intros b Hb%range_nonneg Hskip. apply dec_stable in Hskip.
    rewrite batch_rows_positive by done. unfold window.
    replace ((b + 1) * batch_size)%Z with (b * batch_size + batch_size)%Z by ring.
    rewrite Hskip. replace (_ - _) with 0 by lia. done.
Qed.

Lemma permute_seq {A} (xs : list A) : permute xs (seq 0 (length xs)) = xs.
Proof.
  unfold permute. induction xs as [|x xs IH] using rev_ind; [done|].
  rewrite length_app. simpl. rewrite Nat.add_1_r, seq_S, omap_app. simpl.
  rewrite lookup_app_r, Nat.sub_diag by lia. simpl.
  f_equal. rewrite <- IH at 2. apply list_omap_ext, Forall_Forall2_diag, Forall_forall.
  intros i Hi%elem_of_seq. by rewrite lookup_app_l by lia.
Qed.

Lemma permute_Permutation {A} (xs : list A) idx :
  idx ≡ₚ seq 0 (length xs) → permute xs idx ≡ₚ xs.
Proof. intros H. unfold permute. rewrite H. by rewrite (permute_seq xs) at 1. Qed.

Lemma yields_cover σ batches yv c rows batch_size num_batches :
  (0 < batch_size)%Z → length rows = length yv →
  (Z.of_nat (length yv) ≤ num_batches * batch_size)%Z →
  yields σ batches (Vec yv) (Mat c rows) batch_size (length yv) num_batches →
  ∃ ys txs,
    Forall2 (λ b v, points_to σ b.1 (Vec v)) batches ys
    ∧ Forall2 (λ b r, points_to σ b.2 (Mat c r)) batches txs
    ∧ Forall2 (λ v r, length v = length r) ys txs
    ∧ concat ys = yv ∧ concat txs = rows.
Proof.
  intros Hbs Hrows Hall Hyields. unfold yields in Hyields.
  exists ((λ b, batch_rows yv batch_size (length yv) b)
            <$> emitted batch_size (length yv) num_batches),
         ((λ b, batch_rows rows batch_size (length yv) b)
            <$> emitted batch_size (length yv) num_batches).
  split; [|split; [|split; [|split]]].
  - apply Forall2_fmap_r. eapply Forall2_impl; [exact Hyields|].
    by intros [by_ btx] b [H _].
  - apply Forall2_fmap_r. eapply Forall2_impl; [exact Hyields|].
    by intros [by_ btx] b [_ H].
  - apply Forall2_fmap, Forall_Forall2_diag, Forall_forall. intros b _.
    unfold batch_rows. by apply length_rows_slice.
  - by apply concat_emitted_batches.
  - rewrite <- Hrows in *. by apply concat_emitted_batches.
Qed.

(** X12. with a positive batch size and enough batch indices to reach the end
    of the data ([num_batches * batch_size >= n]), the batches put end to end
    are the whole data: without shuffling the labels and the rows of [tx] in
    their order, with shuffling their rearrangement by the permutation drawn,
    the same for both; a batch of labels has as many elements as its batch of
    features has rows. *)
Theorem sampler_covers_the_data permutation σ y tx yv c rows batch_size num_batches
    (shuffle : bool) :
  (∀ k n, permutation k n ≡ₚ seq 0 n) →
  points_to σ y (Vec yv) → points_to σ tx (Mat c rows) → length rows = length yv →
  (0 < batch_size)%Z → (Z.of_nat (length yv) ≤ num_batches * batch_size)%Z →
  ∃ batches σ' ys txs idx,
    batch_iter permutation y tx batch_size num_batches shuffle σ = Ok (batches, σ')
    ∧ Forall2 (λ b v, points_to σ' b.1 (Vec v)) batches ys
    ∧ Forall2 (λ b r, points_to σ' b.2 (Mat c r)) batches txs
    ∧ Forall2 (λ v r, length v = length r) ys txs
    ∧ idx = (if shuffle then permutation (draws σ) (length yv) else seq 0 (length yv))
    ∧ idx ≡ₚ seq 0 (length yv)
    ∧ concat ys = permute yv idx ∧ concat txs = permute rows idx.
Proof.
  intros Hperm Hy Htx Hrows Hbs Hall. destruct shuffle.
  - pose proof (Permutation_seq_bound _ _ (Hperm (draws σ) (length yv))) as Hb.
    pose proof (Permutation_seq_length _ _ (Hperm (draws σ) (length yv))) as Hl.
    set (idx := permutation (draws σ) (length yv)) in *.
    destruct (wp_run (batch_iter permutation y tx batch_size num_batches true) σ
                (λ batches σ',
                   yields σ' batches (nd_permute (Vec yv) idx) (nd_permute (Mat c rows) idx)
                          batch_size (length yv) num_batches))
      as (batches & σ' & Hrun & Hyields).
    { apply (wp_batch_iter_shuffled _ _ _ _ (Vec yv) (Mat c rows)); try done.
      simpl. by rewrite Hrows. }
    simpl in Hyields.
    assert (length (permute yv idx) = length yv) as Hpy by by rewrite length_permute.
    assert (length (permute rows idx) = length yv) as Hpr
      by (rewrite length_permute; [done | by rewrite Hrows]).
    rewrite <- Hpy in Hyields.
    destruct (yields_cover σ' batches (permute yv idx) c (permute rows idx)
                batch_size num_batches) as (ys & txs & H1 & H2 & H3 & H4 & H5);
      [done | congruence | by rewrite Hpy | done |].
    exists batches, σ', ys, txs, idx. repeat (split; [done|]).
    split; [apply Hperm|]. done.
  - destruct (yields_cover σ
                (batch_handles y tx (length yv) (length rows) batch_size (length yv)
                   (emitted batch_size (length yv) num_batches))
                yv c rows batch_size num_batches) as (ys & txs & H1 & H2 & H3 & H4 & H5);
      [done..| |].
    { by apply (yields_batch_handles σ y tx (Vec yv) (Mat c rows)). }
    eexists _, σ, ys, txs, (seq 0 (length yv)).
    split; [by apply (batch_iter_ordered_run _ _ _ _ (Vec yv) (Mat c rows))|].
    split; [exact H1|]. split; [exact H2|]. split; [exact H3|].
    split; [done|]. split; [done|].
    rewrite permute_seq. rewrite <- Hrows, permute_seq. done.
Qed.

Lemma sampler_covers_the_data_witness :
  (points_to Sample.σ0 Sample.y (Vec Sample.yv)
   ∧ points_to Sample.σ0 Sample.tx (Mat 2 Sample.rows)
   ∧ (0 < 2)%Z ∧ (Z.of_nat (length Sample.yv) ≤ 2 * 2)%Z)
  ∧ ∃ batches σ' ys txs idx,
      batch_iter Sample.permutation Sample.y Sample.tx 2 2 true Sample.σ0 = Ok (batches, σ')
      ∧ Forall2 (λ b v, points_to σ' b.1 (Vec v)) batches ys
      ∧ Forall2 (λ b r, points_to σ' b.2 (Mat 2 r)) batches txs
      ∧ Forall2 (λ v r, length v = length r) ys txs
      ∧ idx = Sample.permutation (draws Sample.σ0) (length Sample.yv)
      ∧ idx ≡ₚ seq 0 (length Sample.yv)
      ∧ concat ys = permute Sample.yv idx ∧ concat txs = permute Sample.rows idx.
Proof.
  split; [repeat split; simpl; lia|].
  apply (sampler_covers_the_data Sample.permutation Sample.σ0 Sample.y Sample.tx
           Sample.yv 2 Sample.rows 2 2 true sample_permutation_seq);
    try reflexivity; simpl; lia.
Defined.

(** X13. a negative batch size is accepted: the one batch of a call with
    [num_batches = 1] is then cut by Python's slice [0:batch_size], all the
    rows but the last [-batch_size] of them. *)
Theorem sampler_negative_batch_size permutation σ y tx ya txa batch_size :
  points_to σ y ya → points_to σ tx txa → (batch_size < 0)%Z →
  ∃ minibatch_y minibatch_tx,
    batch_iter permutation y tx batch_size 1 false σ
    = Ok ([(minibatch_y, minibatch_tx)], σ)
    ∧ points_to σ minibatch_y (nd_window 0 (nd_rows ya - Z.to_nat (- batch_size)) ya)
    ∧ points_to σ minibatch_tx (nd_window 0 (nd_rows txa - Z.to_nat (- batch_size)) txa).
Proof.
  intros Hy Htx Hbs.
  assert (emitted batch_size (nd_rows ya) 1 = [0%Z]) as Hem.
  { unfold emitted, range, batch_start, batch_end. simpl.
    rewrite filter_cons_True; [done|]. lia. }
  eexists _, _. split.
  - rewrite (batch_iter_ordered_run _ _ _ _ ya txa) by done. by rewrite Hem.
  - assert (∀ a, nd_slice a (batch_start batch_size 0) (batch_end batch_size (nd_rows ya) 0)
                 = nd_window 0 (nd_rows a - Z.to_nat (- batch_size)) a) as Hslice.
    { intros a. unfold batch_start, batch_end.
      replace (Z.min ((0 + 1) * batch_size) (Z.of_nat (nd_rows ya))) with batch_size by lia.
      destruct a as [v|c rows]; simpl; f_equal; unfold rows_slice, clamp_index; simpl;
        (destruct (batch_size <? 0)%Z eqn:Hneg; [|lia]); f_equal; lia. }
    split; rewrite <- Hslice; by apply points_to_py_slice.
Qed.

Lemma sampler_negative_batch_size_witness :
  (points_to Sample.σ0 Sample.y (Vec Sample.yv)
   ∧ points_to Sample.σ0 Sample.tx (Mat 2 Sample.rows) ∧ (-1 < 0)%Z)
  ∧ ∃ minibatch_y minibatch_tx,
      batch_iter Sample.permutation Sample.y Sample.tx (-1) 1 false Sample.σ0
      = Ok ([(minibatch_y, minibatch_tx)], Sample.σ0)
      ∧ points_to Sample.σ0 minibatch_y (Vec [1; 0]%float)
      ∧ points_to Sample.σ0 minibatch_tx (Mat 2 [[1; 2]; [3; -1]]%float).
Proof.
  split; [repeat split; lia|].
  apply (sampler_negative_batch_size Sample.permutation Sample.σ0 Sample.y Sample.tx
           (Vec Sample.yv) (Mat 2 Sample.rows) (-1)); [reflexivity | reflexivity | lia].
Defined.

(** ** The training loops *)

Lemma emitted_one batch_size n :
  emitted batch_size n 1
  = if decide (Z.min batch_size (Z.of_nat n) = 0%Z) then [] else [0%Z].
Proof.
  unfold emitted, range, batch_start, batch_end. simpl.
  rewrite (filter_singleton _ _ []).
  replace ((0 + 1) * batch_size)%Z with batch_size by lia.
  repeat case_decide; (done || lia).
Qed.

Lemma batch_rows_first {A} (xs : list A) batch_size :
  (0 < batch_size)%Z →
  batch_rows xs batch_size (length xs) 0 = take (Z.to_nat batch_size) xs.
Proof.
  intros Hbs. rewrite batch_rows_positive by lia. unfold window.
  replace (Z.to_nat (0 * batch_size)) with 0 by lia.
  replace ((0 + 1) * batch_size)%Z with batch_size by lia.
  rewrite Nat.sub_0_r, drop_0.
  destruct (Z_le_gt_dec batch_size (Z.of_nat (length xs))) as [Hle|Hgt].
  - f_equal. lia.
  - rewrite !take_ge; [done|lia..].
Qed.

Section OneStep.
Variable grad : list float → nat → list (list float) → list float → list float.
Variable permutation : nat → nat → list nat.
Hypothesis permutation_seq : ∀ k n, permutation k n ≡ₚ seq 0 n.
Variable batch_size : Z.
Variable gamma : float.
Variable yv : list float.
Variable c : nat.
Variable rows : list (list float).
Hypothesis compatible_rows : length yv = length rows.
Hypothesis positive_batch : (0 < batch_size)%Z.
Hypothesis some_data : yv ≠ [].

Lemma spec_epoch_step k wv :
  spec_epoch grad permutation batch_size gamma yv c rows k wv
  = spec_step grad permutation (Z.to_nat batch_size) gamma yv c rows k wv.
Proof.
  unfold spec_epoch, spec_step. rewrite emitted_one.
  assert (length yv ≠ 0) by by destruct yv.
  rewrite decide_False by lia. simpl.
  pose proof (Permutation_seq_bound _ _ (permutation_seq k (length yv))) as Hb.
  pose proof (Permutation_seq_length _ _ (permutation_seq k (length yv))) as Hl.
  set (idx := permutation k (length yv)) in *.
  assert (length (permute yv idx) = length yv) as Hy by by rewrite length_permute.
  assert (length (permute rows idx) = length yv) as Hr
    by (rewrite length_permute; [done | by rewrite <- compatible_rows]).
  rewrite <- Hy at 1. rewrite batch_rows_first by done.
  rewrite <- Hr at 1. by rewrite batch_rows_first by done.
Qed.

Lemma spec_train_steps iters :
  ∀ k wv, spec_train grad permutation batch_size gamma yv c rows iters k wv
          = spec_steps grad permutation (Z.to_nat batch_size) gamma yv c rows iters k wv.
Proof.
  induction iters as [|i IH]; intros k wv; simpl; [done|].
  by rewrite spec_epoch_step, IH.
Qed.

End OneStep.

(** X14. with a positive batch size and some data, an epoch of either training
    function makes exactly one update, whatever the number of rows: its
    gradient is computed on the first [batch_size] rows of that epoch's
    shuffle of the data (on all of them when there are fewer).  After
    [max_iters] epochs the weights have been updated [max_iters] times. *)
Theorem training_makes_one_update_per_epoch exp ln permutation σ y tx initial_w yv c rows wv
    max_iters gamma batch_size lambda_ :
  (∀ k n, permutation k n ≡ₚ seq 0 n) →
  points_to σ y (Vec yv) → points_to σ tx (Mat c rows) → points_to σ initial_w (Vec wv) →
  length wv = c → length yv = length rows →
  (1 ≤ max_iters)%Z → (0 < batch_size)%Z → yv ≠ [] →
  (∃ w σ' wv',
     logistic_regression exp ln permutation y tx initial_w max_iters gamma batch_size σ
       = Ok ((w, spec_loss exp ln yv rows wv'), σ')
     ∧ points_to σ' w (Vec wv')
     ∧ wv' = spec_steps (spec_gradient exp) permutation (Z.to_nat batch_size) gamma yv c rows
               (Z.to_nat max_iters) (draws σ) wv)
  ∧ (∃ w σ' wv',
       reg_logistic_regression exp ln permutation y tx lambda_ initial_w max_iters gamma
         batch_size σ
         = Ok ((w, spec_reg_loss exp ln lambda_ yv rows wv'), σ')
       ∧ points_to σ' w (Vec wv')
       ∧ wv' = spec_steps (spec_reg_gradient exp lambda_) permutation (Z.to_nat batch_size)
                 gamma yv c rows (Z.to_nat max_iters) (draws σ) wv).
Proof.
  intros Hperm Hy Htx Hw Hc Hn Hiters Hbs Hdata.
  assert (∃ x xs, range max_iters = x :: xs) as (x & xs & Hrange).
  { pose proof (range_length max_iters) as Hl.
    destruct (range max_iters) as [|x xs]; [simpl in Hl; lia | eauto]. }
  split.
  - set (wv' := spec_steps (spec_gradient exp) permutation (Z.to_nat batch_size) gamma yv c
                  rows (Z.to_nat max_iters) (draws σ) wv).
    destruct (wp_run
                (logistic_regression exp ln permutation y tx initial_w max_iters gamma batch_size)
                σ (λ r σ', r.2 = spec_loss exp ln yv rows wv' ∧ points_to σ' r.1 (Vec wv')))
      as ([w l] & σ' & Hrun & Hl & Hw').
    { unfold logistic_regression. apply wp_bind.
      eapply (wp_epochs permutation Hperm (cross_entropy_gradient exp) (spec_gradient exp)
                (cross_entropy_loss exp ln) (spec_loss exp ln));
        [apply wp_cross_entropy_gradient | intros; apply length_spec_gradient
        | apply wp_cross_entropy_loss | exact Hn | exact Hy | exact Htx | exact Hw | exact Hc |].
      rewrite range_length. intros w' σ' wv1 [E D] Hw'. subst wv1.
      rewrite spec_train_steps in * by done. rewrite Hrange. simpl. split; done. }
    simpl in Hl. subst l. by exists w, σ', wv'.
  - set (wv' := spec_steps (spec_reg_gradient exp lambda_) permutation (Z.to_nat batch_size)
                  gamma yv c rows (Z.to_nat max_iters) (draws σ) wv).
    destruct (wp_run
                (reg_logistic_regression exp ln permutation y tx lambda_ initial_w max_iters
                   gamma batch_size)
                σ (λ r σ', r.2 = spec_reg_loss exp ln lambda_ yv rows wv'
                           ∧ points_to σ' r.1 (Vec wv')))
      as ([w l] & σ' & Hrun & Hl & Hw').
    { unfold reg_logistic_regression. apply wp_bind.
      eapply (wp_epochs permutation Hperm
                (λ a b c, regularized_cross_entropy_gradient exp a b c lambda_)
                (spec_reg_gradient exp lambda_)
                (λ a b c, regularized_cross_entropy_loss exp ln a b c lambda_)
                (spec_reg_loss exp ln lambda_));
        [intros; by eapply wp_regularized_cross_entropy_gradient
        | intros; by apply length_spec_reg_gradient
        | intros; by eapply wp_regularized_cross_entropy_loss
        | exact Hn | exact Hy | exact Htx | exact Hw | exact Hc |].
      rewrite range_length. intros w' σ' wv1 [E D] Hw'. subst wv1.
      rewrite spec_train_steps in * by done. rewrite Hrange. simpl. split; done. }
    simpl in Hl. subst l. by exists w, σ', wv'.
Qed.

Lemma training_makes_one_update_per_epoch_witness :
  ((1 ≤ 2)%Z ∧ (0 < 2)%Z
   ∧ points_to Sample.σ0 Sample.y (Vec Sample.yv)
   ∧ points_to Sample.σ0 Sample.tx (Mat 2 Sample.rows)
   ∧ points_to Sample.σ0 Sample.w (Vec Sample.wv))
  ∧ ∃ w σ' wv',
      logistic_regression Sample.exp Sample.ln Sample.permutation Sample.y Sample.tx Sample.w
        2 0.5 2 Sample.σ0 = Ok ((w, spec_loss Sample.exp Sample.ln Sample.yv Sample.rows wv'), σ')
      ∧ points_to σ' w (Vec wv')
      ∧ wv' = spec_steps (spec_gradient Sample.exp) Sample.permutation 2 0.5 Sample.yv 2
                Sample.rows 2 0 Sample.wv.
Proof.
  split; [repeat split; (lia || reflexivity)|].
  apply (training_makes_one_update_per_epoch Sample.exp Sample.ln Sample.permutation Sample.σ0
           Sample.y Sample.tx Sample.w Sample.yv 2 Sample.rows Sample.wv 2 0.5 2 0.25
           sample_permutation_seq); try reflexivity; try lia. discriminate.
Defined.

(** The epochs of a loop whose sampler yields no batch: the weights stay the
    array they were. *)
Section Idle.
Variable permutation : nat → nat → list nat.
Hypothesis permutation_seq : ∀ k n, permutation k n ≡ₚ seq 0 n.
Variable gradM : aref → aref → aref → M aref.
Variable lossM : aref → aref → aref → M float.
Variable lossS : list float → list (list float) → list float → float.
Hypothesis wp_lossM : ∀ σ y tx w yv c rows wv (Q : float → state → Prop),
  points_to σ y (Vec yv) → points_to σ tx (Mat c rows) → points_to σ w (Vec wv) →
  c = length wv → length yv = length rows →
  (∀ σ', after σ 0 σ' → Q (lossS yv rows wv) σ') →
  wp (lossM y tx w) σ Q.
Variable gamma : float.
Variable batch_size : Z.
Variable y tx w : aref.
Variable yv : list float.
Variable c : nat.
Variable rows : list (list float).
Variable wv : list float.
Hypothesis compatible_rows : length yv = length rows.
Hypothesis compatible_weights : length wv = c.
Hypothesis no_batch : Z.min batch_size (Z.of_nat (length yv)) = 0%Z.

Lemma wp_epochs_idle (xs : list Z) :
  ∀ σ l (Q : aref * option float → state → Prop),
  points_to σ y (Vec yv) → points_to σ tx (Mat c rows) → points_to σ w (Vec wv) →
  (∀ σ', after σ (length xs) σ' →
     Q (w, match xs with [] => l | _ => Some (lossS yv rows wv) end) σ') →
  wp (for_each xs (w, l) (λ n_iter '(w, _),
        batches ← batch_iter permutation y tx batch_size 1 true;
        w ← for_each batches w (λ '(minibatch_y, minibatch_tx) w,
          gr ← gradM minibatch_y minibatch_tx w; descend w gamma gr);
        loss ← lossM y tx w;
        mret (w, Some loss))) σ Q.
Proof.
  induction xs as [|x xs IH]; intros σ l Q Hy Htx Hw HQ.
  - apply wp_ret. by apply HQ.
  - simpl. apply wp_bind.
    pose proof (Permutation_seq_bound _ _ (permutation_seq (draws σ) (length yv))) as Hbound.
    apply wp_bind, (wp_batch_iter_shuffled _ _ _ _ (Vec yv) (Mat c rows)); try done.
    { simpl. by rewrite <- compatible_rows. }
    simpl. intros batches σ1 A1 Hyields.
    unfold yields in Hyields. rewrite emitted_one, decide_True in Hyields by done.
    apply Forall2_nil_inv_r in Hyields as ->. simpl.
    apply wp_bind, wp_ret.
    apply wp_bind, (wp_lossM _ _ _ _ yv c rows wv); [eauto..|done|done|].
    intros σ2 A2. apply wp_ret.
    assert (after σ 1 σ2) as A12.
    { replace 1 with (1 + 0) by lia. by eapply after_trans. }
    apply IH; [eauto..|]. intros σ' A3.
    assert (after σ (length (x :: xs)) σ') as A.
    { simpl. replace (S (length xs)) with (1 + length xs) by lia. by eapply after_trans. }
    specialize (HQ σ' A). simpl in HQ. by destruct xs.
Qed.

End Idle.

(** X15. with [batch_size = 0], or with no data and a batch size that is not
    negative, the sampler yields no batch and no update is ever made: for any
    [max_iters >= 1] both training functions return the array [initial_w]
    itself, with the loss on the data at the initial weights. *)
Theorem training_without_batches exp ln permutation σ y tx initial_w yv c rows wv
    max_iters gamma batch_size lambda_ :
  (∀ k n, permutation k n ≡ₚ seq 0 n) →
  points_to σ y (Vec yv) → points_to σ tx (Mat c rows) → points_to σ initial_w (Vec wv) →
  length wv = c → length yv = length rows →
  (1 ≤ max_iters)%Z → Z.min batch_size (Z.of_nat (length yv)) = 0%Z →
  (∃ σ',
     logistic_regression exp ln permutation y tx initial_w max_iters gamma batch_size σ
       = Ok ((initial_w, spec_loss exp ln yv rows wv), σ'))
  ∧ (∃ σ',
       reg_logistic_regression exp ln permutation y tx lambda_ initial_w max_iters gamma
         batch_size σ
         = Ok ((initial_w, spec_reg_loss exp ln lambda_ yv rows wv), σ')).
Proof.
  intros Hperm Hy Htx Hw Hc Hn Hiters Hbs.
  assert (∃ x xs, range max_iters = x :: xs) as (x & xs & Hrange).
  { pose proof (range_length max_iters) as Hl.
    destruct (range max_iters) as [|x xs]; [simpl in Hl; lia | eauto]. }
  split.
  - destruct (wp_run
                (logistic_regression exp ln permutation y tx initial_w max_iters gamma batch_size)
                σ (λ r _, r = (initial_w, spec_loss exp ln yv rows wv)))
      as (r & σ' & Hrun & ->); [|by eauto].
    unfold logistic_regression. apply wp_bind.
    eapply (wp_epochs_idle permutation Hperm (cross_entropy_gradient exp)
              (cross_entropy_loss exp ln) (spec_loss exp ln));
      [apply wp_cross_entropy_loss | exact Hn | exact Hc | exact Hbs
      | exact Hy | exact Htx | exact Hw |].
    intros σ' _. rewrite Hrange. by apply wp_ret.
  - destruct (wp_run
                (reg_logistic_regression exp ln permutation y tx lambda_ initial_w max_iters
                   gamma batch_size)
                σ (λ r _, r = (initial_w, spec_reg_loss exp ln lambda_ yv rows wv)))
      as (r & σ' & Hrun & ->); [|by eauto].
    unfold reg_logistic_regression. apply wp_bind.
    eapply (wp_epochs_idle permutation Hperm
              (λ a b c, regularized_cross_entropy_gradient exp a b c lambda_)
              (λ a b c, regularized_cross_entropy_loss exp ln a b c lambda_)
              (spec_reg_loss exp ln lambda_));
      [intros; by eapply wp_regularized_cross_entropy_loss | exact Hn | exact Hc | exact Hbs
      | exact Hy | exact Htx | exact Hw |].
    intros σ' _. rewrite Hrange. by apply wp_ret.
Qed.

Lemma training_without_batches_witness :
  ((1 ≤ 3)%Z ∧ Z.min 0 (Z.of_nat (length Sample.yv)) = 0%Z
   ∧ points_to Sample.σ0 Sample.y (Vec Sample.yv)
   ∧ points_to Sample.σ0 Sample.tx (Mat 2 Sample.rows)
   ∧ points_to Sample.σ0 Sample.w (Vec Sample.wv))
  ∧ ∃ σ',
      logistic_regression Sample.exp Sample.ln Sample.permutation Sample.y Sample.tx Sample.w
        3 0.5 0 Sample.σ0
      = Ok ((Sample.w, spec_loss Sample.exp Sample.ln Sample.yv Sample.rows Sample.wv), σ').
Proof.
  split; [repeat split; (lia || reflexivity)|].
  apply (training_without_batches Sample.exp Sample.ln Sample.permutation Sample.σ0
           Sample.y Sample.tx Sample.w Sample.yv 2 Sample.rows Sample.wv 3 0.5 0 0.25
           sample_permutation_seq); try reflexivity; lia.
Defined.

(** The first epoch of a loop whose gradient and loss raise ValueError on the
    weights it is given. *)
Section Failing.
Variable permutation : nat → nat → list nat.
Hypothesis permutation_seq : ∀ k n, permutation k n ≡ₚ seq 0 n.
Variable gradM : aref → aref → aref → M aref.
Variable lossM : aref → aref → aref → M float.
Variable c : nat.
Variable wv : list float.
Hypothesis gradM_raises : ∀ σ y tx w rows,
  points_to σ tx (Mat c rows) → points_to σ w (Vec wv) → gradM y tx w σ = Raise ValueError.
Hypothesis lossM_raises : ∀ σ y tx w rows,
  points_to σ tx (Mat c rows) → points_to σ w (Vec wv) → lossM y tx w σ = Raise ValueError.

Lemma epochs_raise σ y tx w yv rows gamma batch_size x (xs : list Z) l :
  points_to σ y (Vec yv) → points_to σ tx (Mat c rows) → points_to σ w (Vec wv) →
  length yv = length rows →
  for_each (x :: xs) (w, l) (λ n_iter '(w, _),
    batches ← batch_iter permutation y tx batch_size 1 true;
    w ← for_each batches w (λ '(minibatch_y, minibatch_tx) w,
      gr ← gradM minibatch_y minibatch_tx w; descend w gamma gr);
    loss ← lossM y tx w;
    mret (w, Some loss)) σ = Raise ValueError.
Proof.
  intros Hy Htx Hw Hn. simpl. apply bind_Raise.
  pose proof (Permutation_seq_bound _ _ (permutation_seq (draws σ) (length yv))) as Hb.
  destruct (batch_iter_shuffled_run permutation σ y tx (Vec yv) (Mat c rows) batch_size 1)
    as (sy & stx & σ' & Hrun & _ & _ & _ & _ & _ & A & Hsy & Hstx); [done..| |].
  { simpl. by rewrite <- Hn. }
  rewrite (bind_run _ _ _ _ _ Hrun).
  assert (points_to σ' w (Vec wv)) as Hw' by eauto.
  rewrite emitted_one. case_decide.
  - simpl. erewrite bind_run; [|reflexivity]. apply bind_Raise.
    apply (lossM_raises _ _ _ _ rows); eauto.
  - simpl. apply bind_Raise. apply bind_Raise. apply bind_Raise.
    eapply gradM_raises; [|done].
    apply (points_to_py_slice σ' stx (nd_permute (Mat c rows) _)). exact Hstx.
Qed.

End Failing.

(** X16. when the length of [initial_w] differs from the number of columns of
    [tx], both training functions raise ValueError in their first epoch, for
    any [max_iters >= 1] and any batch size. *)
Theorem training_mismatched_weights exp ln permutation σ y tx initial_w yv c rows wv
    max_iters gamma batch_size lambda_ :
  (∀ k n, permutation k n ≡ₚ seq 0 n) →
  points_to σ y (Vec yv) → points_to σ tx (Mat c rows) → points_to σ initial_w (Vec wv) →
  length yv = length rows → c ≠ length wv → (1 ≤ max_iters)%Z →
  logistic_regression exp ln permutation y tx initial_w max_iters gamma batch_size σ
    = Raise ValueError
  ∧ reg_logistic_regression exp ln permutation y tx lambda_ initial_w max_iters gamma
      batch_size σ = Raise ValueError.
Proof.
  intros Hperm Hy Htx Hw Hn Hc Hiters.
  assert (∃ x xs, range max_iters = x :: xs) as (x & xs & Hrange).
  { pose proof (range_length max_iters) as Hl.
    destruct (range max_iters) as [|x xs]; [simpl in Hl; lia | eauto]. }
  split.
  - unfold logistic_regression. rewrite Hrange. apply bind_Raise.
    apply (epochs_raise permutation Hperm (cross_entropy_gradient exp)
             (cross_entropy_loss exp ln) c wv) with (yv := yv) (rows := rows); try done.
    + intros σ1 y1 tx1 w1 rows1 Htx1 Hw1. unfold cross_entropy_gradient.
      apply bind_Raise. by eapply matmul_mismatch.
    + intros σ1 y1 tx1 w1 rows1 Htx1 Hw1. unfold cross_entropy_loss.
      apply bind_Raise. by eapply matmul_mismatch.
  - unfold reg_logistic_regression. rewrite Hrange. apply bind_Raise.
    apply (epochs_raise permutation Hperm
             (λ a b c, regularized_cross_entropy_gradient exp a b c lambda_)
             (λ a b c, regularized_cross_entropy_loss exp ln a b c lambda_) c wv)
      with (yv := yv) (rows := rows); try done.
    + intros σ1 y1 tx1 w1 rows1 Htx1 Hw1. unfold regularized_cross_entropy_gradient.
      apply bind_Raise. unfold cross_entropy_gradient.
      apply bind_Raise. by eapply matmul_mismatch.
    + intros σ1 y1 tx1 w1 rows1 Htx1 Hw1. unfold regularized_cross_entropy_loss.
      apply bind_Raise. unfold cross_entropy_loss.
      apply bind_Raise. by eapply matmul_mismatch.
Qed.

Lemma training_mismatched_weights_witness :
  ((1 ≤ 2)%Z ∧ 2 ≠ length Sample.yv
   ∧ points_to Sample.σ0 Sample.y (Vec Sample.yv)
   ∧ points_to Sample.σ0 Sample.tx (Mat 2 Sample.rows))
  ∧ logistic_regression Sample.exp Sample.ln Sample.permutation Sample.y Sample.tx Sample.y
      2 0.5 1 Sample.σ0 = Raise ValueError
  ∧ reg_logistic_regression Sample.exp Sample.ln Sample.permutation Sample.y Sample.tx 0.25
      Sample.y 2 0.5 1 Sample.σ0 = Raise ValueError.
Proof.
  split; [repeat split; (lia || (simpl; lia) || reflexivity)|].
  apply (training_mismatched_weights Sample.exp Sample.ln Sample.permutation Sample.σ0
           Sample.y Sample.tx Sample.y Sample.yv 2 Sample.rows Sample.yv 2 0.5 1 0.25
           sample_permutation_seq); try reflexivity; simpl; lia.
Defined.

(** * Properties of [dataprocess/process.py] *)

(** ** Stores into the columns of an array *)

Lemma modifies_only_refl l σ : modifies_only l σ σ.
Proof. by repeat split. Qed.

Lemma modifies_only_trans l σ1 σ2 σ3 :
  modifies_only l σ1 σ2 → modifies_only l σ2 σ3 → modifies_only l σ1 σ3.
Proof.
  intros (L1 & D1 & H1) (L2 & D2 & H2). repeat split; [congruence..|].
  intros l' Hl. by rewrite H2, H1.
Qed.

Lemma modifies_only_points_to l σ σ' r a :
  modifies_only l σ σ' → buf r ≠ l → points_to σ r a → points_to σ' r a.
Proof.
  intros (_ & _ & H) Hr (b & Hb & ->)%points_to_lookup. apply points_to_lookup.
  exists b. by rewrite H.
Qed.

Lemma for_each_snoc {A B} (xs : list A) (x : A) (acc : B) (body : A → B → M B) σ :
  for_each (xs ++ [x]) acc body σ = (acc' ← for_each xs acc body; body x acc') σ.
Proof.
  revert acc σ. induction xs as [|x' xs IH]; intros acc σ; simpl.
  - unfold mbind, M_bind, mret, M_ret. by destruct (body x acc σ) as [[b σ']|e].
  - unfold mbind, M_bind in *. destruct (body x' acc σ) as [[b σ']|e]; [|done]. apply IH.
Qed.

Lemma points_to_mat σ r c rows :
  points_to σ r (Mat c rows) ↔
  ∃ rows0, heap σ !! buf r = Some (Mat c rows0) ∧ rows = window (lo r) (hi r) rows0.
Proof.
  rewrite points_to_lookup. split.
  - intros ([v|c0 rows0] & Hb & Heq); simpl in Heq; [done|].
    injection Heq as -> ->. eauto.
  - intros (rows0 & Hb & ->). by exists (Mat c rows0).
Qed.

Lemma store_column_points_to σ r c rows i f :
  points_to σ r (Mat c rows) →
  ∃ σ', store_column r i f σ = Ok (tt, σ')
        ∧ points_to σ' r (Mat c (alter f i <$> rows))
        ∧ modifies_only (buf r) σ σ'.
Proof.
  intros (rows0 & Hb & ->)%points_to_mat.
  unfold store_column. rewrite Hb. eexists. split; [done|].
  assert (buf r < length (heap σ)) as Hlt by by eapply lookup_lt_Some.
  split; [|repeat split; simpl].
  - apply points_to_mat. eexists. simpl. split; [by apply list_lookup_insert_eq|].
    symmetry. apply window_imap. by intros k row ->.
  - by rewrite length_insert.
  - intros l' Hl. by apply list_lookup_insert_ne.
Qed.

Lemma alter_upto G k (row : list float) :
  alter (G k) k (imap (upto k G) row) = imap (upto (S k) G) row.
Proof.
  apply list_eq. intros j. rewrite list_lookup_imap.
  destruct (decide (j = k)) as [->|Hj].
  - rewrite list_lookup_alter_eq, list_lookup_imap. destruct (row !! k); simpl; [|done].
    unfold upto. rewrite decide_False, decide_True by lia. done.
  - rewrite list_lookup_alter_ne, list_lookup_imap by done. destruct (row !! j); simpl; [|done].
    unfold upto. repeat case_decide; (done || lia).
Qed.

Lemma imap_upto_0 G (row : list float) : imap (upto 0 G) row = row.
Proof.
  apply list_eq. intros j. rewrite list_lookup_imap. destruct (row !! j); [|done].
  simpl. unfold upto. by rewrite decide_False by lia.
Qed.

Lemma imap_upto_all G c (row : list float) :
  length row ≤ c → imap (upto c G) row = map_row G row.
Proof.
  intros Hc. apply imap_ext. intros j x Hj. unfold upto.
  apply lookup_lt_Some in Hj. by rewrite decide_True by lia.
Qed.

(** A loop that stores into the columns one after the other: its first [k]
    rounds, and all of them. *)
Lemma column_loop_prefix (body : nat → unit → M unit) (G : nat → float → float) X c k :
  (∀ i σ rows, i < k → points_to σ X (Mat c rows) →
     ∃ σ', body i tt σ = Ok (tt, σ')
           ∧ points_to σ' X (Mat c (alter (G i) i <$> rows))
           ∧ modifies_only (buf X) σ σ') →
  ∀ σ rows, points_to σ X (Mat c rows) →
  ∃ σ', for_each (seq 0 k) tt body σ = Ok (tt, σ')
        ∧ points_to σ' X (Mat c (imap (upto k G) <$> rows))
        ∧ modifies_only (buf X) σ σ'.
Proof.
  intros Hbody σ rows HX. induction k as [|k IH].
  - exists σ. split; [done|]. split; [|apply modifies_only_refl].
    rewrite (list_fmap_ext _ id rows); [by rewrite list_fmap_id|].
    intros j row _. apply imap_upto_0.
  - destruct IH as (σ1 & Hrun & HX1 & M1); [intros; apply Hbody; [lia|done]|].
    destruct (Hbody k σ1 _ ltac:(lia) HX1) as (σ2 & Hrun2 & HX2 & M2).
    exists σ2. split; [|split].
    + rewrite seq_S, for_each_snoc. simpl.
      rewrite (bind_run _ _ _ _ _ Hrun). exact Hrun2.
    + rewrite <- list_fmap_compose in HX2.
      rewrite (list_fmap_ext _ (alter (G k) k ∘ imap (upto k G)) rows); [done|].
      intros j row _. simpl. by rewrite alter_upto.
    + by eapply modifies_only_trans.
Qed.

Lemma column_loop_run (body : nat → unit → M unit) (G : nat → float → float) X c :
  (∀ i σ rows, i < c → points_to σ X (Mat c rows) →
     ∃ σ', body i tt σ = Ok (tt, σ')
           ∧ points_to σ' X (Mat c (alter (G i) i <$> rows))
           ∧ modifies_only (buf X) σ σ') →
  ∀ σ rows, points_to σ X (Mat c rows) → rectangular c rows →
  ∃ σ', for_each (seq 0 c) tt body σ = Ok (tt, σ')
        ∧ points_to σ' X (Mat c (map_row G <$> rows))
        ∧ modifies_only (buf X) σ σ'.
Proof.
  intros Hbody σ rows HX Hrect.
  destruct (column_loop_prefix body G X c c Hbody σ rows HX) as (σ' & Hrun & HX' & M').
  exists σ'. split; [done|]. split; [|done].
  rewrite (list_fmap_ext _ (imap (upto c G)) rows); [done|].
  intros j row Hrow. symmetry. apply imap_upto_all.
  unfold rectangular in Hrect. rewrite Forall_lookup in Hrect.
  by rewrite (Hrect j row Hrow).
Qed.

Lemma for_each_app {A B} (xs ys : list A) (acc : B) (body : A → B → M B) σ :
  for_each (xs ++ ys) acc body σ = (acc' ← for_each xs acc body; for_each ys acc' body) σ.
Proof.
  revert acc σ. induction xs as [|x xs IH]; intros acc σ; simpl; [done|].
  unfold mbind, M_bind in *. destruct (body x acc σ) as [[b σ']|e]; [|done]. apply IH.
Qed.

(** A loop over the columns whose round [k] raises, the rounds before it
    having stored into their columns. *)
Lemma column_loop_raises (body : nat → unit → M unit) (G : nat → float → float) X c k e :
  k < c →
  (∀ i σ rows, i < k → points_to σ X (Mat c rows) →
     ∃ σ', body i tt σ = Ok (tt, σ')
           ∧ points_to σ' X (Mat c (alter (G i) i <$> rows))
           ∧ modifies_only (buf X) σ σ') →
  (∀ σ, body k tt σ = Raise e) →
  ∀ σ rows, points_to σ X (Mat c rows) → for_each (seq 0 c) tt body σ = Raise e.
Proof.
  intros Hk Hbody Hraise σ rows HX.
  destruct (column_loop_prefix body G X c k Hbody σ rows HX) as (σ' & Hrun & _).
  replace c with (k + S (c - S k)) by lia.
  rewrite seq_app, for_each_app, (bind_run _ _ _ _ _ Hrun). simpl.
  by apply bind_Raise.
Qed.

(** ** [impute_median] *)

Lemma item_lookup {A} (xs : list A) i x : xs !! i = Some x → item xs i = Ok x.
Proof. unfold item. by intros ->. Qed.

Lemma item_out_of_range {A} (xs : list A) i : length xs ≤ i → item xs i = Raise IndexError.
Proof. intros H. unfold item. by rewrite lookup_ge_None_2. Qed.

Lemma append_loop_run {A B} (g : A → B) (xs : list A) (acc : list B) σ :
  for_each xs acc (λ i acc, mret (acc ++ [g i])) σ = Ok (acc ++ (g <$> xs), σ).
Proof.
  revert acc. induction xs as [|x xs IH]; intros acc; simpl.
  - by rewrite app_nil_r.
  - erewrite bind_run; [|reflexivity]. rewrite IH. by rewrite <- app_assoc.
Qed.

Lemma map_row_zip {B} (F : nat → float → float) (f : float → B → float) (ms : list B) row :
  length row ≤ length ms →
  (∀ j x m, row !! j = Some x → ms !! j = Some m → F j x = f x m) →
  map_row F row = zip_with f row ms.
Proof.
  intros Hlen HF. apply list_eq. intros j. unfold map_row.
  rewrite list_lookup_imap, lookup_zip_with.
  destruct (row !! j) as [x|] eqn:Hx; simpl; [|done].
  destruct (ms !! j) as [m|] eqn:Hm; simpl.
  - f_equal. by apply HF.
  - apply lookup_lt_Some in Hx. apply lookup_ge_None in Hm. lia.
Qed.

(** The loop that imputes, for medians that cover the columns. *)
Lemma impute_loop_run σ X c rows nan_val ms :
  points_to σ X (Mat c rows) → rectangular c rows → c ≤ length ms →
  ∃ σ', for_each (seq 0 c) tt (λ i _,
          m ← lift (item ms i);
          store_column X i (replace_marker nan_val m)) σ = Ok (tt, σ')
        ∧ points_to σ' X (Mat c (impute_row nan_val ms <$> rows))
        ∧ modifies_only (buf X) σ σ'.
Proof.
  intros HX Hrect Hms.
  destruct (column_loop_run
              (λ i _, m ← lift (item ms i); store_column X i (replace_marker nan_val m))
              (λ j, replace_marker nan_val (default nan_val (ms !! j))) X c)
    with (σ := σ) (rows := rows) as (σ' & Hrun & HX' & M'); [|done..|].
  { intros i σ1 rows1 Hi HX1.
    destruct (lookup_lt_is_Some_2 ms i ltac:(lia)) as [m Hm].
    rewrite bind_lift, (item_lookup _ _ _ Hm), Hm. simpl.
    by apply store_column_points_to. }
  exists σ'. split; [done|]. split; [|done].
  rewrite (list_fmap_ext _ (map_row (λ j, replace_marker nan_val (default nan_val (ms !! j))))
             rows); [done|].
  intros k row Hrow. symmetry. apply map_row_zip.
  - unfold rectangular in Hrect. rewrite Forall_lookup in Hrect.
    by rewrite (Hrect k row Hrow).
  - intros j x m _ ->. done.
Qed.

(** The run of [impute_median]: the medians are those given, or those of the
    columns without their markers; the array is [X] itself. *)
Lemma impute_median_run median σ X c rows train_medians nan_val :
  points_to σ X (Mat c rows) → rectangular c rows →
  let ms := match train_medians with
            | Some ms => ms
            | None => column_medians median nan_val c rows
            end in
  c ≤ length ms →
  ∃ σ', impute_median median X train_medians nan_val σ = Ok ((X, ms), σ')
        ∧ points_to σ' X (Mat c (impute_row nan_val ms <$> rows))
        ∧ modifies_only (buf X) σ σ'.
Proof.
  intros HX Hrect ms Hms.
  destruct (impute_loop_run σ X c rows nan_val ms HX Hrect Hms) as (σ' & Hrun & HX' & M').
  exists σ'. split; [|done].
  unfold impute_median. rewrite (bind_run _ _ _ _ _ (read_mat_run _ _ _ _ HX)).
  assert (match train_medians with
          | Some train_medians => mret train_medians
          | None =>
              for_each (seq 0 c) [] (λ i train_medians,
                let present := filter (λ x, (x =? nan_val)%float = false) (column i rows) in
                mret (train_medians ++ [median present]))
          end σ = Ok (ms, σ)) as Hms_run.
  { destruct train_medians as [given|]; [done|].
    by rewrite (append_loop_run
                  (λ i, median (filter (λ x, (x =? nan_val)%float = false) (column i rows)))). }
  rewrite (bind_run _ _ _ _ _ Hms_run), (bind_run _ _ _ _ _ Hrun). done.
Qed.

Lemma length_column_medians median nan_val c rows :
  length (column_medians median nan_val c rows) = c.
Proof. unfold column_medians. by rewrite length_fmap, length_seq. Qed.

Lemma replace_marker_clean nan_val m x :
  (m =? nan_val)%float = false → (replace_marker nan_val m x =? nan_val)%float = false.
Proof. intros Hm. unfold replace_marker. by destruct (x =? nan_val)%float eqn:Hx. Qed.

Lemma replace_marker_idempotent nan_val m x :
  replace_marker nan_val m (replace_marker nan_val m x) = replace_marker nan_val m x.
Proof.
  unfold replace_marker. destruct (x =? nan_val)%float eqn:Hx.
  - by destruct (m =? nan_val)%float.
  - by rewrite Hx.
Qed.

(** X17. [impute_median] works in place.  It returns the array [X] itself and
    changes no other array; in every row the elements equal to the marker
    [nan_val] have become the median of their column and the others are as
    they were.  The medians are those given, or, when none are given, the
    medians of the elements of each column that differ from the marker; when
    no median equals the marker, no element of [X] equals it afterwards. *)
Theorem impute_median_replaces_markers median σ X c rows train_medians nan_val :
  points_to σ X (Mat c rows) → rectangular c rows →
  match train_medians with Some ms => c ≤ length ms | None => True end →
  ∃ σ' ms,
    impute_median median X train_medians nan_val σ = Ok ((X, ms), σ')
    ∧ ms = match train_medians with
           | Some ms => ms
           | None => column_medians median nan_val c rows
           end
    ∧ points_to σ' X (Mat c (impute_row nan_val ms <$> rows))
    ∧ modifies_only (buf X) σ σ'
    ∧ (Forall (λ m, (m =? nan_val)%float = false) ms →
       Forall (Forall (λ x, (x =? nan_val)%float = false)) (impute_row nan_val ms <$> rows)).
Proof.
  intros HX Hrect Hms.
  destruct (impute_median_run median σ X c rows train_medians nan_val HX Hrect)
    as (σ' & Hrun & HX' & M').
  { destruct train_medians; [done|]. by rewrite length_column_medians. }
  eexists σ', _. split; [exact Hrun|]. split; [done|]. split; [done|]. split; [done|].
  intros Hclean. apply Forall_fmap, Forall_forall. intros row _. simpl.
  unfold impute_row. apply Forall_lookup. intros j x' Hx'.
  apply lookup_zip_with_Some in Hx' as (x & m & -> & Hx & Hm).
  apply replace_marker_clean. rewrite Forall_lookup in Hclean. by eapply Hclean.
Qed.

Lemma impute_median_replaces_markers_witness :
  (points_to Dataset.σ Dataset.X (Mat 3 Dataset.rows) ∧ rectangular 3 Dataset.rows)
  ∧ ∃ σ' ms,
      impute_median Dataset.median Dataset.X None (-999) Dataset.σ = Ok ((Dataset.X, ms), σ')
      ∧ ms = column_medians Dataset.median (-999) 3 Dataset.rows
      ∧ points_to σ' Dataset.X (Mat 3 (impute_row (-999) ms <$> Dataset.rows))
      ∧ modifies_only (buf Dataset.X) Dataset.σ σ'
      ∧ (Forall (λ m, (m =? -999)%float = false) ms →
         Forall (Forall (λ x, (x =? -999)%float = false))
                (impute_row (-999) ms <$> Dataset.rows)).
Proof.
  split; [split; [reflexivity | repeat constructor]|].
  apply (impute_median_replaces_markers Dataset.median Dataset.σ Dataset.X 3 Dataset.rows
           None (-999)); [reflexivity | repeat constructor | exact I].
Defined.

Lemma rectangular_impute_row nan_val ms c rows :
  rectangular c rows → c ≤ length ms → rectangular c (impute_row nan_val ms <$> rows).
Proof.
  intros Hrect Hms. unfold rectangular in *. apply Forall_fmap.
  eapply Forall_impl; [exact Hrect|]. intros row <-. simpl.
  unfold impute_row. rewrite length_zip_with. lia.
Qed.

Lemma impute_row_idempotent nan_val ms row :
  impute_row nan_val ms (impute_row nan_val ms row) = impute_row nan_val ms row.
Proof.
  unfold impute_row. apply list_eq. intros j. rewrite !lookup_zip_with.
  destruct (row !! j) as [x|]; simpl; [|done].
  destruct (ms !! j) as [m|]; simpl; [|done].
  by rewrite replace_marker_idempotent.
Qed.

(** X18. imputing again with the medians a call has returned changes nothing:
    the second call finds [X] as the first has left it and leaves it so. *)
Theorem impute_median_again median σ X c rows train_medians nan_val :
  points_to σ X (Mat c rows) → rectangular c rows →
  match train_medians with Some ms => c ≤ length ms | None => True end →
  ∃ σ1 ms a σ2,
    impute_median median X train_medians nan_val σ = Ok ((X, ms), σ1)
    ∧ points_to σ1 X a
    ∧ impute_median median X (Some ms) nan_val σ1 = Ok ((X, ms), σ2)
    ∧ points_to σ2 X a.
Proof.
  intros HX Hrect Hms.
  set (ms := match train_medians with
             | Some ms => ms
             | None => column_medians median nan_val c rows
             end).
  assert (c ≤ length ms) as Hlen.
  { unfold ms. destruct train_medians; [done|]. by rewrite length_column_medians. }
  destruct (impute_median_run median σ X c rows train_medians nan_val HX Hrect Hlen)
    as (σ1 & Hrun1 & HX1 & _).
  destruct (impute_median_run median σ1 X c (impute_row nan_val ms <$> rows) (Some ms) nan_val
              HX1 (rectangular_impute_row _ _ _ _ Hrect Hlen) Hlen)
    as (σ2 & Hrun2 & HX2 & _).
  exists σ1, ms, (Mat c (impute_row nan_val ms <$> rows)), σ2.
  split; [done|]. split; [done|]. split; [done|].
  rewrite <- list_fmap_compose in HX2.
  rewrite (list_fmap_ext _ (impute_row nan_val ms ∘ impute_row nan_val ms) rows); [done|].
  intros j row _. simpl. by rewrite impute_row_idempotent.
Qed.

Lemma impute_median_again_witness :
  (points_to Dataset.σ Dataset.X (Mat 3 Dataset.rows) ∧ rectangular 3 Dataset.rows)
  ∧ ∃ σ1 ms a σ2,
      impute_median Dataset.median Dataset.X None (-999) Dataset.σ = Ok ((Dataset.X, ms), σ1)
      ∧ points_to σ1 Dataset.X a
      ∧ impute_median Dataset.median Dataset.X (Some ms) (-999) σ1 = Ok ((Dataset.X, ms), σ2)
      ∧ points_to σ2 Dataset.X a.
Proof.
  split; [split; [reflexivity | repeat constructor]|].
  apply (impute_median_again Dataset.median Dataset.σ Dataset.X 3 Dataset.rows None (-999));
    [reflexivity | repeat constructor | exact I].
Defined.

Lemma impute_row_nan ms row : length row ≤ length ms → impute_row nan ms row = row.
Proof.
  intros Hlen. unfold impute_row. apply list_eq. intros j. rewrite lookup_zip_with.
  destruct (row !! j) as [x|] eqn:Hx; simpl; [|done].
  destruct (ms !! j) as [m|] eqn:Hm; simpl.
  - unfold replace_marker. by rewrite eqb_nan_r.
  - apply lookup_lt_Some in Hx. apply lookup_ge_None in Hm. lia.
Qed.

(** X19. a marker that is NaN marks nothing, since no float equals NaN:
    [impute_median] then leaves [X] as it is, and the medians it computes
    when none are given are those of the whole columns. *)
Theorem impute_median_nan_marker median σ X c rows train_medians nan_val :
  points_to σ X (Mat c rows) → rectangular c rows →
  match train_medians with Some ms => c ≤ length ms | None => True end →
  is_nan nan_val = true →
  ∃ σ' ms,
    impute_median median X train_medians nan_val σ = Ok ((X, ms), σ')
    ∧ points_to σ' X (Mat c rows)
    ∧ ms = match train_medians with
           | Some ms => ms
           | None => (λ i, median (column i rows)) <$> seq 0 c
           end.
Proof.
  intros HX Hrect Hms Hnan%is_nan_true_SF%is_nan_SF. subst nan_val.
  set (ms := match train_medians with
             | Some ms => ms
             | None => column_medians median nan c rows
             end).
  assert (c ≤ length ms) as Hlen.
  { unfold ms. destruct train_medians; [done|]. by rewrite length_column_medians. }
  destruct (impute_median_run median σ X c rows train_medians nan HX Hrect Hlen)
    as (σ' & Hrun & HX' & _).
  exists σ', ms. split; [done|]. split.
  - rewrite (list_fmap_ext _ id rows), list_fmap_id in HX'; [done|].
    intros j row Hrow. simpl. apply impute_row_nan.
    unfold rectangular in Hrect. rewrite Forall_lookup in Hrect.
    by rewrite (Hrect j row Hrow).
  - unfold ms. destruct train_medians; [done|]. unfold column_medians.
    apply list_fmap_ext. intros _ i _. f_equal.
    induction (column i rows) as [|x xs IH]; [done|].
    rewrite filter_cons_True by apply eqb_nan_r. by rewrite IH.
Qed.

Lemma impute_median_nan_marker_witness :
  (points_to Dataset.σ Dataset.X (Mat 3 Dataset.rows) ∧ rectangular 3 Dataset.rows
   ∧ is_nan nan = true)
  ∧ ∃ σ' ms,
      impute_median Dataset.median Dataset.X None nan Dataset.σ = Ok ((Dataset.X, ms), σ')
      ∧ points_to σ' Dataset.X (Mat 3 Dataset.rows)
      ∧ ms = (λ i, Dataset.median (column i Dataset.rows)) <$> seq 0 3.
Proof.
  split; [split; [reflexivity | split; [repeat constructor | reflexivity]]|].
  apply (impute_median_nan_marker Dataset.median Dataset.σ Dataset.X 3 Dataset.rows None nan);
    [reflexivity | repeat constructor | exact I | reflexivity].
Defined.

(** X20. with fewer medians than [X] has columns, [impute_median] raises
    IndexError. *)
Theorem impute_median_short_medians median σ X c rows ms nan_val :
  points_to σ X (Mat c rows) → length ms < c →
  impute_median median X (Some ms) nan_val σ = Raise IndexError.
Proof.
  intros HX Hms. unfold impute_median.
  rewrite (bind_run _ _ _ _ _ (read_mat_run _ _ _ _ HX)).
  erewrite bind_run; [|reflexivity]. apply bind_Raise.
  apply (column_loop_raises _ (λ j, replace_marker nan_val (default nan_val (ms !! j)))
           X c (length ms) IndexError) with (rows := rows); [done| | |done].
  - intros i σ1 rows1 Hi HX1.
    destruct (lookup_lt_is_Some_2 ms i Hi) as [m Hm].
    rewrite bind_lift, (item_lookup _ _ _ Hm), Hm. simpl.
    by apply store_column_points_to.
  - intros σ1. rewrite bind_lift, item_out_of_range; done.
Qed.

Lemma impute_median_short_medians_witness :
  (points_to Dataset.σ Dataset.X (Mat 3 Dataset.rows) ∧ length [2; 7]%float < 3)
  ∧ impute_median Dataset.median Dataset.X (Some [2; 7]%float) (-999) Dataset.σ
    = Raise IndexError.
Proof.
  split; [split; [reflexivity | simpl; lia]|].
  apply (impute_median_short_medians Dataset.median Dataset.σ Dataset.X 3 Dataset.rows
           [2; 7]%float (-999)); [reflexivity | simpl; lia].
Defined.

(** ** [bound_outliers] *)

Lemma ltb_irrefl x : (x <? x)%float = false.
Proof.
  rewrite ltb_spec. unfold SFltb.
  destruct (Prim2SF x) as [s|s| |s m e] eqn:Hx; [| |done|];
    (assert (SFeqb (Prim2SF x) (Prim2SF x) = true) as Heq
       by (apply SFeqb_refl; by rewrite Hx));
    rewrite Hx in Heq; unfold SFeqb in Heq;
    by destruct (SFcompare _ _) as [[]|].
Qed.

Lemma leb_not_ltb x y : (x <=? y)%float = true → (y <? x)%float = false.
Proof.
  rewrite leb_spec, ltb_spec. unfold SFleb, SFltb.
  rewrite (SFcompare_antisym (Prim2SF x) (Prim2SF y)).
  by destruct (SFcompare (Prim2SF x) (Prim2SF y)) as [[]|].
Qed.

(** Bounding one element twice is bounding it once. *)
Lemma bound_idempotent lower upper x :
  lower_to upper (raise_to lower (lower_to upper (raise_to lower x)))
  = lower_to upper (raise_to lower x).
Proof.
  unfold lower_to, raise_to.
  destruct (x <? lower)%float eqn:Ha.
  - destruct (upper <? lower)%float eqn:Hb.
    + by rewrite Hb, Hb.
    + by rewrite ltb_irrefl, Hb.
  - destruct (upper <? x)%float eqn:Hb.
    + destruct (upper <? lower)%float eqn:Hc.
      * by rewrite Hc.
      * by rewrite ltb_irrefl.
    + by rewrite Ha, Hb.
Qed.

(** A bounded element that is a number lies between the fences, when the
    lower fence is at most the upper one. *)
Lemma bound_between lower upper x :
  (lower <=? upper)%float = true → is_nan x = false →
  (lower <=? lower_to upper (raise_to lower x))%float = true
  ∧ (lower_to upper (raise_to lower x) <=? upper)%float = true.
Proof.
  intros Hlu Hx. pose proof (leb_not_ltb _ _ Hlu) as Hul.
  assert (is_nan lower = false ∧ is_nan upper = false) as [Hl Hu].
  { rewrite leb_spec in Hlu. unfold SFleb in Hlu.
    split; apply not_true_is_false; intros H%is_nan_true_SF; rewrite H in Hlu;
      [done|]. by destruct (Prim2SF lower). }
  unfold lower_to, raise_to.
  destruct (x <? lower)%float eqn:Ha.
  - rewrite Hul. split; [by apply leb_of_not_ltb, ltb_irrefl | done].
  - destruct (upper <? x)%float eqn:Hb.
    + split; [done | by apply leb_of_not_ltb, ltb_irrefl].
    + split; by apply leb_of_not_ltb.
Qed.

Lemma fences_zip uq lq :
  zip_with PrimFloat.sub lq (PrimFloat.mul 1.5 <$> zip_with PrimFloat.sub uq lq)
  = zip_with lower_fence uq lq
  ∧ zip_with PrimFloat.add uq (PrimFloat.mul 1.5 <$> zip_with PrimFloat.sub uq lq)
    = zip_with upper_fence uq lq.
Proof.
  split; apply list_eq; intros j;
    rewrite !lookup_zip_with, list_lookup_fmap, lookup_zip_with;
    destruct (uq !! j), (lq !! j); done.
Qed.

(** The loop that bounds, for fences that cover the columns. *)
Lemma bound_loop_run σ X c rows lowers uppers :
  points_to σ X (Mat c rows) → rectangular c rows →
  c ≤ length lowers → c ≤ length uppers →
  ∃ σ', for_each (seq 0 c) tt (λ i _,
          lower ← lift (item lowers i);
          _ ← store_column X i (raise_to lower);
          upper ← lift (item uppers i);
          store_column X i (lower_to upper)) σ = Ok (tt, σ')
        ∧ points_to σ' X (Mat c (bound_row lowers uppers <$> rows))
        ∧ modifies_only (buf X) σ σ'.
Proof.
  intros HX Hrect Hl Hu.
  destruct (column_loop_run
              (λ i _, lower ← lift (item lowers i);
                      _ ← store_column X i (raise_to lower);
                      upper ← lift (item uppers i);
                      store_column X i (lower_to upper))
              (λ j x, lower_to (default 0%float (uppers !! j))
                        (raise_to (default 0%float (lowers !! j)) x)) X c)
    with (σ := σ) (rows := rows) as (σ' & Hrun & HX' & M'); [|done..|].
  { intros i σ1 rows1 Hi HX1.
    destruct (lookup_lt_is_Some_2 lowers i ltac:(lia)) as [lower Hlower].
    destruct (lookup_lt_is_Some_2 uppers i ltac:(lia)) as [upper Hupper].
    rewrite bind_lift, (item_lookup _ _ _ Hlower), Hlower, Hupper. simpl.
    destruct (store_column_points_to σ1 X c rows1 i (raise_to lower) HX1)
      as (σ2 & Hrun2 & HX2 & M2).
    destruct (store_column_points_to σ2 X c _ i (lower_to upper) HX2)
      as (σ3 & Hrun3 & HX3 & M3).
    exists σ3. split; [|split].
    - rewrite (bind_run _ _ _ _ _ Hrun2), bind_lift, (item_lookup _ _ _ Hupper). done.
    - rewrite <- list_fmap_compose in HX3.
      rewrite (list_fmap_ext _ (alter (lower_to upper) i ∘ alter (raise_to lower) i) rows1);
        [done|].
      intros k row _. simpl. by rewrite list_alter_alter_eq.
    - by eapply modifies_only_trans. }
  exists σ'. split; [done|]. split; [|done].
  rewrite (list_fmap_ext _ (map_row (λ j x, lower_to (default 0%float (uppers !! j))
                                             (raise_to (default 0%float (lowers !! j)) x)))
             rows); [done|].
  intros k row Hrow. symmetry. unfold bound_row. apply map_row_zip.
  - unfold rectangular in Hrect. rewrite Forall_lookup in Hrect.
    rewrite (Hrect k row Hrow), length_zip. lia.
  - intros j x [lower upper] _ [Hlower Hupper]%lookup_zip_Some.
    by rewrite Hlower, Hupper.
Qed.

Lemma collect_length {A B} (f : A → result B) xs ys :
  collect f xs = Ok ys → length ys = length xs.
Proof.
  revert ys. induction xs as [|x xs IH]; intros ys; simpl.
  - by intros [= <-].
  - destruct (f x) as [y|e]; [|done]. destruct (collect f xs) as [ys'|e]; [|done].
    intros [= <-]. simpl. by rewrite (IH ys').
Qed.

Lemma quantiles_length quantile q c rows qv :
  quantiles quantile q c rows = Ok qv → length qv = c.
Proof.
  intros H%collect_length. unfold columns in H. by rewrite length_fmap, length_seq in H.
Qed.

Lemma keeps_others_modifies l σ σ' : modifies_only l σ σ' → keeps_others l σ σ'.
Proof. intros (L & _ & H). split; [lia|]. intros l' Hl _. by apply H. Qed.

Lemma keeps_others_extends l σ σ' : extends σ σ' → keeps_others l σ σ'.
Proof.
  intros E. split; [by apply extends_length|]. intros l' _ Hl.
  destruct (lookup_lt_is_Some_2 (heap σ) l' Hl) as [a Ha].
  transitivity (Some a); [by eapply extends_lookup | done].
Qed.

Lemma keeps_others_trans l σ1 σ2 σ3 :
  keeps_others l σ1 σ2 → keeps_others l σ2 σ3 → keeps_others l σ1 σ3.
Proof.
  intros [L1 H1] [L2 H2]. split; [lia|]. intros l' Hl Hlt.
  transitivity (heap σ2 !! l'); [apply H2; (done || lia) | by apply H1].
Qed.

(** An optional quartile: the array given, or a new array with the quartile
    of every column. *)
Lemma quartile_or_run quantile σ X c rows given q qv :
  points_to σ X (Mat c rows) →
  match given with
  | Some a => points_to σ a (Vec qv)
  | None => quantiles quantile q c rows = Ok qv
  end →
  ∃ a σ', quartile_or quantile given q X σ = Ok (a, σ')
          ∧ points_to σ' a (Vec qv) ∧ after σ 0 σ'
          ∧ match given with
            | Some a' => a = a' ∧ σ' = σ
            | None => buf a = length (heap σ)
            end.
Proof.
  intros HX Hq. destruct given as [a|]; simpl.
  - exists a, σ. repeat split; done.
  - rewrite (bind_run _ _ _ _ _ (read_mat_run _ _ _ _ HX)), bind_lift, Hq.
    eexists _, _. split; [reflexivity|]. split; [apply points_to_fresh|].
    split; [|done]. split; [by eexists | simpl; lia].
Qed.

(** The run of [bound_outliers], with quartiles given or computed. *)
Lemma bound_outliers_run quantile σ X c rows upper_quart lower_quart uq lq :
  points_to σ X (Mat c rows) → rectangular c rows →
  match upper_quart with
  | Some a => points_to σ a (Vec uq)
  | None => quantiles quantile 0.75 c rows = Ok uq
  end →
  match lower_quart with
  | Some a => points_to σ a (Vec lq)
  | None => quantiles quantile 0.25 c rows = Ok lq
  end →
  length uq = c → length lq = c →
  ∃ u l σ1 σ',
    bound_outliers quantile X upper_quart lower_quart σ = Ok ((X, u, l), σ')
    ∧ after σ 0 σ1 ∧ modifies_only (buf X) σ1 σ'
    ∧ points_to σ1 u (Vec uq) ∧ points_to σ1 l (Vec lq)
    ∧ points_to σ' X (Mat c (bound_row (zip_with lower_fence uq lq)
                                       (zip_with upper_fence uq lq) <$> rows))
    ∧ match upper_quart with
      | Some a => u = a
      | None => length (heap σ) ≤ buf u
      end
    ∧ match lower_quart with
      | Some a => l = a
      | None => length (heap σ) ≤ buf l
      end
    ∧ (is_Some upper_quart → is_Some lower_quart → σ1 = σ).
Proof.
  intros HX Hrect Hu Hl Hulen Hllen.
  destruct (quartile_or_run quantile σ X c rows upper_quart 0.75 uq HX Hu)
    as (u & σ1 & Hrun1 & Hpu & A1 & Hu').
  assert (points_to σ1 X (Mat c rows)) as HX1 by eauto.
  destruct (quartile_or_run quantile σ1 X c rows lower_quart 0.25 lq HX1)
    as (l & σ2 & Hrun2 & Hpl & A2 & Hl').
  { destruct lower_quart; eauto. }
  assert (points_to σ2 X (Mat c rows)) as HX2 by eauto.
  assert (points_to σ2 u (Vec uq)) as Hpu2 by eauto.
  destruct (bound_loop_run σ2 X c rows (zip_with lower_fence uq lq)
              (zip_with upper_fence uq lq) HX2 Hrect)
    as (σ' & Hloop & HX' & M'); [rewrite length_zip_with; lia..|].
  exists u, l, σ2, σ'. split; [|split; [eauto|split; [done|split; [done|split; [done|]]]]].
  - unfold bound_outliers.
    rewrite (bind_run _ _ _ _ _ Hrun1), (bind_run _ _ _ _ _ Hrun2).
    rewrite (bind_run _ _ _ _ _ (read_vec_run _ _ _ Hpu2)).
    rewrite (bind_run _ _ _ _ _ (read_vec_run _ _ _ Hpl)).
    rewrite bind_lift, broadcast2_same by congruence.
    destruct (fences_zip uq lq) as [Hlow Hup].
    rewrite bind_lift, broadcast2_same, Hlow
      by (rewrite length_fmap, length_zip_with; lia).
    rewrite bind_lift, broadcast2_same, Hup
      by (rewrite length_fmap, length_zip_with; lia).
    rewrite (bind_run _ _ _ _ _ (read_mat_run _ _ _ _ HX2)).
    rewrite (bind_run _ _ _ _ _ Hloop). done.
  - split; [done|]. split; [|split].
    + destruct upper_quart; [by destruct Hu'|]. lia.
    + destruct lower_quart; [by destruct Hl'|].
      destruct A1 as [E1 _]. apply extends_length in E1. lia.
    + intros [a ->] [b ->]. destruct Hu' as [_ ->], Hl' as [_ ->]. done.
Qed.

Lemma raise_to_nan lower x : is_nan x = true → raise_to lower x = x.
Proof.
  intros H%is_nan_true_SF. unfold raise_to. by rewrite ltb_spec, H.
Qed.

Lemma lower_to_nan upper x : is_nan x = true → lower_to upper x = x.
Proof.
  intros H%is_nan_true_SF. unfold lower_to. rewrite ltb_spec, H.
  by destruct (Prim2SF upper).
Qed.

Lemma bound_row_within lowers uppers row :
  within_fences lowers uppers (bound_row lowers uppers row).
Proof.
  intros j x' lower upper Hx' Hlower Hupper Hlu Hnan.
  unfold bound_row in Hx'.
  apply lookup_zip_with_Some in Hx' as (x & [lower' upper'] & -> & Hx & Hz).
  apply lookup_zip_Some in Hz as [Hl Hu].
  rewrite Hlower in Hl. rewrite Hupper in Hu. injection Hl as <-. injection Hu as <-.
  destruct (is_nan x) eqn:Hxnan.
  - by rewrite (raise_to_nan _ _ Hxnan), (lower_to_nan _ _ Hxnan), Hxnan in Hnan.
  - by apply bound_between.
Qed.

(** X21. [bound_outliers] with the quartiles of both sides given works in
    place.  It returns [X] itself and the two quartile arrays it was given,
    and changes no other array than [X]; in every row the element of column
    [j] below the lower fence [lq[j] - 1.5*(uq[j]-lq[j])] has become that
    fence, the one above the upper fence [uq[j] + 1.5*(uq[j]-lq[j])] has
    become that fence, and the others are as they were, so that afterwards
    every element that is a number lies between the fences of its column. *)
Theorem bound_outliers_bounds_in_place quantile σ X c rows upper_quart lower_quart uq lq :
  points_to σ X (Mat c rows) → rectangular c rows →
  points_to σ upper_quart (Vec uq) → points_to σ lower_quart (Vec lq) →
  length uq = c → length lq = c →
  ∃ σ' rows',
    bound_outliers quantile X (Some upper_quart) (Some lower_quart) σ
    = Ok ((X, upper_quart, lower_quart), σ')
    ∧ points_to σ' X (Mat c rows')
    ∧ rows' = bound_row (zip_with lower_fence uq lq) (zip_with upper_fence uq lq) <$> rows
    ∧ modifies_only (buf X) σ σ'
    ∧ Forall (within_fences (zip_with lower_fence uq lq) (zip_with upper_fence uq lq)) rows'.
Proof.
  intros HX Hrect Hu Hl Hulen Hllen.
  destruct (bound_outliers_run quantile σ X c rows (Some upper_quart) (Some lower_quart)
              uq lq HX Hrect Hu Hl Hulen Hllen)
    as (u & l & σ1 & σ' & Hrun & A1 & M' & Hpu & Hpl & HX' & -> & -> & Hsame).
  rewrite Hsame in * by done.
  eexists σ', _. split; [done|]. split; [done|]. split; [done|]. split; [done|].
  apply Forall_fmap, Forall_forall. intros row _. apply bound_row_within.
Qed.

Lemma bound_outliers_bounds_in_place_witness :
  (points_to Dataset.σ Dataset.X (Mat 3 Dataset.rows) ∧ rectangular 3 Dataset.rows
   ∧ points_to Dataset.σ Dataset.upper_quart (Vec [10; 8; 6]%float)
   ∧ points_to Dataset.σ Dataset.lower_quart (Vec [0; 6; 4]%float))
  ∧ ∃ σ' rows',
      bound_outliers Dataset.quantile Dataset.X (Some Dataset.upper_quart)
        (Some Dataset.lower_quart) Dataset.σ
      = Ok ((Dataset.X, Dataset.upper_quart, Dataset.lower_quart), σ')
      ∧ points_to σ' Dataset.X (Mat 3 rows')
      ∧ rows' = [[1; 7; 1]; [2; 7; 4]; [-15; 7; 6]; [25; 7; 5]]%float
      ∧ modifies_only (buf Dataset.X) Dataset.σ σ'
      ∧ Forall (within_fences [-15; 3; 1]%float [25; 11; 9]%float) rows'.
Proof.
  split; [split; [reflexivity | split; [repeat constructor | split; reflexivity]]|].
  apply (bound_outliers_bounds_in_place Dataset.quantile Dataset.σ Dataset.X 3 Dataset.rows
           Dataset.upper_quart Dataset.lower_quart [10; 8; 6]%float [0; 6; 4]%float);
    first [reflexivity | repeat constructor].
Defined.

Lemma rectangular_bound_row lowers uppers c rows :
  rectangular c rows → c ≤ length lowers → c ≤ length uppers →
  rectangular c (bound_row lowers uppers <$> rows).
Proof.
  intros Hrect Hl Hu. unfold rectangular in *. apply Forall_fmap.
  eapply Forall_impl; [exact Hrect|]. intros row <-. simpl.
  unfold bound_row. rewrite length_zip_with, length_zip. lia.
Qed.

Lemma bound_row_idempotent lowers uppers row :
  bound_row lowers uppers (bound_row lowers uppers row) = bound_row lowers uppers row.
Proof.
  unfold bound_row. apply list_eq. intros j. rewrite !lookup_zip_with.
  destruct (row !! j) as [x|], (lowers !! j) as [lower|], (uppers !! j) as [upper|];
    simpl; rewrite ?bound_idempotent; done.
Qed.

(** X22. without quartiles given, [bound_outliers] computes the quartiles of
    every column of [X] as it is before any store, bounds [X] in place with
    the fences they give, and returns them in two new arrays; no array of the
    caller other than [X] is changed. *)
Theorem bound_outliers_computes_quartiles quantile σ X c rows uq lq :
  points_to σ X (Mat c rows) → rectangular c rows →
  quantiles quantile 0.75 c rows = Ok uq → quantiles quantile 0.25 c rows = Ok lq →
  ∃ u l σ',
    bound_outliers quantile X None None σ = Ok ((X, u, l), σ')
    ∧ points_to σ' u (Vec uq) ∧ points_to σ' l (Vec lq)
    ∧ length (heap σ) ≤ buf u ∧ length (heap σ) ≤ buf l
    ∧ points_to σ' X (Mat c (bound_row (zip_with lower_fence uq lq)
                                       (zip_with upper_fence uq lq) <$> rows))
    ∧ keeps_others (buf X) σ σ'.
Proof.
  intros HX Hrect Hu Hl.
  pose proof (quantiles_length _ _ _ _ _ Hu) as Hulen.
  pose proof (quantiles_length _ _ _ _ _ Hl) as Hllen.
  destruct (bound_outliers_run quantile σ X c rows None None uq lq HX Hrect Hu Hl Hulen Hllen)
    as (u & l & σ1 & σ' & Hrun & A1 & M' & Hpu & Hpl & HX' & Hfu & Hfl & _).
  assert (buf X < length (heap σ)) as HXlt.
  { apply points_to_lookup in HX as (b & Hb & _). by eapply lookup_lt_Some. }
  exists u, l, σ'. split; [done|].
  split; [eapply modifies_only_points_to; [exact M' | lia | done]|].
  split; [eapply modifies_only_points_to; [exact M' | lia | done]|].
  split; [done|]. split; [done|]. split; [done|].
  eapply keeps_others_trans; [apply keeps_others_extends, A1 | by apply keeps_others_modifies].
Qed.

Lemma bound_outliers_computes_quartiles_witness :
  (points_to Dataset.σ Dataset.X (Mat 3 Dataset.rows) ∧ rectangular 3 Dataset.rows
   ∧ quantiles Dataset.quantile 0.75 3 Dataset.rows = Ok [40; 7; 6]%float
   ∧ quantiles Dataset.quantile 0.25 3 Dataset.rows = Ok [-999; 7; -999]%float)
  ∧ ∃ u l σ',
      bound_outliers Dataset.quantile Dataset.X None None Dataset.σ
      = Ok ((Dataset.X, u, l), σ')
      ∧ points_to σ' u (Vec [40; 7; 6]%float) ∧ points_to σ' l (Vec [-999; 7; -999]%float)
      ∧ length (heap Dataset.σ) ≤ buf u ∧ length (heap Dataset.σ) ≤ buf l
      ∧ points_to σ' Dataset.X
          (Mat 3 (bound_row (zip_with lower_fence [40; 7; 6]%float [-999; 7; -999]%float)
                            (zip_with upper_fence [40; 7; 6]%float [-999; 7; -999]%float)
                    <$> Dataset.rows))
      ∧ keeps_others (buf Dataset.X) Dataset.σ σ'.
Proof.
  split; [split; [reflexivity | split; [repeat constructor | split; reflexivity]]|].
  apply (bound_outliers_computes_quartiles Dataset.quantile Dataset.σ Dataset.X 3 Dataset.rows
           [40; 7; 6]%float [-999; 7; -999]%float);
    first [reflexivity | repeat constructor].
Defined.

(** X23. bounding again with the quartiles a call has returned changes
    nothing: the second call finds [X] as the first has left it and leaves
    it so. *)
Theorem bound_outliers_again quantile σ X c rows uq lq :
  points_to σ X (Mat c rows) → rectangular c rows →
  quantiles quantile 0.75 c rows = Ok uq → quantiles quantile 0.25 c rows = Ok lq →
  ∃ u l σ1 a σ2,
    bound_outliers quantile X None None σ = Ok ((X, u, l), σ1)
    ∧ points_to σ1 X a
    ∧ bound_outliers quantile X (Some u) (Some l) σ1 = Ok ((X, u, l), σ2)
    ∧ points_to σ2 X a.
Proof.
  intros HX Hrect Hu Hl.
  pose proof (quantiles_length _ _ _ _ _ Hu) as Hulen.
  pose proof (quantiles_length _ _ _ _ _ Hl) as Hllen.
  destruct (bound_outliers_run quantile σ X c rows None None uq lq HX Hrect Hu Hl Hulen Hllen)
    as (u & l & σ0 & σ1 & Hrun1 & A0 & M1 & Hpu & Hpl & HX1 & Hfu & Hfl & _).
  assert (buf X < length (heap σ)) as HXlt.
  { apply points_to_lookup in HX as (b & Hb & _). by eapply lookup_lt_Some. }
  assert (points_to σ1 u (Vec uq)) as Hpu1
    by (eapply modifies_only_points_to; [exact M1 | lia | done]).
  assert (points_to σ1 l (Vec lq)) as Hpl1
    by (eapply modifies_only_points_to; [exact M1 | lia | done]).
  set (lowers := zip_with lower_fence uq lq) in *.
  set (uppers := zip_with upper_fence uq lq) in *.
  assert (c ≤ length lowers ∧ c ≤ length uppers) as [Hlow Hupp]
    by (unfold lowers, uppers; rewrite !length_zip_with; lia).
  destruct (bound_outliers_run quantile σ1 X c (bound_row lowers uppers <$> rows)
              (Some u) (Some l) uq lq HX1 (rectangular_bound_row _ _ _ _ Hrect Hlow Hupp)
              Hpu1 Hpl1 Hulen Hllen)
    as (u' & l' & σ1' & σ2 & Hrun2 & _ & _ & _ & _ & HX2 & -> & -> & _).
  exists u, l, σ1, (Mat c (bound_row lowers uppers <$> rows)), σ2.
  split; [done|]. split; [done|]. split; [done|].
  fold lowers uppers in HX2. rewrite <- list_fmap_compose in HX2.
  rewrite (list_fmap_ext _ (bound_row lowers uppers ∘ bound_row lowers uppers) rows); [done|].
  intros j row _. simpl. by rewrite bound_row_idempotent.
Qed.

Lemma bound_outliers_again_witness :
  (points_to Dataset.σ Dataset.X (Mat 3 Dataset.rows) ∧ rectangular 3 Dataset.rows
   ∧ quantiles Dataset.quantile 0.75 3 Dataset.rows = Ok [40; 7; 6]%float
   ∧ quantiles Dataset.quantile 0.25 3 Dataset.rows = Ok [-999; 7; -999]%float)
  ∧ ∃ u l σ1 a σ2,
      bound_outliers Dataset.quantile Dataset.X None None Dataset.σ
      = Ok ((Dataset.X, u, l), σ1)
      ∧ points_to σ1 Dataset.X a
      ∧ bound_outliers Dataset.quantile Dataset.X (Some u) (Some l) σ1
        = Ok ((Dataset.X, u, l), σ2)
      ∧ points_to σ2 Dataset.X a.
Proof.
  split; [split; [reflexivity | split; [repeat constructor | split; reflexivity]]|].
  apply (bound_outliers_again Dataset.quantile Dataset.σ Dataset.X 3 Dataset.rows
           [40; 7; 6]%float [-999; 7; -999]%float);
    first [reflexivity | repeat constructor].
Defined.

(** ** [remove_outliers] *)

Lemma pure_column_loop (body : nat → list (list float) → M (list (list float)))
    (G : nat → float → float) k rows σ :
  (∀ i acc σ, i < k → body i acc σ = Ok (alter (G i) i <$> acc, σ)) →
  for_each (seq 0 k) rows body σ = Ok (imap (upto k G) <$> rows, σ).
Proof.
  intros Hbody. induction k as [|k IH].
  - simpl. unfold mret, M_ret. do 2 f_equal.
    rewrite (list_fmap_ext _ id rows); [by rewrite list_fmap_id|].
    intros j row _. apply imap_upto_0.
  - rewrite seq_S, for_each_snoc. simpl.
    rewrite (bind_run _ _ _ _ _ (IH ltac:(intros; apply Hbody; lia))).
    rewrite Hbody by lia. do 2 f_equal. rewrite <- list_fmap_compose.
    apply list_fmap_ext. intros j row _. simpl. apply alter_upto.
Qed.

Lemma truthy_of_bool b : truthy (of_bool b) = b.
Proof. by destruct b. Qed.

(** The array [custom_keep] once its columns have been overwritten. *)
Lemma custom_keep_run σ c rows custom_range :
  rectangular c rows →
  match custom_range with Some ranges => length ranges = c | None => True end →
  match custom_range with
  | Some custom_range =>
      if decide (length custom_range ≠ c) then raise ValueError
      else for_each (seq 0 (length custom_range)) rows (λ i custom_keep,
             range ← lift (item custom_range i);
             mret (custom_keep_column range i custom_keep))
  | None => mret (fmap (M:=list) (λ _, of_bool true) <$> rows)
  end σ
  = Ok (map_row (λ j x, of_bool (custom_ok custom_range j x)) <$> rows, σ).
Proof.
  intros Hrect Hlen. destruct custom_range as [ranges|].
  - rewrite decide_False by (intros ?; done).
    rewrite (pure_column_loop _ (λ j x, of_bool (custom_ok (Some ranges) j x))).
    + do 2 f_equal. apply list_fmap_ext. intros j row Hrow. apply imap_upto_all.
      unfold rectangular in Hrect. rewrite Forall_lookup in Hrect.
      rewrite (Hrect j row Hrow). lia.
    + intros i acc σ1 Hi.
      destruct (lookup_lt_is_Some_2 ranges i Hi) as [range Hrange].
      rewrite bind_lift, (item_lookup _ _ _ Hrange). unfold mret, M_ret. do 2 f_equal.
      unfold custom_keep_column, custom_ok. rewrite Hrange.
      by destruct range as [[lower upper]|].
  - unfold mret, M_ret. do 2 f_equal. apply list_fmap_ext. intros j row _.
    unfold map_row. simpl. apply list_eq. intros k.
    rewrite list_lookup_fmap, list_lookup_imap. by destruct (row !! k).
Qed.

Lemma forallb_id_lookup (l : list bool) :
  forallb id l = true ↔ ∀ j b, l !! j = Some b → b = true.
Proof.
  induction l as [|a l IH]; simpl.
  - split; [by intros _ j b | done].
  - rewrite andb_true_iff, IH. split.
    + intros [Ha Hl] [|j] b; simpl; [by intros [= <-] | apply Hl].
    + intros H. split; [by apply (H 0) | intros j b Hb; by apply (H (S j))].
Qed.

(** The mask of the rows to keep. *)
Lemma to_keep_spec custom_range lowers uppers c rows :
  rectangular c rows → length lowers = c →
  let to_keep :=
    forallb id <$>
      logical_and_out
        (fmap (M:=list) truthy
           <$> (map_row (λ j x, of_bool (custom_ok custom_range j x)) <$> rows))
        ((λ row, zip_with (λ x lower, (lower <=? x)%float) row lowers) <$> rows)
        ((λ row, zip_with (λ x upper, (x <=? upper)%float) row uppers) <$> rows) in
  length to_keep = length rows
  ∧ ∀ i row, rows !! i = Some row →
      (to_keep !! i = Some true ↔ row_passes custom_range lowers row).
Proof.
  intros Hrect Hlen to_keep. unfold to_keep, logical_and_out. split.
  - by rewrite length_fmap, length_zip_with, !length_fmap, Nat.min_id.
  - intros i row Hrow.
    rewrite list_lookup_fmap, lookup_zip_with, !list_lookup_fmap, Hrow. simpl.
    assert (length row = c) as Hc.
    { unfold rectangular in Hrect. rewrite Forall_lookup in Hrect. by eapply Hrect. }
    split.
    + intros [= Hall]. rewrite forallb_id_lookup in Hall.
      intros j x lower Hx Hlower.
      apply andb_true_iff. rewrite <- (truthy_of_bool (custom_ok custom_range j x)).
      apply (Hall j). rewrite lookup_zip_with, list_lookup_fmap. unfold map_row.
      rewrite list_lookup_imap, lookup_zip_with, Hx, Hlower. done.
    + intros Hpass. f_equal. apply forallb_id_lookup. intros j b.
      rewrite lookup_zip_with, list_lookup_fmap. unfold map_row.
      rewrite list_lookup_imap, lookup_zip_with.
      destruct (row !! j) as [x|] eqn:Hx; simpl; [|done].
      destruct (lowers !! j) as [lower|] eqn:Hlower; simpl; [|done].
      intros [= <-]. rewrite truthy_of_bool. apply andb_true_iff. by eapply Hpass.
Qed.

Lemma mask_select_run {A} (mask : list bool) (xs : list A) :
  length mask = length xs → mask_select mask xs = Ok (masked mask xs).
Proof. intros H. unfold mask_select. by rewrite decide_True. Qed.

(** X24. [remove_outliers] keeps a row when each of its elements passes the
    custom range of its column and is at least the lower fence
    [lq - 1.5*(uq - lq)] of its column: the comparison with the upper fence
    is the third argument of [np.logical_and], the array its result is
    written into, so that no row is removed for an element above the upper
    fence.  The rows kept come back in a new array, with the labels of the
    same rows in another; [X], [y] and every other array are left as they
    were. *)
Theorem remove_outliers_keeps quantile σ X y c rows yv custom_range uq lq :
  points_to σ X (Mat c rows) → rectangular c rows → points_to σ y (Vec yv) →
  length yv = length rows →
  match custom_range with Some ranges => length ranges = c | None => True end →
  quantiles quantile 0.75 c rows = Ok uq → quantiles quantile 0.25 c rows = Ok lq →
  ∃ X' y' σ' to_keep,
    remove_outliers quantile X y custom_range σ = Ok ((X', y'), σ')
    ∧ length to_keep = length rows
    ∧ (∀ i row, rows !! i = Some row →
         (to_keep !! i = Some true
          ↔ row_passes custom_range (zip_with lower_fence uq lq) row))
    ∧ points_to σ' X' (Mat c (masked to_keep rows))
    ∧ points_to σ' y' (Vec (masked to_keep yv))
    ∧ extends σ σ' ∧ length (heap σ) ≤ buf X' ∧ length (heap σ) ≤ buf y'.
Proof.
  intros HX Hrect Hy Hn Hrange Hu Hl.
  pose proof (quantiles_length _ _ _ _ _ Hu) as Hulen.
  pose proof (quantiles_length _ _ _ _ _ Hl) as Hllen.
  set (lowers := zip_with lower_fence uq lq).
  set (uppers := zip_with upper_fence uq lq).
  set (to_keep :=
         forallb id <$>
           logical_and_out
             (fmap (M:=list) truthy
                <$> (map_row (λ j x, of_bool (custom_ok custom_range j x)) <$> rows))
             ((λ row, zip_with (λ x lower, (lower <=? x)%float) row lowers) <$> rows)
             ((λ row, zip_with (λ x upper, (x <=? upper)%float) row uppers) <$> rows)).
  destruct (to_keep_spec custom_range lowers uppers c rows Hrect) as [Hlen Hspec].
  { unfold lowers. rewrite length_zip_with. lia. }
  fold to_keep in Hlen, Hspec.
  set (σ1 := {| heap := heap σ ++ [Mat c (masked to_keep rows)]; draws := draws σ |}).
  set (X' := {| buf := length (heap σ); lo := 0; hi := nd_rows (Mat c (masked to_keep rows)) |}).
  set (σ2 := {| heap := heap σ1 ++ [Vec (masked to_keep yv)]; draws := draws σ1 |}).
  set (y' := {| buf := length (heap σ1); lo := 0; hi := nd_rows (Vec (masked to_keep yv)) |}).
  assert (points_to σ1 X' (Mat c (masked to_keep rows))) as HX' by apply points_to_fresh.
  assert (points_to σ2 y' (Vec (masked to_keep yv))) as Hy' by apply points_to_fresh.
  assert (extends σ σ1) as E1 by by eexists.
  assert (extends σ1 σ2) as E2 by by eexists.
  exists X', y', σ2, to_keep.
  split; [|split; [done|split; [done|split; [eauto|split; [done|split; [eauto|]]]]]].
  2: { unfold X', y', σ1. simpl. rewrite length_app. simpl. lia. }
  unfold remove_outliers.
  rewrite (bind_run _ _ _ _ _ (read_mat_run _ _ _ _ HX)).
  rewrite (bind_run _ _ _ _ _ (custom_keep_run σ c rows custom_range Hrect Hrange)).
  rewrite bind_lift, Hu, bind_lift, Hl.
  rewrite bind_lift, broadcast2_same by congruence.
  destruct (fences_zip uq lq) as [Hlow Hup].
  rewrite bind_lift, broadcast2_same, Hlow
    by (rewrite length_fmap, length_zip_with; lia).
  rewrite bind_lift, broadcast2_same, Hup
    by (rewrite length_fmap, length_zip_with; lia).
  fold lowers uppers to_keep.
  rewrite bind_lift, mask_select_run by done.
  erewrite bind_run; [|reflexivity]. fold σ1 X'.
  assert (points_to σ1 y (Vec yv)) as Hy1 by eauto.
  rewrite (bind_run _ _ _ _ _ (read_vec_run _ _ _ Hy1)).
  rewrite bind_lift, mask_select_run by congruence.
  erewrite bind_run; [|reflexivity]. done.
Qed.

Lemma remove_outliers_keeps_witness :
  (points_to Dataset.σ Dataset.X (Mat 3 Dataset.rows) ∧ rectangular 3 Dataset.rows
   ∧ points_to Dataset.σ Dataset.y (Vec Dataset.yv)
   ∧ quantiles Dataset.quantile 0.75 3 Dataset.rows = Ok [40; 7; 6]%float
   ∧ quantiles Dataset.quantile 0.25 3 Dataset.rows = Ok [-999; 7; -999]%float)
  ∧ ∃ X' y' σ' to_keep,
      remove_outliers Dataset.quantile Dataset.X Dataset.y
        (Some [Some (0, 10); None; None]%float) Dataset.σ = Ok ((X', y'), σ')
      ∧ length to_keep = length Dataset.rows
      ∧ (∀ i row, Dataset.rows !! i = Some row →
           (to_keep !! i = Some true
            ↔ row_passes (Some [Some (0, 10); None; None]%float)
                (zip_with lower_fence [40; 7; 6]%float [-999; 7; -999]%float) row))
      ∧ points_to σ' X' (Mat 3 (masked to_keep Dataset.rows))
      ∧ points_to σ' y' (Vec (masked to_keep Dataset.yv))
      ∧ extends Dataset.σ σ'
      ∧ length (heap Dataset.σ) ≤ buf X' ∧ length (heap Dataset.σ) ≤ buf y'.
Proof.
  split; [split; [reflexivity | split; [repeat constructor | repeat split]]|].
  apply (remove_outliers_keeps Dataset.quantile Dataset.σ Dataset.X Dataset.y 3 Dataset.rows
           Dataset.yv (Some [Some (0, 10); None; None]%float)
           [40; 7; 6]%float [-999; 7; -999]%float);
    first [reflexivity | repeat constructor].
Defined.



(** ** [remove_custom_features] and [remove_tiny_features] *)

Lemma collect_fmap {A B} (f : A → result B) (g : A → B) xs :
  Forall (λ x, f x = Ok (g x)) xs → collect f xs = Ok (g <$> xs).
Proof.
  induction 1 as [|x xs Hx _ IH]; simpl; [done|]. by rewrite Hx, IH.
Qed.

Lemma filter_iff_Forall {A} (P1 P2 : A → Prop)
    `{!∀ x, Decision (P1 x), !∀ x, Decision (P2 x)} (l : list A) :
  Forall (λ x, P1 x ↔ P2 x) l → filter P1 l = filter P2 l.
Proof.
  induction 1 as [|x l Hx _ IH]; [done|].
  destruct (decide (P1 x)).
  - rewrite !filter_cons_True by tauto. by rewrite IH.
  - rewrite !filter_cons_False by tauto. by rewrite IH.
Qed.

Lemma wrap_index_wrapped c i :
  (- Z.of_nat c ≤ i < Z.of_nat c)%Z → wrap_index c i = Ok (wrapped c i).
Proof.
  intros Hi. unfold wrap_index, wrapped. repeat case_decide; (done || lia).
Qed.

Lemma elem_of_wrapped c ids j :
  Forall (λ i, (- Z.of_nat c ≤ i < Z.of_nat c)%Z) ids → j < c →
  j ∈ wrapped c <$> ids ↔ Z.of_nat j ∈ ids ∨ (Z.of_nat j - Z.of_nat c)%Z ∈ ids.
Proof.
  intros Hids Hj. rewrite list_elem_of_fmap. rewrite Forall_forall in Hids. split.
  - intros (i & -> & Hi). specialize (Hids i Hi). unfold wrapped. case_decide.
    + left. by rewrite Z2Nat.id.
    + right. replace (Z.of_nat (Z.to_nat (i + Z.of_nat c)) - Z.of_nat c)%Z with i by lia. done.
  - intros [Hi|Hi]; specialize (Hids _ Hi).
    + exists (Z.of_nat j). split; [|done]. unfold wrapped. rewrite decide_True by lia. lia.
    + exists (Z.of_nat j - Z.of_nat c)%Z. split; [|done].
      unfold wrapped. rewrite decide_False by lia. lia.
Qed.

Lemma lookup_permute {A} (xs : list A) idx j :
  Forall (λ i, i < length xs) idx → permute xs idx !! j = idx !! j ≫= (xs !!.).
Proof.
  intros Hidx. revert j. induction Hidx as [|i idx Hi _ IH]; intros j; [done|].
  unfold permute in *. simpl.
  destruct (lookup_lt_is_Some_2 xs i Hi) as [x Hx]. rewrite Hx. simpl.
  destruct j as [|j]; simpl; [done|]. apply IH.
Qed.

(** The run of [np.delete] along the columns, for indices in range. *)
Lemma np_delete_columns_run c rows ids :
  Forall (λ i, (- Z.of_nat c ≤ i < Z.of_nat c)%Z) ids →
  np_delete_columns c rows ids
  = Ok (let kept := kept_columns c (wrapped c <$> ids) in
        Mat (length kept) ((λ row, permute row kept) <$> rows)).
Proof.
  intros Hids. unfold np_delete_columns.
  rewrite (collect_fmap _ (wrapped c)); [done|].
  eapply Forall_impl; [exact Hids|]. intros i Hi. by apply wrap_index_wrapped.
Qed.

Lemma kept_columns_bound c dropped : Forall (λ j, j < c) (kept_columns c dropped).
Proof.
  unfold kept_columns. apply Forall_forall. intros j [_ Hj%elem_of_seq]%list_elem_of_filter. lia.
Qed.

Lemma rectangular_permute c rows kept :
  rectangular c rows → Forall (λ j, j < c) kept →
  rectangular (length kept) ((λ row, permute row kept) <$> rows).
Proof.
  intros Hrect Hkept. unfold rectangular in *. apply Forall_fmap.
  eapply Forall_impl; [exact Hrect|]. intros row <-. simpl. by apply length_permute.
Qed.

(** X26. [remove_custom_features] returns a new array and leaves [X] and every
    other array as they were.  For indices in range, negative ones counting
    from the last column, the new array has the rows of [X] with the listed
    columns left out and the others in their order; listing a column twice,
    or once from each end, changes nothing, and with no column listed the
    new array is a copy of [X]. *)
Theorem remove_custom_features_drops σ X c rows custom_feature_ids :
  points_to σ X (Mat c rows) → rectangular c rows →
  Forall (λ i, (- Z.of_nat c ≤ i < Z.of_nat c)%Z) custom_feature_ids →
  ∃ X_cleaned σ' kept,
    remove_custom_features X custom_feature_ids σ = Ok (X_cleaned, σ')
    ∧ kept = filter (λ j, (Z.of_nat j ∉ custom_feature_ids)
                          ∧ ((Z.of_nat j - Z.of_nat c)%Z ∉ custom_feature_ids)) (seq 0 c)
    ∧ points_to σ' X_cleaned (Mat (length kept) ((λ row, permute row kept) <$> rows))
    ∧ extends σ σ' ∧ length (heap σ) ≤ buf X_cleaned
    ∧ (custom_feature_ids = [] → points_to σ' X_cleaned (Mat c rows)).
Proof.
  intros HX Hrect Hids.
  set (kept := filter (λ j, (Z.of_nat j ∉ custom_feature_ids)
                            ∧ ((Z.of_nat j - Z.of_nat c)%Z ∉ custom_feature_ids)) (seq 0 c)).
  assert (kept_columns c (wrapped c <$> custom_feature_ids) = kept) as Hkept.
  { unfold kept_columns, kept. apply filter_iff_Forall, Forall_forall.
    intros j Hj%elem_of_seq. rewrite elem_of_wrapped by (done || lia). tauto. }
  set (a := Mat (length kept) ((λ row, permute row kept) <$> rows)).
  exists {| buf := length (heap σ); lo := 0; hi := nd_rows a |},
         {| heap := heap σ ++ [a]; draws := draws σ |}, kept.
  split; [|split; [done|split; [apply points_to_fresh|split; [by eexists|split; [done|]]]]].
  - unfold remove_custom_features.
    rewrite (bind_run _ _ _ _ _ (read_mat_run _ _ _ _ HX)).
    rewrite bind_lift, np_delete_columns_run by done. simpl. by rewrite Hkept.
  - intros Hnone.
    assert (∀ l : list nat,
              filter (λ j, (Z.of_nat j ∉ @nil Z) ∧ ((Z.of_nat j - Z.of_nat c)%Z ∉ @nil Z)) l
              = l) as Hall.
    { induction l as [|j l IH]; [done|].
      rewrite filter_cons_True; [by rewrite IH|]. split; apply not_elem_of_nil. }
    replace (Mat c rows) with a; [apply points_to_fresh|].
    unfold a, kept. rewrite Hnone, Hall, length_seq. f_equal.
    rewrite (list_fmap_ext _ id rows); [by rewrite list_fmap_id|].
    intros k row Hrow. simpl.
    unfold rectangular in Hrect. rewrite Forall_lookup in Hrect.
    rewrite <- (Hrect k row Hrow). apply permute_seq.
Qed.

Lemma remove_custom_features_drops_witness :
  (points_to Dataset.σ Dataset.X (Mat 3 Dataset.rows) ∧ rectangular 3 Dataset.rows
   ∧ Forall (λ i, (- Z.of_nat 3 ≤ i < Z.of_nat 3)%Z) [-1; 0; 2]%Z)
  ∧ ∃ X_cleaned σ' kept,
      remove_custom_features Dataset.X [-1; 0; 2]%Z Dataset.σ = Ok (X_cleaned, σ')
      ∧ kept = filter (λ j, (Z.of_nat j ∉ [-1; 0; 2]%Z)
                            ∧ ((Z.of_nat j - Z.of_nat 3)%Z ∉ [-1; 0; 2]%Z)) (seq 0 3)
      ∧ points_to σ' X_cleaned
          (Mat (length kept) ((λ row, permute row kept) <$> Dataset.rows))
      ∧ extends Dataset.σ σ' ∧ length (heap Dataset.σ) ≤ buf X_cleaned
      ∧ ([-1; 0; 2]%Z = [] → points_to σ' X_cleaned (Mat 3 Dataset.rows)).
Proof.
  split; [split; [reflexivity | split; [repeat constructor | repeat constructor; lia]]|].
  apply (remove_custom_features_drops Dataset.σ Dataset.X 3 Dataset.rows [-1; 0; 2]%Z);
    [reflexivity | repeat constructor | repeat constructor; lia].
Defined.

Lemma filter_loop_run (P : nat → Prop) `{!∀ i, Decision (P i)} (xs : list nat)
    (acc : list Z) σ :
  for_each xs acc (λ i remove_features,
    if decide (P i) then mret (remove_features ++ [Z.of_nat i]) else mret remove_features) σ
  = Ok (acc ++ (Z.of_nat <$> filter P xs), σ).
Proof.
  revert acc. induction xs as [|x xs IH]; intros acc; simpl.
  - by rewrite app_nil_r.
  - destruct (decide (P x)) as [Hx|Hx].
    + erewrite bind_run; [|reflexivity]. rewrite IH, filter_cons_True by done.
      by rewrite fmap_cons, <- app_assoc.
    + erewrite bind_run; [|reflexivity]. by rewrite IH, filter_cons_False by done.
Qed.

Lemma kept_columns_complement (P : nat → Prop) `{!∀ i, Decision (P i)} c :
  kept_columns c (wrapped c <$> (Z.of_nat <$> filter P (seq 0 c)))
  = filter (λ i, ¬ P i) (seq 0 c).
Proof.
  unfold kept_columns. apply filter_iff_Forall, Forall_forall. intros j Hj%elem_of_seq.
  rewrite <- list_fmap_compose.
  rewrite (list_fmap_ext (wrapped c ∘ Z.of_nat) id (filter P (seq 0 c))), list_fmap_id.
  - rewrite list_elem_of_filter, elem_of_seq. split; [tauto|]. intros Hnot [HP _]. done.
  - intros k i _. simpl. unfold wrapped. rewrite decide_True by lia. lia.
Qed.

Lemma length_filter_complement {A} (P : A → Prop) `{!∀ x, Decision (P x)} (l : list A) :
  length (filter (λ x, ¬ P x) l) = length l - length (filter P l).
Proof.
  induction l as [|x l IH]; [done|].
  pose proof (length_filter P l) as Hle.
  destruct (decide (P x)).
  - rewrite (filter_cons_True P), (filter_cons_False (λ x, ¬ P x)) by tauto. simpl. lia.
  - rewrite (filter_cons_False P), (filter_cons_True (λ x, ¬ P x)) by tauto. simpl. lia.
Qed.

(** The run of [remove_tiny_features]. *)
Lemma remove_tiny_features_run unique_count σ X c rows threshold :
  points_to σ X (Mat c rows) →
  let tiny := λ i, (Z.of_nat (unique_count (column i rows)) ≤ threshold)%Z in
  let kept := filter (λ i, ¬ tiny i) (seq 0 c) in
  let a := Mat (length kept) ((λ row, permute row kept) <$> rows) in
  remove_tiny_features unique_count X threshold σ
  = Ok (({| buf := length (heap σ); lo := 0; hi := nd_rows a |},
         Z.of_nat <$> filter tiny (seq 0 c)),
        {| heap := heap σ ++ [a]; draws := draws σ |}).
Proof.
  intros HX tiny kept a. unfold remove_tiny_features.
  rewrite (bind_run _ _ _ _ _ (read_mat_run _ _ _ _ HX)).
  rewrite (bind_run _ _ _ _ _ (filter_loop_run tiny (seq 0 c) [] σ)). simpl.
  rewrite bind_lift, np_delete_columns_run.
  - simpl. rewrite (kept_columns_complement tiny). done.
  - apply Forall_fmap, Forall_forall. intros i [_ Hi%elem_of_seq]%list_elem_of_filter.
    simpl. lia.
Qed.

(** X27. [remove_tiny_features] returns, in increasing order, the indices of
    the columns in which [np.unique] finds at most [threshold] values, and a
    new array with the other columns of [X] in their order; the new array has
    as many columns as [X] less the number of indices returned.  [X] and
    every other array are left as they were. *)
Theorem remove_tiny_features_removes unique_count σ X c rows threshold :
  points_to σ X (Mat c rows) → rectangular c rows →
  ∃ X_cleaned σ' removed kept,
    remove_tiny_features unique_count X threshold σ
    = Ok ((X_cleaned, Z.of_nat <$> removed), σ')
    ∧ removed = filter (λ i, (Z.of_nat (unique_count (column i rows)) ≤ threshold)%Z) (seq 0 c)
    ∧ kept = filter (λ i, (threshold < Z.of_nat (unique_count (column i rows)))%Z) (seq 0 c)
    ∧ points_to σ' X_cleaned (Mat (c - length removed) ((λ row, permute row kept) <$> rows))
    ∧ extends σ σ' ∧ length (heap σ) ≤ buf X_cleaned.
Proof.
  intros HX _.
  set (tiny := λ i, (Z.of_nat (unique_count (column i rows)) ≤ threshold)%Z).
  assert (filter (λ i, ¬ tiny i) (seq 0 c)
          = filter (λ i, (threshold < Z.of_nat (unique_count (column i rows)))%Z) (seq 0 c))
    as Hkept.
  { apply list_filter_iff. intros i. unfold tiny. lia. }
  eexists _, _, (filter tiny (seq 0 c)), (filter (λ i, ¬ tiny i) (seq 0 c)).
  split; [by apply remove_tiny_features_run|].
  split; [done|]. split; [done|]. split; [|split; [by eexists | done]].
  replace (c - length (filter tiny (seq 0 c)))
    with (length (filter (λ i, ¬ tiny i) (seq 0 c)))
    by (rewrite length_filter_complement, length_seq; done).
  apply points_to_fresh.
Qed.

Lemma remove_tiny_features_removes_witness :
  (points_to Dataset.σ Dataset.X (Mat 3 Dataset.rows) ∧ rectangular 3 Dataset.rows)
  ∧ ∃ X_cleaned σ' removed kept,
      remove_tiny_features Dataset.unique_count Dataset.X 1 Dataset.σ
      = Ok ((X_cleaned, Z.of_nat <$> removed), σ')
      ∧ removed = filter (λ i, (Z.of_nat (Dataset.unique_count (column i Dataset.rows)) ≤ 1)%Z)
                    (seq 0 3)
      ∧ kept = filter (λ i, (1 < Z.of_nat (Dataset.unique_count (column i Dataset.rows)))%Z)
                 (seq 0 3)
      ∧ points_to σ' X_cleaned
          (Mat (3 - length removed) ((λ row, permute row kept) <$> Dataset.rows))
      ∧ extends Dataset.σ σ' ∧ length (heap Dataset.σ) ≤ buf X_cleaned.
Proof.
  split; [split; [reflexivity | repeat constructor]|].
  apply (remove_tiny_features_removes Dataset.unique_count Dataset.σ Dataset.X 3 Dataset.rows 1);
    [reflexivity | repeat constructor].
Defined.

Lemma column_permute c rows kept j k :
  rectangular c rows → Forall (λ i, i < c) kept → kept !! j = Some k →
  column j ((λ row, permute row kept) <$> rows) = column k rows.
Proof.
  intros Hrect Hkept Hk. unfold column. rewrite <- list_fmap_compose.
  apply list_fmap_ext. intros i row Hrow. simpl.
  unfold rectangular in Hrect. rewrite Forall_lookup in Hrect.
  rewrite lookup_permute by (by rewrite (Hrect i row Hrow)).
  by rewrite Hk.
Qed.

Lemma filter_nil_Forall {A} (P : A → Prop) `{!∀ x, Decision (P x)} (l : list A) :
  Forall (λ x, ¬ P x) l → filter P l = [] ∧ filter (λ x, ¬ P x) l = l.
Proof.
  induction 1 as [|x l Hx _ [IH1 IH2]]; [done|].
  by rewrite (filter_cons_False P), (filter_cons_True (λ x, ¬ P x)), IH1, IH2.
Qed.

(** X28. on the array [remove_tiny_features] has returned, a second call with
    the same threshold finds no column to remove: it returns the empty list
    and an array equal to the one it was given. *)
Theorem remove_tiny_features_again unique_count σ X c rows threshold :
  points_to σ X (Mat c rows) → rectangular c rows →
  ∃ X1 removed σ1 a X2 σ2,
    remove_tiny_features unique_count X threshold σ = Ok ((X1, removed), σ1)
    ∧ points_to σ1 X1 a
    ∧ remove_tiny_features unique_count X1 threshold σ1 = Ok ((X2, []), σ2)
    ∧ points_to σ2 X2 a.
Proof.
  intros HX Hrect.
  set (tiny := λ i, (Z.of_nat (unique_count (column i rows)) ≤ threshold)%Z).
  set (kept := filter (λ i, ¬ tiny i) (seq 0 c)).
  set (rows1 := (λ row, permute row kept) <$> rows).
  set (a := Mat (length kept) rows1).
  set (X1 := {| buf := length (heap σ); lo := 0; hi := nd_rows a |}).
  set (σ1 := {| heap := heap σ ++ [a]; draws := draws σ |}).
  assert (points_to σ1 X1 a) as HX1 by apply points_to_fresh.
  assert (Forall (λ i, i < c) kept) as Hbound.
  { apply Forall_forall. intros i [_ Hi%elem_of_seq]%list_elem_of_filter. lia. }
  assert (rectangular (length kept) rows1) as Hrect1 by by apply (rectangular_permute c).
  set (tiny1 := λ i, (Z.of_nat (unique_count (column i rows1)) ≤ threshold)%Z).
  destruct (filter_nil_Forall tiny1 (seq 0 (length kept))) as [Hnone Hall].
  { apply Forall_forall. intros j Hj%elem_of_seq.
    destruct (lookup_lt_is_Some_2 kept j ltac:(lia)) as [k Hk].
    unfold tiny1, rows1. rewrite (column_permute c rows kept j k) by done.
    apply list_elem_of_lookup_2 in Hk. by apply list_elem_of_filter in Hk as [Hk _]. }
  assert (∃ X2 σ2, remove_tiny_features unique_count X1 threshold σ1 = Ok ((X2, []), σ2)
                   ∧ points_to σ2 X2 a) as (X2 & σ2 & Hrun2 & HX2).
  { rewrite (remove_tiny_features_run unique_count σ1 X1 (length kept) rows1 threshold HX1).
    cbv zeta. unfold tiny1 in Hnone, Hall. cbv beta in Hall.
    rewrite Hnone, Hall. eexists _, _. split; [reflexivity|].
    replace a with (Mat (length (seq 0 (length kept)))
                        ((λ row, permute row (seq 0 (length kept))) <$> rows1)).
    - apply (points_to_fresh σ1).
    - unfold a. rewrite length_seq. f_equal.
      rewrite (list_fmap_ext _ id rows1); [by rewrite list_fmap_id|].
      intros i row Hrow. simpl.
      unfold rectangular in Hrect1. rewrite Forall_lookup in Hrect1.
      rewrite <- (Hrect1 i row Hrow). apply permute_seq. }
  eexists X1, _, σ1, a, X2, σ2.
  split; [by apply remove_tiny_features_run|]. done.
Qed.

Lemma remove_tiny_features_again_witness :
  (points_to Dataset.σ Dataset.X (Mat 3 Dataset.rows) ∧ rectangular 3 Dataset.rows)
  ∧ ∃ X1 removed σ1 a X2 σ2,
      remove_tiny_features Dataset.unique_count Dataset.X 1 Dataset.σ = Ok ((X1, removed), σ1)
      ∧ points_to σ1 X1 a
      ∧ remove_tiny_features Dataset.unique_count X1 1 σ1 = Ok ((X2, []), σ2)
      ∧ points_to σ2 X2 a.
Proof.
  split; [split; [reflexivity | repeat constructor]|].
  apply (remove_tiny_features_again Dataset.unique_count Dataset.σ Dataset.X 3 Dataset.rows 1);
    [reflexivity | repeat constructor].
Defined.

(** X29. the array [remove_tiny_features] returns is the one
    [remove_custom_features] returns for the list of indices that comes with
    it. *)
Theorem remove_tiny_features_as_custom unique_count σ X c rows threshold :
  points_to σ X (Mat c rows) → rectangular c rows →
  ∃ X1 removed σ1 a X2 σ2,
    remove_tiny_features unique_count X threshold σ = Ok ((X1, removed), σ1)
    ∧ points_to σ1 X1 a
    ∧ remove_custom_features X removed σ = Ok (X2, σ2)
    ∧ points_to σ2 X2 a.
Proof.
  intros HX _.
  set (tiny := λ i, (Z.of_nat (unique_count (column i rows)) ≤ threshold)%Z).
  set (kept := filter (λ i, ¬ tiny i) (seq 0 c)).
  set (a := Mat (length kept) ((λ row, permute row kept) <$> rows)).
  eexists _, _, _, a, _, _.
  split; [by apply remove_tiny_features_run|]. split; [apply points_to_fresh|].
  split.
  - unfold remove_custom_features.
    rewrite (bind_run _ _ _ _ _ (read_mat_run _ _ _ _ HX)).
    rewrite bind_lift, np_delete_columns_run.
    + simpl. rewrite (kept_columns_complement tiny). reflexivity.
    + apply Forall_fmap, Forall_forall. intros i [_ Hi%elem_of_seq]%list_elem_of_filter.
      simpl. lia.
  - apply points_to_fresh.
Qed.

Lemma remove_tiny_features_as_custom_witness :
  (points_to Dataset.σ Dataset.X (Mat 3 Dataset.rows) ∧ rectangular 3 Dataset.rows)
  ∧ ∃ X1 removed σ1 a X2 σ2,
      remove_tiny_features Dataset.unique_count Dataset.X 1 Dataset.σ = Ok ((X1, removed), σ1)
      ∧ points_to σ1 X1 a
      ∧ remove_custom_features Dataset.X removed Dataset.σ = Ok (X2, σ2)
      ∧ points_to σ2 X2 a.
Proof.
  split; [split; [reflexivity | repeat constructor]|].
  apply (remove_tiny_features_as_custom Dataset.unique_count Dataset.σ Dataset.X 3
           Dataset.rows 1); [reflexivity | repeat constructor].
Defined.
